(** * A maze-chase arcade game: shallow embedding of [main.py]

    The development follows the layout of the program: configuration
    constants, the [Maze] grid, the [Player], the [Ghost] with its
    lifecycle and direction policy, and the [Game] orchestration of one
    tick.  Integers are Python integers ([Z]); the pixel positions are
    Python floats, kept abstract behind the [FloatOps] interface; the
    calls to [random.choice] read a tape of arbitrary naturals. *)

From Stdlib Require Import ZArith Lia Ascii String.
From stdpp Require Import base list strings.

Open Scope Z_scope.

(* ------------------------------------------------------------------ *)
(** ** Configuration and constants *)

Definition CELL_SIZE : Z := 24.
Definition COLS : Z := 28.
Definition ROWS : Z := 31.

Definition WALL : ascii := "#"%char.
Definition DOT : ascii := "."%char.
Definition POWER : ascii := "o"%char.
Definition EMPTY : ascii := " "%char.
Definition GHOST_GATE : ascii := "="%char.

(** Directions are the five tuples [UP], [DOWN], [LEFT], [RIGHT], [STOP];
    [dvec] gives the tuple. *)
Inductive Direction := UP | DOWN | LEFT | RIGHT | STOP.

Definition dvec (d : Direction) : Z * Z :=
  match d with
  | UP => (0, -1)
  | DOWN => (0, 1)
  | LEFT => (-1, 0)
  | RIGHT => (1, 0)
  | STOP => (0, 0)
  end.

Definition OPPOSITE (d : Direction) : Direction :=
  match d with
  | UP => DOWN
  | DOWN => UP
  | LEFT => RIGHT
  | RIGHT => LEFT
  | STOP => STOP
  end.

#[global] Instance Direction_eq_dec : EqDecision Direction.
Proof. solve_decision. Defined.

Definition CARDINALS : list Direction := [UP; DOWN; LEFT; RIGHT].

Inductive GhostState := GHOST_NORMAL | GHOST_VULNERABLE | GHOST_EYES.

#[global] Instance GhostState_eq_dec : EqDecision GhostState.
Proof. solve_decision. Defined.

(** A cell is the tuple [(x, y)]: column, then row. *)
Abbreviation Cell := (Z * Z)%type (only parsing).

Definition MAZE_LAYOUT : list string := [
  "############################";
  "#............##............#";
  "#.####.#####.##.#####.####.#";
  "#o####.#####.##.#####.####o#";
  "#.####.#####.##.#####.####.#";
  "#..........................#";
  "#.####.##.########.##.####.#";
  "#.####.##.########.##.####.#";
  "#......##....##....##......#";
  "######.##### ## #####.######";
  "     #.##### ## #####.#     ";
  "     #.##          ##.#     ";
  "     #.## ###==### ##.#     ";
  "######.## #      # ##.######";
  "      .   # G  G #   .      ";
  "######.## #      # ##.######";
  "     #.## ######## ##.#     ";
  "     #.##          ##.#     ";
  "     #.## ######## ##.#     ";
  "######.## ######## ##.######";
  "#............##............#";
  "#.####.#####.##.#####.####.#";
  "#o..##................##..o#";
  "###.##.##.########.##.##.###";
  "#......##....##....##......#";
  "#.##########.##.##########.#";
  "#..........................#";
  "#.####.#####.##.#####.####.#";
  "#o........................o#";
  "############################";
  "                            "
]%string.

(** [grid_to_pix]: [int(x * CELL_SIZE + CELL_SIZE / 2)].  The product is
    an integer, [CELL_SIZE / 2] is the float 12.0, and the sum is taken in
    floating point: it is the integer [24 x + 12] as long as that is at
    most 2^53 in magnitude, and is rounded beyond.  Every cell the game
    can hold is far inside that range; the definition gives the exact
    integer and is the source's function on that range only. *)
Definition grid_to_pix (cell : Cell) : Z * Z :=
  (cell.1 * CELL_SIZE + CELL_SIZE / 2, cell.2 * CELL_SIZE + CELL_SIZE / 2).

(** [pix_to_grid], on a position in whole pixels:
    [int(x // CELL_SIZE)] is the floor division. *)
Definition pix_to_grid (pos : Z * Z) : Cell :=
  (pos.1 / CELL_SIZE, pos.2 / CELL_SIZE).

(** Horizontal tunnel wrap, written four times in the source
    ([Maze.is_wall], both [can_move], [Player.update], [Ghost._next_cell]):
    [if x < 0: x = COLS - 1 elif x >= COLS: x = 0]. *)
Definition wrap_col (x : Z) : Z :=
  if x <? 0 then COLS - 1 else if x >=? COLS then 0 else x.

(* ------------------------------------------------------------------ *)
(** ** Maze *)

Abbreviation Grid := (list (list ascii)) (only parsing).

(** What [eat] returns: ["dot"], ["power"] or [None]. *)
Inductive Pellet := dot | power.

Module Maze.

Record t := mk {
  grid : Grid;
  dots_total : Z
  }.

(** [row.count(c)] *)
Fixpoint count (c : ascii) (row : list ascii) : Z :=
  match row with
  | [] => 0
  | a :: row' => (if Ascii.eqb a c then 1 else 0) + count c row'
  end.

(** [sum(row.count(c) for row in grid)] *)
Fixpoint sum_count (c : ascii) (g : Grid) : Z :=
  match g with
  | [] => 0
  | row :: g' => count c row + sum_count c g'
  end.

(** [grid[y][x]], read only after the bounds checks of the caller.  A
  read outside the lists (an [IndexError] in Python) cannot occur on a
  ROWS x COLS grid; the model then answers [EMPTY]. *)
Definition tile (g : Grid) (x y : Z) : ascii :=
  default EMPTY (g !! Z.to_nat y ≫= λ row, row !! Z.to_nat x).

(** [grid[y][x] = c] *)
Definition set_tile (g : Grid) (x y : Z) (c : ascii) : Grid :=
  alter (λ row, <[Z.to_nat x := c]> row) (Z.to_nat y) g.

(** [Maze.__init__] (the wall rectangles are only drawn). *)
Definition init : t :=
  let g := map list_ascii_of_string (take (Z.to_nat ROWS) MAZE_LAYOUT) in
  mk g (sum_count DOT g + sum_count POWER g).

Definition is_wall (m : t) (cell : Cell) : bool :=
  let '(x, y) := cell in
  let x := wrap_col x in
  if (y <? 0) || (y >=? ROWS) then true
  else Ascii.eqb (tile (grid m) x y) WALL.

Definition is_gate (m : t) (cell : Cell) : bool :=
  let '(x, y) := cell in
  if (0 <=? y) && (y <? ROWS) && (0 <=? x) && (x <? COLS)
  then Ascii.eqb (tile (grid m) x y) GHOST_GATE
  else false.

(** The bounds test of [eat]: [0 <= x < COLS and 0 <= y < ROWS]. *)
Definition in_bounds (x y : Z) : bool :=
  (0 <=? x) && (x <? COLS) && (0 <=? y) && (y <? ROWS).

(** [eat] mutates the maze; the model returns the answer and the maze
  after the call. *)
Definition eat (m : t) (cell : Cell) : option Pellet * t :=
  let '(x, y) := cell in
  if in_bounds x y then
  if Ascii.eqb (tile (grid m) x y) DOT then
    (Some dot, mk (set_tile (grid m) x y EMPTY) (dots_total m - 1))
  else if Ascii.eqb (tile (grid m) x y) POWER then
    (Some power, mk (set_tile (grid m) x y EMPTY) (dots_total m - 1))
  else (None, m)
  else (None, m).

Definition remaining_pellets (m : t) : Z := dots_total m.

(** The maze after a sequence of [eat] calls. *)
Definition eat_all (m : t) (cells : list Cell) : t :=
  foldl (λ m c, (eat m c).2) m cells.

(** Number of Minor plus Major collectible tiles present in a grid. *)
Definition collectibles (g : Grid) : Z :=
  sum_count DOT g + sum_count POWER g.

(** The counter agrees with the grid. *)
Definition counted (m : t) : Prop :=
  dots_total m = collectibles (grid m).

(** The shape every maze of the game has: ROWS rows of COLS tiles. *)
Definition well_formed (g : Grid) : Prop :=
  length g = Z.to_nat ROWS ∧ Forall (λ row, length row = Z.to_nat COLS) g.

End Maze.

(** What a successful [eat] of the cell [(x, y)] does to the maze. *)
Definition consumed (m m' : Maze.t) (x y : Z) : Prop :=
  Maze.tile (Maze.grid m') x y = EMPTY
  ∧ (∀ x' y', 0 ≤ x' → 0 ≤ y' → (x', y') ≠ (x, y) →
       Maze.tile (Maze.grid m') x' y' = Maze.tile (Maze.grid m) x' y')
  ∧ Maze.remaining_pellets m' = Maze.remaining_pellets m - 1.

Arguments Maze.init : simpl never.
Arguments Maze.eat : simpl never.

(* ------------------------------------------------------------------ *)
(** ** Floats and randomness *)

(** The float operations the program uses.  [flit m e] is the float of
    the decimal literal [m / 10^e] ([flit 18 1] is [1.8]); an integer
    mixed into float arithmetic is [flit z 0]. *)
Class FloatOps (F : Type) := {
  flit : Z → nat → F;
  fadd : F → F → F;
  fsub : F → F → F;
  fmul : F → F → F;
  fdiv : F → F → F;
  fabs : F → F;
  fhypot : F → F → F;
  flt : F → F → bool
}.

Section Geometry.
Context {F : Type} `{!FloatOps F}.

Definition of_int (z : Z) : F := flit z 0.

(** Python's [min(a, b)]: the first argument unless the second is
  smaller. *)
Definition fmin (a b : F) : F := if flt b a then b else a.

(** [list(grid_to_pix(cell))] *)
Definition center (cell : Cell) : F * F :=
  (of_int (grid_to_pix cell).1, of_int (grid_to_pix cell).2).

(** [distance(a, b)] *)
Definition distance (a b : F * F) : F :=
  fhypot (fsub a.1 b.1) (fsub a.2 b.2).

(** [at_center_of_cell], the same text in [Player] and [Ghost]. *)
Definition at_center_of_cell (pos : F * F) (cell : Cell) : bool :=
  let '(cx, cy) := grid_to_pix cell in
  flt (fabs (fsub pos.1 (of_int cx))) (of_int 2)
  && flt (fabs (fsub pos.2 (of_int cy))) (of_int 2).

(** "Move position toward the center of current cell": the last lines
  of [Player.update] and of [Ghost.update]. *)
Definition move_toward (pos : F * F) (cell : Cell) (speed : F) : F * F :=
  let target := grid_to_pix cell in
  let dx := fsub (of_int target.1) pos.1 in
  let dy := fsub (of_int target.2) pos.2 in
  let dist := fhypot dx dy in
  if flt (of_int 0) dist then
  let step := fmin speed dist in
  (fadd pos.1 (fmul (fdiv dx dist) step),
   fadd pos.2 (fmul (fdiv dy dist) step))
  else pos.

(** The collision test of [Game.update]:
  [distance(a, b) < CELL_SIZE * 0.6]. *)
Definition touching (a b : F * F) : bool :=
  flt (distance a b) (fmul (of_int CELL_SIZE) (flit 6 1)).

End Geometry.

(** [random.choice] draws from a tape of naturals: each call consumes one
    entry and indexes the sequence with it modulo the length (index 0 once
    the tape is empty).  Every statement below holds for every tape. *)
Definition Tape : Type := list nat.
Definition Rand (A : Type) : Type := Tape → A * Tape.

Definition ret {A} (a : A) : Rand A := λ t, (a, t).
Definition bind {A B} (m : Rand A) (k : A → Rand B) : Rand B :=
  λ t, let '(a, t') := m t in k a t'.

Declare Scope rand_scope.
Delimit Scope rand_scope with rand.
Notation "'let*' x ':=' m 'in' k" := (bind m (λ x, k))
  (at level 10, x pattern, m at level 100, k at level 200) : rand_scope.
Open Scope rand_scope.

Fixpoint mapR {A B} (f : A → Rand B) (l : list A) : Rand (list B) :=
  match l with
  | [] => ret []
  | a :: l' => let* b := f a in let* bs := mapR f l' in ret (b :: bs)
  end.

(** The program only draws from non-empty sequences. *)
Definition choice (l : list Direction) : Rand Direction :=
  λ t, match t with
       | [] => (default STOP (l !! 0%nat), [])
       | r :: t' => (default STOP (l !! (r mod length l)%nat), t')
       end.

(** Python's [min(seq, key=...)] and [max(seq, key=...)]: the first
    element reaching the extremal key. *)
Fixpoint min_from {A} (key : A → Z) (best : A) (l : list A) : A :=
  match l with
  | [] => best
  | x :: l' => min_from key (if key x <? key best then x else best) l'
  end.

Fixpoint max_from {A} (key : A → Z) (best : A) (l : list A) : A :=
  match l with
  | [] => best
  | x :: l' => max_from key (if key best <? key x then x else best) l'
  end.

Definition py_min {A} (key : A → Z) (l : list A) (dflt : A) : A :=
  match l with [] => dflt | x :: l' => min_from key x l' end.

Definition py_max {A} (key : A → Z) (l : list A) (dflt : A) : A :=
  match l with [] => dflt | x :: l' => max_from key x l' end.

(** The state of the four direction keys, each with its letter twin:
    [keys[K_UP] or keys[K_w]] and so on. *)
Record Keys := mkKeys {
  key_up : bool;
  key_down : bool;
  key_left : bool;
  key_right : bool
}.

(* ------------------------------------------------------------------ *)
(** ** Player *)

Module Player.
Section WithFloat.
Context {F : Type} `{!FloatOps F}.

Record t := mk {
  start_cell : Cell;
  cell : Cell;
  pos : F * F;
  direction : Direction;
  next_direction : Direction;
  speed : F;
  radius : Z;
  alive : bool
  }.

Definition set_cell (c : Cell) (p : t) : t :=
  mk (start_cell p) c (pos p) (direction p) (next_direction p)
   (speed p) (radius p) (alive p).
Definition set_pos (q : F * F) (p : t) : t :=
  mk (start_cell p) (cell p) q (direction p) (next_direction p)
   (speed p) (radius p) (alive p).
Definition set_direction (d : Direction) (p : t) : t :=
  mk (start_cell p) (cell p) (pos p) d (next_direction p)
   (speed p) (radius p) (alive p).
Definition set_next_direction (d : Direction) (p : t) : t :=
  mk (start_cell p) (cell p) (pos p) (direction p) d
   (speed p) (radius p) (alive p).

(** [__init__] stores the start cell and calls [reset]. *)
Definition init (start : Cell) : t :=
  mk start start (center start) STOP STOP (flit 20 1)
   (CELL_SIZE / 2 - 2) true.

Definition reset (p : t) : t := init (start_cell p).

Definition handle_input (keys : Keys) (p : t) : t :=
  if key_up keys then set_next_direction UP p
  else if key_down keys then set_next_direction DOWN p
  else if key_left keys then set_next_direction LEFT p
  else if key_right keys then set_next_direction RIGHT p
  else p.

Definition can_move (maze : Maze.t) (c : Cell) (d : Direction) : bool :=
  let nx := wrap_col (c.1 + (dvec d).1) in
  let ny := c.2 + (dvec d).2 in
  if Maze.is_wall maze (nx, ny) || Maze.is_gate maze (nx, ny)
  then false else true.

Definition update (keys : Keys) (maze : Maze.t) (p : t) : t :=
  let p := handle_input keys p in
  let p :=
  if at_center_of_cell (pos p) (cell p) then
    let p := set_pos (center (cell p)) p in
    let p :=
      if bool_decide (next_direction p ≠ direction p)
         && can_move maze (cell p) (next_direction p)
      then set_direction (next_direction p) p else p in
    let p :=
      if negb (can_move maze (cell p) (direction p))
      then set_direction STOP p else p in
    if bool_decide (direction p ≠ STOP) then
      let nx := wrap_col ((cell p).1 + (dvec (direction p)).1) in
      let ny := (cell p).2 + (dvec (direction p)).2 in
      set_cell (nx, ny) p
    else p
  else p in
  set_pos (move_toward (pos p) (cell p) (speed p)) p.

(** What [reset] leaves: the player on its start cell, at its centre,
  with direction and queued direction cleared. *)
Definition at_start (p : t) : Prop :=
  cell p = start_cell p ∧ pos p = center (start_cell p)
  ∧ direction p = STOP ∧ next_direction p = STOP.

End WithFloat.
Arguments t : clear implicits.
End Player.

Arguments Player.update : simpl never.

(* ------------------------------------------------------------------ *)
(** ** Ghost *)

Module Ghost.
Section WithFloat.
Context {F : Type} `{!FloatOps F}.

(** The colour of a ghost is only drawn and is left out. *)
Record t := mk {
  name : string;
  start_cell : Cell;
  ghost_type : string;
  cell : Cell;
  pos : F * F;
  direction : Direction;
  speed : F;
  state : GhostState;
  vulnerable_timer : Z;
  home_cell : Cell
  }.

Definition set_cell (c : Cell) (g : t) : t :=
  mk (name g) (start_cell g) (ghost_type g) c (pos g) (direction g)
   (speed g) (state g) (vulnerable_timer g) (home_cell g).
Definition set_pos (q : F * F) (g : t) : t :=
  mk (name g) (start_cell g) (ghost_type g) (cell g) q (direction g)
   (speed g) (state g) (vulnerable_timer g) (home_cell g).
Definition set_direction (d : Direction) (g : t) : t :=
  mk (name g) (start_cell g) (ghost_type g) (cell g) (pos g) d
   (speed g) (state g) (vulnerable_timer g) (home_cell g).
Definition set_speed (v : F) (g : t) : t :=
  mk (name g) (start_cell g) (ghost_type g) (cell g) (pos g) (direction g)
   v (state g) (vulnerable_timer g) (home_cell g).
Definition set_state (s : GhostState) (g : t) : t :=
  mk (name g) (start_cell g) (ghost_type g) (cell g) (pos g) (direction g)
   (speed g) s (vulnerable_timer g) (home_cell g).
Definition set_vulnerable_timer (n : Z) (g : t) : t :=
  mk (name g) (start_cell g) (ghost_type g) (cell g) (pos g) (direction g)
   (speed g) (state g) n (home_cell g).

(** [__init__] stores name, start cell and type and calls [reset]. *)
Definition init (nm : string) (start : Cell) (gt : string) : Rand t :=
  let* d := choice CARDINALS in
  ret (mk nm start gt start (center start) d (flit 18 1)
        GHOST_NORMAL 0 start).

Definition reset (g : t) : Rand t :=
  init (name g) (start_cell g) (ghost_type g).

Definition set_vulnerable (duration_ms : Z) (g : t) : t :=
  if bool_decide (state g = GHOST_EYES) then g
  else set_vulnerable_timer duration_ms (set_state GHOST_VULNERABLE g).

Definition eaten (g : t) : t :=
  set_speed (flit 24 1) (set_state GHOST_EYES g).

Definition revive_if_at_home (g : t) : Rand t :=
  if bool_decide (state g = GHOST_EYES)
   && bool_decide (cell g = home_cell g)
  then
  let g := set_speed (flit 18 1) (set_state GHOST_NORMAL g) in
  let* d := choice CARDINALS in
  ret (set_direction d g)
  else ret g.

Definition can_move (g : t) (maze : Maze.t) (c : Cell) (d : Direction)
  : bool :=
  let nx := wrap_col (c.1 + (dvec d).1) in
  let ny := c.2 + (dvec d).2 in
  if (ny <? 0) || (ny >=? ROWS) then false
  else if Maze.is_wall maze (nx, ny) then false
  else if Maze.is_gate maze (nx, ny)
        && bool_decide (state g ≠ GHOST_EYES) then false
  else true.

(** Manhattan distance *)
Definition _heuristic (a b : Cell) : Z :=
  Z.abs (a.1 - b.1) + Z.abs (a.2 - b.2).

Definition _next_cell (c : Cell) (d : Direction) : Cell :=
  (wrap_col (c.1 + (dvec d).1), c.2 + (dvec d).2).

(** The list [valid_dirs] built by the first loop of
  [choose_direction]. *)
Definition valid_dirs (g : t) (maze : Maze.t) : list Direction :=
  List.filter
  (λ d, negb (bool_decide (d = OPPOSITE (direction g)))
        && can_move g maze (cell g) d)
  CARDINALS.

Definition choose_direction (g : t) (maze : Maze.t) (target_cell : Cell)
  : Rand Direction :=
  let key d := _heuristic (_next_cell (cell g) d) target_cell in
  match valid_dirs g maze with
  | [] =>
    let rev := OPPOSITE (direction g) in
    if can_move g maze (cell g) rev then ret rev
    else
      match List.find (can_move g maze (cell g)) CARDINALS with
      | Some d => ret d
      | None => ret STOP
      end
  | vd =>
    if bool_decide (state g = GHOST_VULNERABLE)
       && String.eqb (ghost_type g) "chaser"
    then ret (py_max key vd STOP)
    else if String.eqb (ghost_type g) "random" then choice vd
    else ret (py_min key vd STOP)
  end.

(** The timer lines that open [update]. *)
Definition tick_timer (dt_ms : Z) (g : t) : t :=
  if bool_decide (state g = GHOST_VULNERABLE) then
  let g := set_vulnerable_timer (vulnerable_timer g - dt_ms) g in
  if vulnerable_timer g <=? 0
  then set_speed (flit 18 1) (set_state GHOST_NORMAL g)
  else g
  else g.

(** "Decide direction at cell centers" *)
Definition steer (maze : Maze.t) (player_cell : Cell) (g : t) : Rand t :=
  if at_center_of_cell (pos g) (cell g) then
  let g := set_pos (center (cell g)) g in
  let target :=
    if bool_decide (state g = GHOST_EYES) then home_cell g
    else player_cell in
  let* d := choose_direction g maze target in
  let g := set_direction d g in
  if bool_decide (direction g ≠ STOP)
     && can_move g maze (cell g) (direction g)
  then ret (set_cell (_next_cell (cell g) (direction g)) g)
  else ret g
  else ret g.

(** "Move toward center" *)
Definition glide (g : t) : t :=
  let speed :=
  fmul (speed g)
       (if bool_decide (state g = GHOST_VULNERABLE)
        then flit 6 1 else flit 10 1) in
  set_pos (move_toward (pos g) (cell g) speed) g.

Definition update (maze : Maze.t) (player_cell : Cell) (dt_ms : Z) (g : t)
  : Rand t :=
  let g := tick_timer dt_ms g in
  let* g := steer maze player_cell g in
  let g := glide g in
  revive_if_at_home g.

(** The [update] of successive ticks, each with its maze, target and
  elapsed time. *)
Fixpoint updates (ticks : list (Maze.t * Cell * Z)) (g : t) : Rand t :=
  match ticks with
  | [] => ret g
  | (maze, player_cell, dt_ms) :: ticks' =>
      let* g' := update maze player_cell dt_ms g in updates ticks' g'
  end.

(** The ghost house of the layout: the cells enclosed by the walls and
  the gate around the two start cells. *)
Definition in_house (c : Cell) : bool :=
  (11 <=? c.1) && (c.1 <=? 16) && (13 <=? c.2) && (c.2 <=? 15).

(** A ghost whose start and home cells are in the house, and whose own
  cell is in the house unless it is in eyes state. *)
Definition housed (g : t) : Prop :=
  in_house (start_cell g) = true ∧ in_house (home_cell g) = true
  ∧ (state g ≠ GHOST_EYES → in_house (cell g) = true).

(** The calls through which the game writes the lifecycle [state] of a
  ghost: the broadcast [set_vulnerable], [eaten], [reset], and the
  [update] of every tick. *)
Inductive Call :=
  | Broadcast (duration_ms : Z)
  | Eaten_
  | Reset
  | Tick (maze : Maze.t) (player_cell : Cell) (dt_ms : Z).

Definition call (c : Call) (g : t) : Rand t :=
  match c with
  | Broadcast duration_ms => ret (set_vulnerable duration_ms g)
  | Eaten_ => ret (eaten g)
  | Reset => reset g
  | Tick maze player_cell dt_ms => update maze player_cell dt_ms g
  end.

(** What [reset] leaves: the ghost on its start cell, at its centre, in
  normal state with no countdown, heading in one of the four cardinal
  directions. *)
Definition at_start (g : t) : Prop :=
  cell g = start_cell g ∧ pos g = center (start_cell g)
  ∧ state g = GHOST_NORMAL ∧ vulnerable_timer g = 0
  ∧ home_cell g = start_cell g ∧ direction g ∈ CARDINALS.

(** The number of ghosts in vulnerable state. *)
Fixpoint vulnerable_count (gs : list t) : Z :=
  match gs with
  | [] => 0
  | g :: gs' =>
    (if bool_decide (state g = GHOST_VULNERABLE) then 1 else 0)
    + vulnerable_count gs'
  end.

(** The three transitions of the lifecycle summary, between a ghost [g]
  before a call and [g'] after it: the broadcast (from normal or
  vulnerable to vulnerable), the expiry of the countdown (vulnerable to
  normal), the arrival at home (eyes to normal). *)
Definition listed_transition (g g' : t) : Prop :=
  (state g ≠ GHOST_EYES ∧ state g' = GHOST_VULNERABLE)
  ∨ (state g = GHOST_VULNERABLE ∧ state g' = GHOST_NORMAL
   ∧ vulnerable_timer g' ≤ 0)
  ∨ (state g = GHOST_EYES ∧ state g' = GHOST_NORMAL
   ∧ cell g' = home_cell g').

End WithFloat.
Arguments t : clear implicits.
End Ghost.

Arguments Ghost.update : simpl never.
Arguments Ghost.choose_direction : simpl never.

(* ------------------------------------------------------------------ *)
(** ** Game *)

(** What a tick can be observed to do to the combo chain: a Major
    collectible was consumed, or a ghost was eaten and the score rose by
    [award]. *)
Inductive Event := Major | Eaten (award : Z).

(** The sum of a list of amounts. *)
Fixpoint total (l : list Z) : Z :=
  match l with
  | [] => 0
  | a :: l' => a + total l'
  end.

(** The amounts by which the score rose at the ghosts eaten, in order. *)
Fixpoint awards (log : list Event) : list Z :=
  match log with
  | [] => []
  | Major :: log' => awards log'
  | Eaten a :: log' => a :: awards log'
  end.

(** [base * 2^first, base * 2^(first+1), ...], [n] amounts. *)
Fixpoint doubling (base first : Z) (n : nat) : list Z :=
  match n with
  | O => []
  | S n' => base * 2 ^ first :: doubling base (first + 1) n'
  end.

(** [chained base c log c']: along [log], starting with the combo at [c],
    every eaten ghost was paid [base * 2 ^ combo] and raised the combo by
    one, every Major put the combo back to 0, and the combo ends at
    [c']. *)
Fixpoint chained (base c : Z) (log : list Event) (c' : Z) : Prop :=
  match log with
  | [] => c' = c
  | Major :: log' => chained base 0 log' c'
  | Eaten a :: log' => a = base * 2 ^ c ∧ chained base (c + 1) log' c'
  end.

Module Game.
Section WithFloat.
Context {F : Type} `{!FloatOps F}.

(** The pygame screen, clock and font are left out. *)
Record t := mk {
  maze : Maze.t;
  player_start : Cell;
  player : Player.t F;
  ghosts : list (Ghost.t F);
  score : Z;
  lives : Z;
  level : Z;
  power_duration_ms : Z;
  ghost_score_base : Z;
  ghost_combo : Z;
  game_over : bool
  }.

Definition set_maze (m : Maze.t) (G : t) : t :=
  mk m (player_start G) (player G) (ghosts G) (score G) (lives G)
   (level G) (power_duration_ms G) (ghost_score_base G) (ghost_combo G)
   (game_over G).
Definition set_player (p : Player.t F) (G : t) : t :=
  mk (maze G) (player_start G) p (ghosts G) (score G) (lives G)
   (level G) (power_duration_ms G) (ghost_score_base G) (ghost_combo G)
   (game_over G).
Definition set_ghosts (gs : list (Ghost.t F)) (G : t) : t :=
  mk (maze G) (player_start G) (player G) gs (score G) (lives G)
   (level G) (power_duration_ms G) (ghost_score_base G) (ghost_combo G)
   (game_over G).
Definition set_score (n : Z) (G : t) : t :=
  mk (maze G) (player_start G) (player G) (ghosts G) n (lives G)
   (level G) (power_duration_ms G) (ghost_score_base G) (ghost_combo G)
   (game_over G).
Definition set_lives (n : Z) (G : t) : t :=
  mk (maze G) (player_start G) (player G) (ghosts G) (score G) n
   (level G) (power_duration_ms G) (ghost_score_base G) (ghost_combo G)
   (game_over G).
Definition set_level (n : Z) (G : t) : t :=
  mk (maze G) (player_start G) (player G) (ghosts G) (score G) (lives G)
   n (power_duration_ms G) (ghost_score_base G) (ghost_combo G)
   (game_over G).
Definition set_ghost_combo (n : Z) (G : t) : t :=
  mk (maze G) (player_start G) (player G) (ghosts G) (score G) (lives G)
   (level G) (power_duration_ms G) (ghost_score_base G) n
   (game_over G).
Definition set_game_over (b : bool) (G : t) : t :=
  mk (maze G) (player_start G) (player G) (ghosts G) (score G) (lives G)
   (level G) (power_duration_ms G) (ghost_score_base G) (ghost_combo G)
   b.

Definition init : Rand t :=
  let* blinky := Ghost.init "Blinky" (13, 14) "chaser" in
  let* pinky := Ghost.init "Pinky" (14, 14) "random" in
  ret (mk Maze.init (13, 23) (Player.init (13, 23)) [blinky; pinky]
        0 3 1 6000 200 0 false).

Definition reset_positions (G : t) : Rand t :=
  let G := set_player (Player.reset (player G)) G in
  let* gs := mapR Ghost.reset (ghosts G) in
  ret (set_ghosts gs G).

Definition next_level (G : t) : Rand t :=
  let G := set_maze Maze.init G in
  let G := set_level (level G + 1) G in
  reset_positions G.

(** [update], first part: the player moves, then every ghost, in list
  order, with the player's new cell as target. *)
Definition advance (keys : Keys) (dt_ms : Z) (G : t) : Rand t :=
  let G := set_player (Player.update keys (maze G) (player G)) G in
  let* gs :=
  mapR (Ghost.update (maze G) (Player.cell (player G)) dt_ms)
       (ghosts G) in
  ret (set_ghosts gs G).

(** "Eat pellets" *)
Definition eat_pellets (G : t) : t :=
  let '(ate, m) := Maze.eat (maze G) (Player.cell (player G)) in
  let G := set_maze m G in
  match ate with
  | Some dot => set_score (score G + 10) G
  | Some power =>
    let G := set_score (score G + 50) G in
    let G := set_ghost_combo 0 G in
    set_ghosts (map (Ghost.set_vulnerable (power_duration_ms G))
                    (ghosts G)) G
  | None => G
  end.

(** The branch of the collision loop for a vulnerable ghost, the
  [i]-th of the list.  The combo is at least 1 after the increment, so
  the power is an integer power. *)
Definition eat_ghost (i : nat) (g : Ghost.t F) (G : t) : t :=
  let G := set_ghosts (<[i := Ghost.eaten g]> (ghosts G)) G in
  let G := set_ghost_combo (ghost_combo G + 1) G in
  set_score (score G + ghost_score_base G * 2 ^ (ghost_combo G - 1)) G.

(** The branch for a ghost in normal state, up to the [break]. *)
Definition lose_life (G : t) : Rand t :=
  let G := set_lives (lives G - 1) G in
  let G := if lives G <=? 0 then set_game_over true G else G in
  reset_positions G.

(** "Collisions with ghosts": the loop visits the ghosts by index; [n]
  is the number of ghosts still to visit. *)
Fixpoint collide (n i : nat) (G : t) : Rand t :=
  match n with
  | O => ret G
  | S n' =>
    match ghosts G !! i with
    | None => ret G
    | Some g =>
        if touching (Player.pos (player G)) (Ghost.pos g) then
          match Ghost.state g with
          | GHOST_VULNERABLE => collide n' (S i) (eat_ghost i g G)
          | GHOST_NORMAL => lose_life G
          | GHOST_EYES => collide n' (S i) G
          end
        else collide n' (S i) G
    end
  end.

Definition resolve_collisions (G : t) : Rand t :=
  collide (length (ghosts G)) 0 G.

(** "Level complete" *)
Definition level_complete (G : t) : Rand t :=
  if Maze.remaining_pellets (maze G) <=? 0 then next_level G else ret G.

Definition update (keys : Keys) (dt_ms : Z) (G : t) : Rand t :=
  if game_over G then ret G
  else
  let* G := advance keys dt_ms G in
  let G := eat_pellets G in
  let* G := resolve_collisions G in
  level_complete G.

(** *** Observing a tick

  The same loop, which also records by how much the score rose at
  each eaten ghost. *)
Fixpoint collide_log (n i : nat) (G : t) : Rand (t * list Event) :=
  match n with
  | O => ret (G, [])
  | S n' =>
    match ghosts G !! i with
    | None => ret (G, [])
    | Some g =>
        if touching (Player.pos (player G)) (Ghost.pos g) then
          match Ghost.state g with
          | GHOST_VULNERABLE =>
              let G' := eat_ghost i g G in
              let* r := collide_log n' (S i) G' in
              ret (r.1, Eaten (score G' - score G) :: r.2)
          | GHOST_NORMAL => let* G' := lose_life G in ret (G', [])
          | GHOST_EYES => collide_log n' (S i) G
          end
        else collide_log n' (S i) G
    end
  end.

(** Whether the "Eat pellets" step of a tick consumes a Major. *)
Definition eats_major (G : t) : bool :=
  match (Maze.eat (maze G) (Player.cell (player G))).1 with
  | Some power => true
  | _ => false
  end.

Definition update_log (keys : Keys) (dt_ms : Z) (G : t)
  : Rand (t * list Event) :=
  if game_over G then ret (G, [])
  else
  let* G1 := advance keys dt_ms G in
  let G2 := eat_pellets G1 in
  let* r := collide_log (length (ghosts G2)) 0 G2 in
  let* G4 := level_complete r.1 in
  ret (G4, (if eats_major G1 then [Major] else []) ++ r.2).

(** A session: the ticks of [run], one per frame, each with the keys
  held and the elapsed milliseconds. *)
Fixpoint run_log (inputs : list (Keys * Z)) (G : t)
  : Rand (t * list Event) :=
  match inputs with
  | [] => ret (G, [])
  | (keys, dt_ms) :: inputs' =>
    let* r := update_log keys dt_ms G in
    let* r' := run_log inputs' r.1 in
    ret (r'.1, r.2 ++ r'.2)
  end.

Fixpoint run (inputs : list (Keys * Z)) (G : t) : Rand t :=
  match inputs with
  | [] => ret G
  | (keys, dt_ms) :: inputs' =>
    let* G' := update keys dt_ms G in run inputs' G'
  end.

(** [all_at_start G0 G]: in [G] the player and every ghost of [G0] are
  back at their start. *)
Definition all_at_start (G0 G : t) : Prop :=
  Player.at_start (player G)
  ∧ Player.start_cell (player G) = Player.start_cell (player G0)
  ∧ Forall2 (λ g g', Ghost.at_start g'
                   ∧ Ghost.start_cell g' = Ghost.start_cell g)
          (ghosts G0) (ghosts G).

(** The test of the collision loop that costs a life, for the ghost of
  index [j]: it touches the player and is in normal state. *)
Definition fatal (G : t) (j : nat) : bool :=
  match ghosts G !! j with
  | Some g =>
    touching (Player.pos (player G)) (Ghost.pos g)
    && bool_decide (Ghost.state g = GHOST_NORMAL)
  | None => false
  end.

(** The counters of a session. *)
Definition ledger (G : t) : Z * Z * Z * Z * bool * Z * Z :=
  (score G, lives G, level G, ghost_combo G, game_over G,
   ghost_score_base G, power_duration_ms G).

(** The state in which the collision loop of a tick starts. *)
Definition before_collisions (keys : Keys) (dt_ms : Z) (G : t) : Rand t :=
  let* G := advance keys dt_ms G in ret (eat_pellets G).

(** The combo never exceeds the number of ghosts that are no longer
  vulnerable. *)
Definition combo_bounded (G : t) : Prop :=
  0 ≤ ghost_combo G
  ∧ ghost_combo G + Ghost.vulnerable_count (ghosts G)
  ≤ Z.of_nat (length (ghosts G)).

(** The states a session can be in between two ticks. *)
Inductive reachable : t → Prop :=
  | reach_init tape : reachable (init tape).1
  | reach_update G keys dt_ms tape :
  reachable G → reachable (update keys dt_ms G tape).1.

(** [handle_restart]: [keys[pygame.K_r]] is [key_r]; [self.__init__()]
  starts the session afresh. *)
Definition handle_restart (key_r : bool) (G : t) : Rand t :=
  if game_over G && key_r then init else ret G.

(** One turn of the loop of [run]: [update], then [handle_restart]
  (events and drawing left out). *)
Definition frame (keys : Keys) (key_r : bool) (dt_ms : Z) (G : t) : Rand t :=
  let* G := update keys dt_ms G in handle_restart key_r G.

Fixpoint frames (inputs : list (Keys * bool * Z)) (G : t) : Rand t :=
  match inputs with
  | [] => ret G
  | (keys, key_r, dt_ms) :: inputs' =>
      let* G' := frame keys key_r dt_ms G in frames inputs' G'
  end.

(** The states [run] goes through. *)
Inductive in_session : t → Prop :=
| session_start tape : in_session (init tape).1
| session_frame G keys key_r dt_ms tape :
    in_session G → in_session (frame keys key_r dt_ms G tape).1.

(** The counters and the cast of a session, as [__init__] sets them and
  [update] keeps them. *)
Definition in_order (G : t) : Prop :=
  0 ≤ lives G ≤ 3 ∧ (game_over G = true ↔ lives G = 0)
  ∧ 1 ≤ level G ∧ 0 ≤ score G
  ∧ ghost_score_base G = 200 ∧ power_duration_ms G = 6000
  ∧ map Ghost.start_cell (ghosts G) = [(13, 14); (14, 14)]
  ∧ Player.start_cell (player G) = (13, 23).

(** The maze of a session between two ticks: the layout of [Maze()] with
  some, but not all, of its collectibles taken. *)
Definition maze_in_play (G : t) : Prop :=
  Maze.counted (maze G) ∧ Maze.well_formed (Maze.grid (maze G))
  ∧ 0 < Maze.remaining_pellets (maze G) ≤ 262
  ∧ ∀ c, Maze.is_wall (maze G) c = Maze.is_wall Maze.init c
         ∧ Maze.is_gate (maze G) c = Maze.is_gate Maze.init c.

(** Whether some ghost costs a life in the collision loop. *)
Definition any_fatal (G : t) : bool :=
  existsb (fatal G) (seq 0 (length (ghosts G))).

(** The points of the pellet under the player, if any. *)
Definition pellet_points (G : t) : Z :=
  match (Maze.eat (maze G) (Player.cell (player G))).1 with
  | Some dot => 10
  | Some power => 50
  | None => 0
  end.

End WithFloat.
Arguments t : clear implicits.
End Game.

Arguments Game.eat_pellets : simpl never.
Arguments Game.eat_ghost : simpl never.
Arguments Game.advance : simpl never.
Arguments Game.lose_life : simpl never.
Arguments Game.next_level : simpl never.
Arguments Game.reset_positions : simpl never.

(* ------------------------------------------------------------------ *)
(** ** Concrete inputs

    To evaluate the program on concrete states the floats are replaced by
    decimal fixed point with three digits (the float [x] is the integer
    [1000 x]).  The states below only meet values on which this is exact
    or far from any threshold. *)

Module Milli.

Definition lit (m : Z) (e : nat) : Z := m * 1000 / 10 ^ Z.of_nat e.
Definition mul (a b : Z) : Z := a * b / 1000.
Definition div (a b : Z) : Z := a * 1000 / b.
Definition hypot (a b : Z) : Z := Z.sqrt (a * a + b * b).

#[global] Instance ops : FloatOps Z := {|
  flit := lit;
  fadd := Z.add;
  fsub := Z.sub;
  fmul := mul;
  fdiv := div;
  fabs := Z.abs;
  fhypot := hypot;
  flt := Z.ltb
  |}.

(** The pixel position [(x, y)], given in thousandths. *)
Definition at_pix (x y : Z) : Z * Z := (x, y).

End Milli.

Module Examples.

Definition no_keys : Keys := mkKeys false false false false.

(** A player standing on [c], heading [d]. *)
Definition player_on (c : Cell) (d : Direction) : Player.t Z :=
  Player.mk (13, 23) c (center c) d d (flit 20 1) 10 true.

(** A ghost whose cell is [c], drawn at the pixel [q]. *)
Definition ghost_at (nm gt : string) (c : Cell) (q : Z * Z)
         (d : Direction) (s : GhostState) (timer : Z) : Ghost.t Z :=
  let start := if String.eqb nm "Blinky" then (13, 14) else (14, 14) in
  Ghost.mk nm start gt c q d (flit 18 1) s timer start.

Definition game_with (m : Maze.t) (p : Player.t Z) (gs : list (Ghost.t Z))
         (combo : Z) : Game.t Z :=
  Game.mk m (13, 23) p gs 0 3 1 6000 200 combo false.

(** The player at (1, 4) walks up onto the power pellet at (1, 3); two
  ghosts in normal state come down the same corridor, 2 and 4 pixels
  short of the centre of (1, 4). *)
Definition ambush : Game.t Z :=
  game_with Maze.init (player_on (1, 4) UP)
  [ ghost_at "Blinky" "chaser" (1, 4) (Milli.at_pix 36000 110000)
             DOWN GHOST_NORMAL 0;
    ghost_at "Pinky" "random" (1, 4) (Milli.at_pix 36000 112000)
             DOWN GHOST_NORMAL 0 ]
  0.

(** The player stands still on (1, 5); one ghost in normal state is two
  pixels away and the other is at home. *)
Definition caught : Game.t Z :=
  game_with Maze.init (player_on (1, 5) STOP)
  [ ghost_at "Blinky" "chaser" (1, 5) (Milli.at_pix 36000 134000)
             UP GHOST_NORMAL 0;
    ghost_at "Pinky" "random" (14, 14) (center (14, 14))
             LEFT GHOST_NORMAL 0 ]
  0.

(** The layout with every collectible taken but the dot at (5, 5). *)
Definition clear_row (row : list ascii) : list ascii :=
  map (λ c, if Ascii.eqb c DOT || Ascii.eqb c POWER then EMPTY else c) row.

Definition one_dot_maze : Maze.t :=
  Maze.mk (Maze.set_tile (map clear_row (Maze.grid Maze.init)) 5 5 DOT) 1.

(** The player at (4, 5) walks right onto that last dot; both ghosts are
  at home. *)
Definition last_dot : Game.t Z :=
  game_with one_dot_maze (player_on (4, 5) RIGHT)
  [ ghost_at "Blinky" "chaser" (13, 14) (center (13, 14))
             UP GHOST_NORMAL 0;
    ghost_at "Pinky" "random" (14, 14) (center (14, 14))
             LEFT GHOST_NORMAL 0 ]
  0.

(** A chaser at the crossing (6, 5), heading left. *)
Definition at_crossing (s : GhostState) : Ghost.t Z :=
  ghost_at "Blinky" "chaser" (6, 5) (center (6, 5)) LEFT s 3000.

(** A chaser in the pocket (13, 23), whose only exit is up, heading
  down. *)
Definition in_pocket : Ghost.t Z :=
  ghost_at "Blinky" "chaser" (13, 23) (center (13, 23)) DOWN GHOST_NORMAL 0.

End Examples.

(* ================================================================== *)
(** * Properties *)

(* ------------------------------------------------------------------ *)
(** ** The maze and its collectibles *)

Section MazeFacts.

Lemma tiles_distinct :
  DOT ≠ EMPTY ∧ POWER ≠ EMPTY ∧ DOT ≠ POWER ∧ POWER ≠ DOT.
Proof. by repeat split. Qed.

Lemma count_insert_hit (c e : ascii) (row : list ascii) (i : nat) :
  row !! i = Some c → c ≠ e →
  Maze.count c (<[i := e]> row) = Maze.count c row - 1.
Proof.
  revert i. induction row as [|a row IH]; intros [|i] Hi Hne; simplify_eq/=.
  - rewrite Ascii.eqb_refl.
  destruct (Ascii.eqb_spec e c); [congruence | lia].
  - rewrite (IH i) by done. lia.
Qed.

Lemma count_insert_miss (c a e : ascii) (row : list ascii) (i : nat) :
  row !! i = Some a → a ≠ c → c ≠ e →
  Maze.count c (<[i := e]> row) = Maze.count c row.
Proof.
  revert i. induction row as [|b row IH]; intros [|i] Hi Ha Hne; simplify_eq/=.
  - destruct (Ascii.eqb_spec e c), (Ascii.eqb_spec a c); congruence.
  - by rewrite (IH i).
Qed.

Lemma sum_count_alter (c : ascii) (g : Grid) (j : nat) (row : list ascii)
    (f : list ascii → list ascii) :
  g !! j = Some row →
  Maze.sum_count c (alter f j g)
  = Maze.sum_count c g - Maze.count c row + Maze.count c (f row).
Proof.
  revert j. induction g as [|r g IH]; intros [|j] Hj; simplify_eq/=.
  - lia.
  - rewrite (IH j) by done. lia.
Qed.

(** A tile that reads as something else than [EMPTY] is really there. *)
Lemma tile_lookup (g : Grid) (x y : Z) (c : ascii) :
  Maze.tile g x y = c → c ≠ EMPTY →
  ∃ row, g !! Z.to_nat y = Some row ∧ row !! Z.to_nat x = Some c.
Proof.
  unfold Maze.tile. intros Ht Hne.
  destruct (g !! Z.to_nat y) as [row|] eqn:Hrow; simpl in Ht; [|congruence].
  destruct (row !! Z.to_nat x) as [a|] eqn:Ha; simpl in Ht; [|congruence].
  exists row. by subst.
Qed.

Lemma tile_set_tile_same (g : Grid) (x y : Z) (c : ascii) :
  Maze.tile g x y ≠ EMPTY → Maze.tile (Maze.set_tile g x y c) x y = c.
Proof.
  intros Hne.
  destruct (tile_lookup g x y _ eq_refl Hne) as (row & Hrow & Hx).
  unfold Maze.tile, Maze.set_tile.
  rewrite list_lookup_alter_eq, Hrow. simpl.
  rewrite list_lookup_insert_eq; [done|]. by eapply lookup_lt_Some.
Qed.

Lemma tile_set_tile_other (g : Grid) (x y x' y' : Z) (c : ascii) :
  0 ≤ x → 0 ≤ y → 0 ≤ x' → 0 ≤ y' → (x', y') ≠ (x, y) →
  Maze.tile (Maze.set_tile g x y c) x' y' = Maze.tile g x' y'.
Proof.
  intros Hx Hy Hx' Hy' Hne. unfold Maze.tile, Maze.set_tile.
  destruct (decide (Z.to_nat y = Z.to_nat y')) as [Heq|Hney].
  - rewrite <- Heq, list_lookup_alter_eq.
  destruct (g !! Z.to_nat y) as [row|]; simpl; [|done].
  rewrite list_lookup_insert_ne; [done|].
  intros Hxx. apply Hne. f_equal; lia.
  - by rewrite list_lookup_alter_ne.
Qed.

Lemma collectibles_set_tile (g : Grid) (x y : Z) (c : ascii) :
  Maze.tile g x y = c → c = DOT ∨ c = POWER →
  Maze.collectibles (Maze.set_tile g x y EMPTY) = Maze.collectibles g - 1.
Proof.
  intros Ht Hc.
  destruct tiles_distinct as (Hde & Hpe & Hdp & Hpd).
  assert (c ≠ EMPTY) as Hne by (by destruct Hc as [-> | ->]).
  destruct (tile_lookup g x y c Ht Hne) as (row & Hrow & Hx).
  unfold Maze.collectibles, Maze.set_tile.
  rewrite !(sum_count_alter _ _ _ row) by done.
  destruct Hc as [-> | ->].
  - rewrite (count_insert_hit DOT) by done.
  rewrite (count_insert_miss POWER DOT) by done. lia.
  - rewrite (count_insert_hit POWER) by done.
  rewrite (count_insert_miss DOT POWER) by done. lia.
Qed.

Lemma eat_dot (m : Maze.t) (x y : Z) :
  Maze.in_bounds x y = true → Maze.tile (Maze.grid m) x y = DOT →
  Maze.eat m (x, y)
  = (Some dot, Maze.mk (Maze.set_tile (Maze.grid m) x y EMPTY)
                     (Maze.dots_total m - 1)).
Proof.
  unfold Maze.eat. intros -> ->. by rewrite Ascii.eqb_refl.
Qed.

Lemma eat_power (m : Maze.t) (x y : Z) :
  Maze.in_bounds x y = true → Maze.tile (Maze.grid m) x y = POWER →
  Maze.eat m (x, y)
  = (Some power, Maze.mk (Maze.set_tile (Maze.grid m) x y EMPTY)
                       (Maze.dots_total m - 1)).
Proof. unfold Maze.eat. by intros -> ->. Qed.

Lemma eat_none (m : Maze.t) (x y : Z) :
  Maze.in_bounds x y = false
  ∨ (Maze.tile (Maze.grid m) x y ≠ DOT
   ∧ Maze.tile (Maze.grid m) x y ≠ POWER) →
  Maze.eat m (x, y) = (None, m).
Proof.
  unfold Maze.eat. intros [-> | [Hd Hp]]; [done|].
  destruct (Maze.in_bounds x y); [|done].
  destruct (Ascii.eqb_spec (Maze.tile (Maze.grid m) x y) DOT); [done|].
  destruct (Ascii.eqb_spec (Maze.tile (Maze.grid m) x y) POWER); done.
Qed.

(** The three cases of [eat], as one case analysis. *)
Lemma eat_cases (m : Maze.t) (x y : Z) :
  (Maze.in_bounds x y = true ∧ Maze.tile (Maze.grid m) x y = DOT
   ∧ Maze.eat m (x, y)
   = (Some dot, Maze.mk (Maze.set_tile (Maze.grid m) x y EMPTY)
                        (Maze.dots_total m - 1)))
  ∨ (Maze.in_bounds x y = true ∧ Maze.tile (Maze.grid m) x y = POWER
   ∧ Maze.eat m (x, y)
     = (Some power, Maze.mk (Maze.set_tile (Maze.grid m) x y EMPTY)
                            (Maze.dots_total m - 1)))
  ∨ ((Maze.in_bounds x y = false
    ∨ (Maze.tile (Maze.grid m) x y ≠ DOT
       ∧ Maze.tile (Maze.grid m) x y ≠ POWER))
   ∧ Maze.eat m (x, y) = (None, m)).
Proof.
  destruct (Maze.in_bounds x y) eqn:Hb.
  - destruct (decide (Maze.tile (Maze.grid m) x y = DOT)) as [Hd|Hd].
  { left. eauto using eat_dot. }
  destruct (decide (Maze.tile (Maze.grid m) x y = POWER)) as [Hp|Hp].
  { right; left. eauto using eat_power. }
  right; right. split; [by right|]. apply eat_none; by right.
  - right; right. split; [by left|]. apply eat_none. by left.
Qed.

Lemma eat_counted (m : Maze.t) (c : Cell) :
  Maze.counted m → Maze.counted (Maze.eat m c).2.
Proof.
  destruct c as [x y]. unfold Maze.counted. intros Hm.
  destruct (eat_cases m x y) as [(_ & Ht & ->)|[(_ & Ht & ->)|(_ & ->)]];
  simpl; [| |done].
  - rewrite (collectibles_set_tile _ _ _ DOT) by auto. lia.
  - rewrite (collectibles_set_tile _ _ _ POWER) by auto. lia.
Qed.

Lemma eat_remaining_le (m : Maze.t) (c : Cell) :
  Maze.remaining_pellets (Maze.eat m c).2 ≤ Maze.remaining_pellets m.
Proof.
  destruct c as [x y]. unfold Maze.remaining_pellets.
  destruct (eat_cases m x y) as [(_ & _ & ->)|[(_ & _ & ->)|(_ & ->)]];
  simpl; lia.
Qed.

Lemma eat_all_snoc (m : Maze.t) (cells : list Cell) (c : Cell) :
  Maze.eat_all m (cells ++ [c]) = (Maze.eat (Maze.eat_all m cells) c).2.
Proof. unfold Maze.eat_all. by rewrite foldl_app. Qed.

Lemma eat_all_app (m : Maze.t) (cells more : list Cell) :
  Maze.eat_all m (cells ++ more) = Maze.eat_all (Maze.eat_all m cells) more.
Proof. unfold Maze.eat_all. by rewrite foldl_app. Qed.

Lemma eat_all_counted (m : Maze.t) (cells : list Cell) :
  Maze.counted m → Maze.counted (Maze.eat_all m cells).
Proof.
  revert m. induction cells as [|c cells IH]; intros m Hm; [done|].
  simpl. apply IH. by apply eat_counted.
Qed.

Lemma eat_all_remaining_le (m : Maze.t) (cells : list Cell) :
  Maze.remaining_pellets (Maze.eat_all m cells) ≤ Maze.remaining_pellets m.
Proof.
  revert m. induction cells as [|c cells IH]; intros m; [done|].
  simpl. etrans; [apply IH|]. apply eat_remaining_le.
Qed.

Lemma count_nonneg (c : ascii) (row : list ascii) : 0 ≤ Maze.count c row.
Proof. induction row as [|a row IH]; simpl; [lia|]. destruct (Ascii.eqb a c); lia. Qed.

Lemma sum_count_nonneg (c : ascii) (g : Grid) : 0 ≤ Maze.sum_count c g.
Proof.
  induction g as [|row g IH]; simpl; [lia|].
  pose proof (count_nonneg c row). lia.
Qed.

Lemma collectibles_nonneg (g : Grid) : 0 ≤ Maze.collectibles g.
Proof.
  unfold Maze.collectibles.
  pose proof (sum_count_nonneg DOT g). pose proof (sum_count_nonneg POWER g).
  lia.
Qed.

Lemma init_counted : Maze.counted Maze.init.
Proof. reflexivity. Qed.

(** The grid keeps its ROWS x COLS shape, so no read of [tile] after a
  bounds check ever leaves the lists. *)
Lemma init_well_formed : Maze.well_formed (Maze.grid Maze.init).
Proof.
  split; [reflexivity|].
  repeat (apply Forall_cons; split; [reflexivity|]). apply Forall_nil_2.
Qed.

Lemma eat_well_formed (m : Maze.t) (c : Cell) :
  Maze.well_formed (Maze.grid m) →
  Maze.well_formed (Maze.grid (Maze.eat m c).2).
Proof.
  destruct c as [x y]. intros [Hl Hr].
  destruct (eat_cases m x y) as [(_ & _ & ->)|[(_ & _ & ->)|(_ & ->)]];
  simpl; [| |done]; unfold Maze.set_tile;
  (split; [by rewrite length_alter|];
   apply Forall_alter; [done|]; intros row _ Hrow;
   by rewrite length_insert).
Qed.

Lemma well_formed_tile (g : Grid) (x y : Z) :
  Maze.well_formed g → Maze.in_bounds x y = true →
  ∃ row a, g !! Z.to_nat y = Some row ∧ row !! Z.to_nat x = Some a
         ∧ Maze.tile g x y = a.
Proof.
  intros [Hl Hr] Hb. unfold Maze.in_bounds in Hb.
  assert (0 ≤ x < COLS ∧ 0 ≤ y < ROWS) as [Hx Hy] by lia.
  destruct (lookup_lt_is_Some_2 g (Z.to_nat y)) as [row Hrow]; [lia|].
  pose proof (Forall_lookup_1 _ _ _ _ Hr Hrow) as Hlen. simpl in Hlen.
  destruct (lookup_lt_is_Some_2 row (Z.to_nat x)) as [a Ha]; [lia|].
  exists row, a. unfold Maze.tile. by rewrite Hrow; simpl; rewrite Ha.
Qed.

End MazeFacts.

(* ------------------------------------------------------------------ *)
(** ** The direction policy of a ghost *)

Section Extremum.
Context {A : Type} (key : A → Z).

Lemma min_from_spec (l : list A) (best : A) :
  min_from key best l ∈ best :: l
  ∧ ∀ x, x ∈ best :: l → key (min_from key best l) ≤ key x.
Proof.
  revert best. induction l as [|a l IH]; intros best; simpl.
  - split; [by left|]. intros x ->%list_elem_of_singleton. lia.
  - destruct (IH (if key a <? key best then a else best)) as [Hin Hle].
  split.
  + apply elem_of_cons in Hin as [->|Hin].
    * destruct (key a <? key best); [right; left | left].
    * by do 2 right.
  + intros x Hx.
    assert (key (min_from key (if key a <? key best then a else best) l)
            ≤ key (if key a <? key best then a else best)) as Hb
        by (apply Hle; left).
    apply elem_of_cons in Hx as [Hx|Hx].
    * rewrite Hx. destruct (Z.ltb_spec (key a) (key best)); lia.
    * apply elem_of_cons in Hx as [Hx|Hx].
      -- rewrite Hx. destruct (Z.ltb_spec (key a) (key best)); lia.
      -- apply Hle. by right.
Qed.

Lemma max_from_spec (l : list A) (best : A) :
  max_from key best l ∈ best :: l
  ∧ ∀ x, x ∈ best :: l → key x ≤ key (max_from key best l).
Proof.
  revert best. induction l as [|a l IH]; intros best; simpl.
  - split; [by left|]. intros x ->%list_elem_of_singleton. lia.
  - destruct (IH (if key best <? key a then a else best)) as [Hin Hle].
  split.
  + apply elem_of_cons in Hin as [->|Hin].
    * destruct (key best <? key a); [right; left | left].
    * by do 2 right.
  + intros x Hx.
    assert (key (if key best <? key a then a else best)
            ≤ key (max_from key (if key best <? key a then a else best) l))
      as Hb by (apply Hle; left).
    apply elem_of_cons in Hx as [Hx|Hx].
    * rewrite Hx. destruct (Z.ltb_spec (key best) (key a)); lia.
    * apply elem_of_cons in Hx as [Hx|Hx].
      -- rewrite Hx. destruct (Z.ltb_spec (key best) (key a)); lia.
      -- apply Hle. by right.
Qed.

Lemma py_min_spec (l : list A) (dflt : A) :
  l ≠ [] →
  py_min key l dflt ∈ l ∧ ∀ x, x ∈ l → key (py_min key l dflt) ≤ key x.
Proof. destruct l as [|a l]; [done|]. intros _. apply min_from_spec. Qed.

Lemma py_max_spec (l : list A) (dflt : A) :
  l ≠ [] →
  py_max key l dflt ∈ l ∧ ∀ x, x ∈ l → key x ≤ key (py_max key l dflt).
Proof. destruct l as [|a l]; [done|]. intros _. apply max_from_spec. Qed.

Lemma min_from_first (l : list A) (best : A) :
  (∀ x, x ∈ l → key best ≤ key x) → min_from key best l = best.
Proof.
  revert best. induction l as [|a l IH]; intros best Hall; [done|]. simpl.
  destruct (Z.ltb_spec (key a) (key best)) as [Hlt|_].
  - specialize (Hall a ltac:(left)). lia.
  - apply IH. intros x Hx. apply Hall. by right.
Qed.

Lemma max_from_first (l : list A) (best : A) :
  (∀ x, x ∈ l → key x ≤ key best) → max_from key best l = best.
Proof.
  revert best. induction l as [|a l IH]; intros best Hall; [done|]. simpl.
  destruct (Z.ltb_spec (key best) (key a)) as [Hlt|_].
  - specialize (Hall a ltac:(left)). lia.
  - apply IH. intros x Hx. apply Hall. by right.
Qed.

(** When every key is the same, both [min] and [max] answer the first
  element. *)
Lemma py_min_max_tie (l : list A) (dflt : A) :
  (∀ x y, x ∈ l → y ∈ l → key x = key y) →
  py_min key l dflt = py_max key l dflt.
Proof.
  destruct l as [|a l]; [done|]. intros Htie. simpl.
  rewrite min_from_first, max_from_first; [done|..];
  intros x Hx; rewrite (Htie x a); first [lia | by right | by left].
Qed.

End Extremum.

Lemma choice_elem (l : list Direction) (tape : Tape) :
  l ≠ [] → (choice l tape).1 ∈ l.
Proof.
  intros Hl. unfold choice.
  assert (0 < length l)%nat as Hlen by (destruct l; [done | simpl; lia]).
  destruct tape as [|r tape]; simpl.
  - destruct (lookup_lt_is_Some_2 l 0%nat Hlen) as [d Hd].
    rewrite Hd. simpl. by eapply list_elem_of_lookup_2.
  - assert (r mod length l < length l)%nat as Hr
        by (apply Nat.mod_upper_bound; lia).
    destruct (lookup_lt_is_Some_2 l _ Hr) as [d Hd].
    rewrite Hd. simpl. by eapply list_elem_of_lookup_2.
Qed.

Lemma choice_cardinal (tape : Tape) : (choice CARDINALS tape).1 ≠ STOP.
Proof.
  pose proof (choice_elem CARDINALS tape) as Hin.
  intros Hs. rewrite Hs in Hin. specialize (Hin ltac:(done)).
  apply list_elem_of_In in Hin. simpl in Hin. intuition discriminate.
Qed.

Section GhostFacts.
Context {F : Type} `{!FloatOps F}.

Lemma valid_dirs_spec (g : Ghost.t F) (maze : Maze.t) (d : Direction) :
  d ∈ Ghost.valid_dirs g maze
  ↔ d ∈ CARDINALS ∧ d ≠ OPPOSITE (Ghost.direction g)
  ∧ Ghost.can_move g maze (Ghost.cell g) d = true.
Proof.
  unfold Ghost.valid_dirs.
  rewrite !list_elem_of_In, filter_In, andb_true_iff, negb_true_iff.
  rewrite bool_decide_eq_false. tauto.
Qed.

Lemma can_move_alive (g g' : Ghost.t F) (maze : Maze.t) (c : Cell)
    (d : Direction) :
  Ghost.state g ≠ GHOST_EYES → Ghost.state g' ≠ GHOST_EYES →
  Ghost.can_move g maze c d = Ghost.can_move g' maze c d.
Proof.
  intros Hg Hg'. unfold Ghost.can_move.
  by rewrite !bool_decide_eq_true_2.
Qed.

Lemma valid_dirs_alive (g : Ghost.t F) (maze : Maze.t) (s s' : GhostState) :
  s ≠ GHOST_EYES → s' ≠ GHOST_EYES →
  Ghost.valid_dirs (Ghost.set_state s g) maze
  = Ghost.valid_dirs (Ghost.set_state s' g) maze.
Proof.
  intros Hs Hs'. unfold Ghost.valid_dirs. apply filter_ext. intros d.
  f_equal. by apply can_move_alive.
Qed.

(** The answer of [choose_direction] of a chaser with candidates. *)
Lemma choose_chaser (g : Ghost.t F) (maze : Maze.t) (target : Cell)
    (tape : Tape) :
  Ghost.ghost_type g = "chaser"%string → Ghost.valid_dirs g maze ≠ [] →
  let key d := Ghost._heuristic (Ghost._next_cell (Ghost.cell g) d) target in
  Ghost.choose_direction g maze target tape
  = (if bool_decide (Ghost.state g = GHOST_VULNERABLE)
   then py_max key (Ghost.valid_dirs g maze) STOP
   else py_min key (Ghost.valid_dirs g maze) STOP, tape).
Proof.
  intros Hty Hvd key. unfold Ghost.choose_direction. rewrite Hty.
  destruct (Ghost.valid_dirs g maze) as [|d vd]; [done|].
  change (String.eqb "chaser" "chaser") with true.
  change (String.eqb "chaser" "random") with false.
  rewrite andb_true_r. by destruct (bool_decide _).
Qed.

(** Whatever the policy, with candidates the answer is a candidate. *)
Lemma choose_candidate (g : Ghost.t F) (maze : Maze.t) (target : Cell)
    (tape : Tape) :
  Ghost.valid_dirs g maze ≠ [] →
  (Ghost.choose_direction g maze target tape).1 ∈ Ghost.valid_dirs g maze.
Proof.
  intros Hvd. unfold Ghost.choose_direction.
  destruct (Ghost.valid_dirs g maze) as [|d vd] eqn:Hvalid; [done|].
  destruct (_ && _).
  { apply (py_max_spec _ (d :: vd) STOP). done. }
  destruct (String.eqb _ _).
  { by apply choice_elem. }
  apply (py_min_spec _ (d :: vd) STOP). done.
Qed.

(** Without candidates: the dead end. *)
Lemma choose_dead_end (g : Ghost.t F) (maze : Maze.t) (target : Cell)
    (tape : Tape) :
  Ghost.valid_dirs g maze = [] →
  Ghost.choose_direction g maze target tape
  = (if Ghost.can_move g maze (Ghost.cell g) (OPPOSITE (Ghost.direction g))
   then OPPOSITE (Ghost.direction g)
   else match List.find (Ghost.can_move g maze (Ghost.cell g)) CARDINALS with
        | Some d => d
        | None => STOP
        end, tape).
Proof.
  intros Hvd. unfold Ghost.choose_direction. rewrite Hvd.
  destruct (Ghost.can_move _ _ _ (OPPOSITE _)); [done|].
  by destruct (List.find _ _).
Qed.

(** *** Lifecycle *)

Lemma steer_keeps (maze : Maze.t) (pc : Cell) (g : Ghost.t F) (tape : Tape) :
  let g' := (Ghost.steer maze pc g tape).1 in
  Ghost.state g' = Ghost.state g
  ∧ Ghost.vulnerable_timer g' = Ghost.vulnerable_timer g
  ∧ Ghost.home_cell g' = Ghost.home_cell g
  ∧ Ghost.start_cell g' = Ghost.start_cell g.
Proof.
  unfold Ghost.steer, bind, ret.
  destruct (at_center_of_cell _ _); [|done].
  destruct (Ghost.choose_direction _ _ _ _) as [d tape'].
  by destruct (_ && _).
Qed.

Lemma revive_spec (g : Ghost.t F) (tape : Tape) :
  let g' := (Ghost.revive_if_at_home g tape).1 in
  Ghost.cell g' = Ghost.cell g
  ∧ Ghost.home_cell g' = Ghost.home_cell g
  ∧ Ghost.vulnerable_timer g' = Ghost.vulnerable_timer g
  ∧ Ghost.state g'
  = (if bool_decide (Ghost.state g = GHOST_EYES)
        && bool_decide (Ghost.cell g = Ghost.home_cell g)
     then GHOST_NORMAL else Ghost.state g).
Proof.
  unfold Ghost.revive_if_at_home, bind, ret.
  destruct (_ && _); [|done].
  by destruct (choice CARDINALS tape).
Qed.

Lemma tick_timer_spec (dt_ms : Z) (g : Ghost.t F) :
  let g' := Ghost.tick_timer dt_ms g in
  Ghost.cell g' = Ghost.cell g
  ∧ Ghost.home_cell g' = Ghost.home_cell g
  ∧ match Ghost.state g with
  | GHOST_VULNERABLE =>
      Ghost.vulnerable_timer g' = Ghost.vulnerable_timer g - dt_ms
      ∧ Ghost.state g'
        = (if Ghost.vulnerable_timer g - dt_ms <=? 0
           then GHOST_NORMAL else GHOST_VULNERABLE)
  | _ => g' = g
  end.
Proof.
  unfold Ghost.tick_timer.
  destruct (Ghost.state g) eqn:Hs; simpl; try done.
  destruct (_ <=? 0) eqn:Hle; simpl; rewrite ?Hs; done.
Qed.

(** The state of a ghost after its [update]. *)
Lemma update_state (maze : Maze.t) (pc : Cell) (dt_ms : Z) (g : Ghost.t F)
    (tape : Tape) :
  let g' := (Ghost.update maze pc dt_ms g tape).1 in
  Ghost.home_cell g' = Ghost.home_cell g
  ∧ match Ghost.state g with
  | GHOST_NORMAL => Ghost.state g' = GHOST_NORMAL
  | GHOST_VULNERABLE =>
      Ghost.vulnerable_timer g' = Ghost.vulnerable_timer g - dt_ms
      ∧ Ghost.state g'
        = (if Ghost.vulnerable_timer g - dt_ms <=? 0
           then GHOST_NORMAL else GHOST_VULNERABLE)
  | GHOST_EYES =>
      Ghost.state g'
      = (if bool_decide (Ghost.cell g' = Ghost.home_cell g')
         then GHOST_NORMAL else GHOST_EYES)
  end.
Proof.
  unfold Ghost.update, bind.
  pose proof (tick_timer_spec dt_ms g) as (_ & Hh0 & Ht). simpl in Ht.
  pose proof (steer_keeps maze pc (Ghost.tick_timer dt_ms g) tape)
  as (Hs1 & Ht1 & Hh1 & _). simpl in *.
  destruct (Ghost.steer maze pc (Ghost.tick_timer dt_ms g) tape)
  as [g1 tape1]. simpl in *.
  pose proof (revive_spec (Ghost.glide g1) tape1) as (Hc2 & Hh2 & Ht2 & Hs2).
  simpl in *. rewrite Hh2, Hh1, Hh0. split; [done|].
  rewrite Hs2, Hc2, Hs1, Ht2, Ht1.
  destruct (Ghost.state g) eqn:Hs.
  - rewrite Ht, Hs. done.
  - destruct Ht as [Ht Hst]. rewrite Ht, Hst. split; [done|].
  by destruct (_ <=? 0).
  - rewrite Ht, Hs. simpl. rewrite Hh1, Hh0. done.
Qed.

End GhostFacts.

(* ------------------------------------------------------------------ *)
(** ** Logs of eaten ghosts *)

Section LogFacts.

Lemma chained_app (base c c1 c2 : Z) (l1 l2 : list Event) :
  chained base c l1 c1 → chained base c1 l2 c2 →
  chained base c (l1 ++ l2) c2.
Proof.
  revert c. induction l1 as [|[|a] l1 IH]; simpl; intros c.
  - by intros ->.
  - apply IH.
  - intros [-> H1] H2. split; [done|]. by apply IH.
Qed.

Lemma chained_after_major (base c c' : Z) (l1 l2 : list Event) :
  chained base c (l1 ++ Major :: l2) c' → chained base 0 l2 c'.
Proof.
  revert c. induction l1 as [|[|a] l1 IH]; simpl; intros c.
  - done.
  - apply IH.
  - intros [_ H]. by apply (IH _ H).
Qed.

Lemma chained_doubling (base c c' : Z) (log : list Event) :
  Major ∉ log → chained base c log c' →
  awards log = doubling base c (length (awards log))
  ∧ c' = c + Z.of_nat (length (awards log)).
Proof.
  revert c. induction log as [|[|a] log IH]; simpl; intros c Hno Hch.
  - split; [done | lia].
  - destruct Hno. left.
  - destruct Hch as [-> Hch].
  apply not_elem_of_cons in Hno as [_ Hno].
  destruct (IH (c + 1) Hno Hch) as [IH1 IH2].
  split; [by rewrite <- IH1 | lia].
Qed.

End LogFacts.

(* ------------------------------------------------------------------ *)
(** ** The steps of a tick *)

Lemma mapR_Forall2 {A B} (f : A → Rand B) (R : A → B → Prop) :
  (∀ a t, R a (f a t).1) → ∀ l t, Forall2 R l (mapR f l t).1.
Proof.
  intros Hf. induction l as [|a l IH]; intros t; simpl.
  - constructor.
  - unfold bind, ret. specialize (Hf a t).
    destruct (f a t) as [b t1]. specialize (IH t1).
    destruct (mapR f l t1) as [bs t2]. simpl in *. by constructor.
Qed.

Lemma mapR_map {A B C} (f : A → Rand B) (pa : A → C) (pb : B → C) :
  (∀ a t, pb (f a t).1 = pa a) → ∀ l t, map pb (mapR f l t).1 = map pa l.
Proof.
  intros Hf. induction l as [|a l IH]; intros t; simpl; [done|].
  unfold bind, ret. specialize (Hf a t).
  destruct (f a t) as [b t1]. specialize (IH t1).
  destruct (mapR f l t1) as [bs t2]. simpl in *. by rewrite Hf, IH.
Qed.

(** The least index at which a test holds. *)
Lemma first_true (P : nat → bool) (i : nat) :
  P i = true →
  ∃ i0, (i0 ≤ i)%nat ∧ P i0 = true ∧ ∀ j, (j < i0)%nat → P j = false.
Proof.
  assert (∀ n, (∀ j, (j < n)%nat → P j = false)
               ∨ ∃ i0, (i0 < n)%nat ∧ P i0 = true
                       ∧ ∀ j, (j < i0)%nat → P j = false) as Hscan.
  { induction n as [|n [IH|(i0 & Hlt & Hi0 & Hleast)]].
    - left. intros j Hj. lia.
    - destruct (P n) eqn:Hn.
      + right. exists n. repeat split; [lia|done|done].
      + left. intros j Hj.
        destruct (decide (j = n)) as [->|Hne]; [done|]. apply IH. lia.
    - right. exists i0. repeat split; [lia|done|done]. }
  intros Hi. destruct (Hscan (S i)) as [Hnone|(i0 & Hlt & Hi0 & Hleast)].
  - rewrite Hnone in Hi by lia. done.
  - exists i0. repeat split; [lia|done|done].
Qed.

Section GameFacts.
Context {F : Type} `{!FloatOps F}.

Lemma ghost_reset_spec (g : Ghost.t F) (tape : Tape) :
  Ghost.at_start (Ghost.reset g tape).1
  ∧ Ghost.start_cell (Ghost.reset g tape).1 = Ghost.start_cell g.
Proof.
  unfold Ghost.reset, Ghost.init, bind, ret.
  pose proof (choice_elem CARDINALS tape ltac:(done)) as Hd.
  destruct (choice CARDINALS tape) as [d tape']. simpl in *.
  by repeat split.
Qed.

Lemma player_reset_spec (p : Player.t F) :
  Player.at_start (Player.reset p)
  ∧ Player.start_cell (Player.reset p) = Player.start_cell p.
Proof. by repeat split. Qed.

Lemma reset_positions_spec (G : Game.t F) (tape : Tape) :
  let R := (Game.reset_positions G tape).1 in
  Game.maze R = Game.maze G ∧ Game.ledger R = Game.ledger G
  ∧ Game.all_at_start G R.
Proof.
  unfold Game.reset_positions, bind, ret. simpl.
  pose proof (mapR_Forall2 Ghost.reset
              (λ g g', Ghost.at_start g'
                       ∧ Ghost.start_cell g' = Ghost.start_cell g)
              ghost_reset_spec (Game.ghosts G) tape) as Hgs.
  destruct (mapR Ghost.reset (Game.ghosts G) tape) as [gs tape'].
  simpl in *. do 2 (split; [done|]).
  split; [apply player_reset_spec|]. split; [apply player_reset_spec|done].
Qed.

Lemma next_level_spec (G : Game.t F) (tape : Tape) :
  let R := (Game.next_level G tape).1 in
  Game.maze R = Maze.init
  ∧ Game.level R = Game.level G + 1
  ∧ Game.score R = Game.score G ∧ Game.lives R = Game.lives G
  ∧ Game.ghost_combo R = Game.ghost_combo G
  ∧ Game.game_over R = Game.game_over G
  ∧ Game.ghost_score_base R = Game.ghost_score_base G
  ∧ Game.power_duration_ms R = Game.power_duration_ms G
  ∧ Game.all_at_start G R.
Proof.
  unfold Game.next_level.
  pose proof (reset_positions_spec
              (Game.set_level (Game.level (Game.set_maze Maze.init G) + 1)
                              (Game.set_maze Maze.init G)) tape)
  as (Hm & Hl & Hs).
  simpl in *. unfold Game.ledger in Hl. simplify_eq/=.
  repeat (split; [done|]). exact Hs.
Qed.

Lemma lose_life_spec (G : Game.t F) (tape : Tape) :
  let R := (Game.lose_life G tape).1 in
  Game.maze R = Game.maze G
  ∧ Game.lives R = Game.lives G - 1
  ∧ Game.game_over R
  = (if Game.lives G - 1 <=? 0 then true else Game.game_over G)
  ∧ Game.score R = Game.score G ∧ Game.level R = Game.level G
  ∧ Game.ghost_combo R = Game.ghost_combo G
  ∧ Game.ghost_score_base R = Game.ghost_score_base G
  ∧ Game.power_duration_ms R = Game.power_duration_ms G
  ∧ Game.all_at_start G R.
Proof.
  unfold Game.lose_life.
  match goal with
  | |- context [Game.reset_positions ?G' tape] =>
    pose proof (reset_positions_spec G' tape) as (Hm & Hl & Hs)
  end.
  simpl in *. unfold Game.ledger in Hl.
  destruct (Game.lives G - 1 <=? 0); simplify_eq/=;
  repeat (split; [done|]); exact Hs.
Qed.

Lemma update_vulnerable_only (maze : Maze.t) (pc : Cell) (dt_ms : Z)
    (g : Ghost.t F) (tape : Tape) :
  Ghost.state (Ghost.update maze pc dt_ms g tape).1 = GHOST_VULNERABLE →
  Ghost.state g = GHOST_VULNERABLE.
Proof.
  intros Hv. pose proof (update_state maze pc dt_ms g tape) as [_ Hst].
  simpl in Hst. destruct (Ghost.state g); [congruence|done|].
  rewrite Hst in Hv. by destruct (bool_decide _).
Qed.

Lemma advance_spec (keys : Keys) (dt_ms : Z) (G : Game.t F) (tape : Tape) :
  let R := (Game.advance keys dt_ms G tape).1 in
  Game.maze R = Game.maze G ∧ Game.ledger R = Game.ledger G
  ∧ Game.player R = Player.update keys (Game.maze G) (Game.player G)
  ∧ Forall2 (λ g g', Ghost.state g' = GHOST_VULNERABLE →
                   Ghost.state g = GHOST_VULNERABLE)
          (Game.ghosts G) (Game.ghosts R).
Proof.
  unfold Game.advance, bind, ret.
  set (G1 := Game.set_player (Player.update keys (Game.maze G)
                                          (Game.player G)) G).
  pose proof (mapR_Forall2
              (Ghost.update (Game.maze G1) (Player.cell (Game.player G1))
                            dt_ms)
              (λ g g', Ghost.state g' = GHOST_VULNERABLE →
                       Ghost.state g = GHOST_VULNERABLE)
              (update_vulnerable_only _ _ _) (Game.ghosts G1) tape) as Hgs.
  destruct (mapR _ (Game.ghosts G1) tape) as [gs tape']. by simpl in *.
Qed.

Lemma eat_pellets_spec (G : Game.t F) :
  let R := Game.eat_pellets G in
  Game.maze R = (Maze.eat (Game.maze G) (Player.cell (Game.player G))).2
  ∧ Game.player R = Game.player G
  ∧ Game.lives R = Game.lives G ∧ Game.level R = Game.level G
  ∧ Game.game_over R = Game.game_over G
  ∧ Game.ghost_score_base R = Game.ghost_score_base G
  ∧ Game.power_duration_ms R = Game.power_duration_ms G
  ∧ match (Maze.eat (Game.maze G) (Player.cell (Game.player G))).1 with
  | Some dot =>
      Game.score R = Game.score G + 10
      ∧ Game.ghost_combo R = Game.ghost_combo G
      ∧ Game.ghosts R = Game.ghosts G
  | Some power =>
      Game.score R = Game.score G + 50
      ∧ Game.ghost_combo R = 0
      ∧ Game.ghosts R
        = map (Ghost.set_vulnerable (Game.power_duration_ms G))
              (Game.ghosts G)
  | None =>
      Game.score R = Game.score G
      ∧ Game.ghost_combo R = Game.ghost_combo G
      ∧ Game.ghosts R = Game.ghosts G
  end.
Proof.
  unfold Game.eat_pellets.
  by destruct (Maze.eat _ _) as [[[|]|] m].
Qed.

(** *** The collision loop *)

Lemma collide_log_erase (n i : nat) (G : Game.t F) (tape : Tape) :
  Game.collide n i G tape
  = ((Game.collide_log n i G tape).1.1, (Game.collide_log n i G tape).2).
Proof.
  revert i G. induction n as [|n IH]; intros i G; simpl; [done|].
  destruct (Game.ghosts G !! i) as [g|]; [|done].
  destruct (touching _ _); [|apply IH].
  destruct (Ghost.state g); [|unfold bind, ret|apply IH].
  - unfold bind, ret. by destruct (Game.lose_life G tape).
  - rewrite IH. by destruct (Game.collide_log n (S i) _ tape) as [[G' l] t].
Qed.

Lemma eat_ghost_spec (i : nat) (g : Ghost.t F) (G : Game.t F) :
  let R := Game.eat_ghost i g G in
  Game.ghost_combo R = Game.ghost_combo G + 1
  ∧ Game.score R
  = Game.score G + Game.ghost_score_base G * 2 ^ Game.ghost_combo G
  ∧ Game.ghosts R = <[i := Ghost.eaten g]> (Game.ghosts G)
  ∧ Game.player R = Game.player G ∧ Game.maze R = Game.maze G
  ∧ Game.lives R = Game.lives G ∧ Game.level R = Game.level G
  ∧ Game.game_over R = Game.game_over G
  ∧ Game.ghost_score_base R = Game.ghost_score_base G
  ∧ Game.power_duration_ms R = Game.power_duration_ms G.
Proof.
  unfold Game.eat_ghost. simpl. repeat split.
  by replace (Game.ghost_combo G + 1 - 1) with (Game.ghost_combo G) by lia.
Qed.

Lemma collide_log_chained (n i : nat) (G : Game.t F) (tape : Tape) :
  let r := (Game.collide_log n i G tape).1 in
  chained (Game.ghost_score_base G) (Game.ghost_combo G) r.2
        (Game.ghost_combo r.1)
  ∧ Game.ghost_score_base r.1 = Game.ghost_score_base G.
Proof.
  revert i G. induction n as [|n IH]; intros i G; simpl; [done|].
  destruct (Game.ghosts G !! i) as [g|]; [|done].
  destruct (touching _ _); [|apply IH].
  destruct (Ghost.state g); [|unfold bind, ret|apply IH].
  - unfold bind, ret.
  pose proof (lose_life_spec G tape) as (_ & _ & _ & _ & _ & Hc & Hb & _).
  by destruct (Game.lose_life G tape).
  - pose proof (eat_ghost_spec i g G) as (Hc & Hs & _ & _ & _ & _ & _ & _ & Hb & _).
  specialize (IH (S i) (Game.eat_ghost i g G)).
  destruct (Game.collide_log n (S i) _ tape) as [[G' l] t].
  simpl in *. destruct IH as [IH1 IH2].
  repeat split; [lia|done|done].
Qed.

Lemma collide_frame (n i : nat) (G : Game.t F) (tape : Tape) :
  let R := (Game.collide n i G tape).1 in
  Game.maze R = Game.maze G ∧ Game.level R = Game.level G
  ∧ Game.power_duration_ms R = Game.power_duration_ms G
  ∧ Game.ghost_score_base R = Game.ghost_score_base G.
Proof.
  revert i G. induction n as [|n IH]; intros i G; simpl; [done|].
  destruct (Game.ghosts G !! i) as [g|]; [|done].
  destruct (touching _ _); [|apply IH].
  destruct (Ghost.state g); [| |apply IH].
  - pose proof (lose_life_spec G tape) as (? & _ & _ & _ & ? & _ & ? & ? & _).
  done.
  - pose proof (eat_ghost_spec i g G)
    as (_ & _ & _ & _ & Hm & _ & Hl & _ & Hb & Hd).
  destruct (IH (S i) (Game.eat_ghost i g G)) as (? & ? & ? & ?).
  repeat split; congruence.
Qed.

Lemma collide_out_of_range (n i j : nat) (G : Game.t F) (tape : Tape) :
  Game.ghosts G !! i = None → (i ≤ j)%nat →
  Game.collide n j G tape = (G, tape).
Proof.
  intros Hi Hj. destruct n as [|n]; simpl; [done|].
  rewrite (lookup_ge_None_2 (Game.ghosts G) j); [done|].
  apply lookup_ge_None_1 in Hi. lia.
Qed.

(** As long as no visited ghost costs a life the loop runs on, consumes
  nothing of the tape, and only writes the visited ghosts, the score and
  the combo. *)
Lemma collide_prefix (k n i : nat) (G : Game.t F) (tape : Tape) :
  (∀ j, (i ≤ j < i + k)%nat → Game.fatal G j = false) →
  let G' := (Game.collide k i G tape).1 in
  Game.collide (k + n) i G tape = Game.collide n (i + k) G' tape
  ∧ (Game.collide k i G tape).2 = tape
  ∧ Game.player G' = Game.player G ∧ Game.lives G' = Game.lives G
  ∧ Game.game_over G' = Game.game_over G
  ∧ length (Game.ghosts G') = length (Game.ghosts G)
  ∧ (∀ j, (i + k ≤ j)%nat → Game.ghosts G' !! j = Game.ghosts G !! j).
Proof.
  revert i G. induction k as [|k IH]; intros i G Hsafe; simpl.
  { rewrite Nat.add_0_r. done. }
  destruct (Game.ghosts G !! i) as [g|] eqn:Hg; simpl.
  2:{ repeat split; try done. symmetry.
    apply (collide_out_of_range n i); [done | lia]. }
  assert (∀ j, (S i ≤ j < S i + k)%nat → Game.fatal G j = false) as Hrest
    by (intros j Hj; apply Hsafe; lia).
  assert (i + S k = S i + k)%nat as -> by lia.
  pose proof (Hsafe i ltac:(lia)) as Hi. unfold Game.fatal in Hi.
  rewrite Hg in Hi.
  destruct (touching _ _) eqn:Htouch.
  2:{ exact (IH (S i) G Hrest). }
  destruct (Ghost.state g) eqn:Hstate; [done| |].
  2:{ exact (IH (S i) G Hrest). }
  pose proof (eat_ghost_spec i g G)
  as (_ & _ & Hgs & Hp & _ & Hlv & _ & Hgo & _).
  destruct (IH (S i) (Game.eat_ghost i g G)) as (? & ? & ? & ? & ? & Hlen & Hl).
  { intros j Hj. unfold Game.fatal. rewrite Hgs, Hp.
  rewrite list_lookup_insert_ne by lia. by apply Hrest. }
  repeat split; try congruence.
  - by rewrite Hlen, Hgs, length_insert.
  - intros j Hj. rewrite Hl by lia. rewrite Hgs.
  apply list_lookup_insert_ne. lia.
Qed.

(** The first ghost that costs a life ends the loop. *)
Lemma collide_fatal (n i : nat) (G : Game.t F) (tape : Tape) :
  (i < length (Game.ghosts G))%nat →
  length (Game.ghosts G) = (i + n)%nat →
  Game.fatal G i = true →
  (∀ j, (j < i)%nat → Game.fatal G j = false) →
  Game.resolve_collisions G tape
  = Game.lose_life (Game.collide i 0 G tape).1 tape.
Proof.
  intros Hi Hn Hfatal Hsafe. unfold Game.resolve_collisions.
  destruct n as [|n]; [lia|]. rewrite Hn.
  destruct (collide_prefix i (S n) 0 G tape) as (-> & _ & Hp & _ & _ & _ & Hl).
  { intros j Hj. apply Hsafe. lia. }
  simpl. rewrite Hl by lia. unfold Game.fatal in Hfatal.
  destruct (Game.ghosts G !! i) as [g|]; [|done].
  rewrite Hp. apply andb_true_iff in Hfatal as [-> Hst].
  apply bool_decide_eq_true in Hst. by rewrite Hst.
Qed.

(** *** The end of a tick, and whole ticks *)

Lemma level_complete_spec (G : Game.t F) (tape : Tape) :
  let R := (Game.level_complete G tape).1 in
  Game.score R = Game.score G ∧ Game.lives R = Game.lives G
  ∧ Game.ghost_combo R = Game.ghost_combo G
  ∧ Game.game_over R = Game.game_over G
  ∧ Game.ghost_score_base R = Game.ghost_score_base G
  ∧ Game.power_duration_ms R = Game.power_duration_ms G
  ∧ if Maze.remaining_pellets (Game.maze G) <=? 0
  then Game.maze R = Maze.init ∧ Game.level R = Game.level G + 1
       ∧ Game.all_at_start G R
  else R = G.
Proof.
  unfold Game.level_complete.
  destruct (_ <=? 0); [|done].
  pose proof (next_level_spec G tape) as (? & ? & ? & ? & ? & ? & ? & ? & ?).
  done.
Qed.

Lemma update_unfold (keys : Keys) (dt_ms : Z) (G : Game.t F) (tape : Tape) :
  Game.game_over G = false →
  Game.update keys dt_ms G tape
  = Game.level_complete
    (Game.resolve_collisions
       (Game.before_collisions keys dt_ms G tape).1
       (Game.before_collisions keys dt_ms G tape).2).1
    (Game.resolve_collisions
       (Game.before_collisions keys dt_ms G tape).1
       (Game.before_collisions keys dt_ms G tape).2).2.
Proof.
  intros Hgo. unfold Game.update, Game.before_collisions, bind, ret.
  rewrite Hgo. destruct (Game.advance keys dt_ms G tape) as [G1 t1]. simpl.
  by destruct (Game.resolve_collisions _ t1).
Qed.

Lemma update_log_erase (keys : Keys) (dt_ms : Z) (G : Game.t F)
    (tape : Tape) :
  Game.update keys dt_ms G tape
  = ((Game.update_log keys dt_ms G tape).1.1,
   (Game.update_log keys dt_ms G tape).2).
Proof.
  unfold Game.update, Game.update_log, Game.resolve_collisions, bind, ret.
  destruct (Game.game_over G); [done|].
  destruct (Game.advance keys dt_ms G tape) as [G1 t1].
  rewrite collide_log_erase.
  destruct (Game.collide_log _ 0 _ t1) as [[G3 l] t3]. simpl.
  by destruct (Game.level_complete G3 t3).
Qed.

Lemma run_log_erase (inputs : list (Keys * Z)) (G : Game.t F) (tape : Tape) :
  Game.run inputs G tape
  = ((Game.run_log inputs G tape).1.1, (Game.run_log inputs G tape).2).
Proof.
  revert G tape. induction inputs as [|[keys dt_ms] inputs IH];
  intros G tape; simpl; [done|].
  unfold bind, ret. rewrite update_log_erase.
  destruct (Game.update_log keys dt_ms G tape) as [[G1 l1] t1]. simpl.
  rewrite IH. by destruct (Game.run_log inputs G1 t1) as [[G2 l2] t2].
Qed.

Lemma eats_major_spec (G : Game.t F) :
  Game.ghost_score_base (Game.eat_pellets G) = Game.ghost_score_base G
  ∧ Game.ghost_combo (Game.eat_pellets G)
  = (if Game.eats_major G then 0 else Game.ghost_combo G).
Proof.
  pose proof (eat_pellets_spec G) as (_ & _ & _ & _ & _ & Hb & _ & Hcase).
  unfold Game.eats_major. simpl in *. split; [done|].
  by destruct (Maze.eat _ _).1 as [[|]|]; destruct Hcase as (_ & ? & _).
Qed.

Lemma update_log_chained (keys : Keys) (dt_ms : Z) (G : Game.t F)
    (tape : Tape) :
  let r := (Game.update_log keys dt_ms G tape).1 in
  chained (Game.ghost_score_base G) (Game.ghost_combo G) r.2
        (Game.ghost_combo r.1)
  ∧ Game.ghost_score_base r.1 = Game.ghost_score_base G.
Proof.
  unfold Game.update_log, bind, ret.
  destruct (Game.game_over G); [done|].
  pose proof (advance_spec keys dt_ms G tape) as (_ & Hl & _).
  destruct (Game.advance keys dt_ms G tape) as [G1 t1]. simpl in Hl.
  unfold Game.ledger in Hl.
  assert (Game.ghost_combo G1 = Game.ghost_combo G
        ∧ Game.ghost_score_base G1 = Game.ghost_score_base G) as [Hc1 Hb1]
    by (by simplify_eq).
  destruct (eats_major_spec G1) as [Hb2 Hc2].
  pose proof (collide_log_chained
              (length (Game.ghosts (Game.eat_pellets G1))) 0
              (Game.eat_pellets G1) t1) as [Hch Hb3].
  destruct (Game.collide_log _ 0 _ t1) as [[G3 l] t3]. simpl in Hch, Hb3.
  simpl.
  pose proof (level_complete_spec G3 t3) as (_ & _ & Hc4 & _ & Hb4 & _).
  destruct (Game.level_complete G3 t3) as [G4 t4]. simpl in *.
  rewrite Hb2, Hb1 in Hch, Hb3. rewrite Hc2 in Hch. rewrite Hc4, Hb4.
  split; [|done].
  destruct (Game.eats_major G1); simpl; [done|]. by rewrite <- Hc1.
Qed.

Lemma run_log_chained (inputs : list (Keys * Z)) (G : Game.t F)
    (tape : Tape) :
  let r := (Game.run_log inputs G tape).1 in
  chained (Game.ghost_score_base G) (Game.ghost_combo G) r.2
        (Game.ghost_combo r.1)
  ∧ Game.ghost_score_base r.1 = Game.ghost_score_base G.
Proof.
  revert G tape. induction inputs as [|[keys dt_ms] inputs IH];
  intros G tape; simpl; [done|].
  unfold bind, ret.
  pose proof (update_log_chained keys dt_ms G tape) as [Hch Hb].
  destruct (Game.update_log keys dt_ms G tape) as [[G1 l1] t1]. simpl.
  specialize (IH G1 t1).
  destruct (Game.run_log inputs G1 t1) as [[G2 l2] t2]. simpl in *.
  destruct IH as [IH1 IH2]. rewrite Hb in IH1, IH2.
  split; [|done]. by eapply chained_app.
Qed.

(** *** The combo and the vulnerable ghosts *)

Lemma vulnerable_count_bounds (gs : list (Ghost.t F)) :
  0 ≤ Ghost.vulnerable_count gs ≤ Z.of_nat (length gs).
Proof.
  induction gs as [|g gs IH]; simpl; [lia|].
  destruct (bool_decide _); lia.
Qed.

Lemma vulnerable_count_Forall2 (gs gs' : list (Ghost.t F)) :
  Forall2 (λ g g', Ghost.state g' = GHOST_VULNERABLE →
                 Ghost.state g = GHOST_VULNERABLE) gs gs' →
  Ghost.vulnerable_count gs' ≤ Ghost.vulnerable_count gs.
Proof.
  induction 1 as [|g g' gs gs' Hg _ IH]; simpl; [lia|].
  destruct (decide (Ghost.state g' = GHOST_VULNERABLE)) as [Hv|Hv].
  - rewrite !bool_decide_eq_true_2 by auto. lia.
  - rewrite (bool_decide_eq_false_2 _ Hv). destruct (bool_decide _); lia.
Qed.

Lemma vulnerable_count_eaten (gs : list (Ghost.t F)) (i : nat)
    (g : Ghost.t F) :
  gs !! i = Some g → Ghost.state g = GHOST_VULNERABLE →
  Ghost.vulnerable_count (<[i := Ghost.eaten g]> gs)
  = Ghost.vulnerable_count gs - 1.
Proof.
  revert i. induction gs as [|g0 gs IH]; intros [|i] Hi Hv; simplify_eq/=.
  - rewrite Hv. rewrite bool_decide_eq_true_2 by done. lia.
  - rewrite (IH i) by done. lia.
Qed.

Lemma vulnerable_count_at_start (gs0 gs : list (Ghost.t F)) :
  Forall2 (λ g g', Ghost.at_start g'
                 ∧ Ghost.start_cell g' = Ghost.start_cell g) gs0 gs →
  Ghost.vulnerable_count gs = 0.
Proof.
  induction 1 as [|g g' gs0 gs [(_ & _ & Hs & _) _] _ IH]; simpl; [done|].
  rewrite Hs. by rewrite IH.
Qed.

Lemma bounded_at_start (G0 G : Game.t F) :
  Game.combo_bounded G0 → Game.all_at_start G0 G →
  Game.ghost_combo G = Game.ghost_combo G0 →
  Game.combo_bounded G.
Proof.
  intros [Hpos Hle] (_ & _ & Hgs) Hc. unfold Game.combo_bounded.
  rewrite Hc, (vulnerable_count_at_start _ _ Hgs).
  rewrite <- (Forall2_length _ _ _ Hgs).
  pose proof (vulnerable_count_bounds (Game.ghosts G0)). lia.
Qed.

Lemma bounded_collide (n i : nat) (G : Game.t F) (tape : Tape) :
  Game.combo_bounded G → Game.combo_bounded (Game.collide n i G tape).1.
Proof.
  revert i G. induction n as [|n IH]; intros i G HG; simpl; [done|].
  destruct (Game.ghosts G !! i) as [g|] eqn:Hg; [|done].
  destruct (touching _ _); [|by apply IH].
  destruct (Ghost.state g) eqn:Hs; [| |by apply IH].
  - pose proof (lose_life_spec G tape) as (_ & _ & _ & _ & _ & Hc & _ & _ & Hst).
  by eapply bounded_at_start.
  - apply IH.
  pose proof (eat_ghost_spec i g G) as (Hc & _ & Hgs & _).
  destruct HG as [Hpos Hle]. unfold Game.combo_bounded.
  rewrite Hc, Hgs, length_insert, (vulnerable_count_eaten _ _ _ Hg Hs).
  lia.
Qed.

Lemma bounded_before_collisions (keys : Keys) (dt_ms : Z) (G : Game.t F)
    (tape : Tape) :
  Game.combo_bounded G →
  Game.combo_bounded (Game.before_collisions keys dt_ms G tape).1.
Proof.
  intros [Hpos Hle]. unfold Game.before_collisions, bind, ret.
  pose proof (advance_spec keys dt_ms G tape) as (_ & Hl & _ & Hgs).
  destruct (Game.advance keys dt_ms G tape) as [G1 t1]. simpl in *.
  unfold Game.ledger in Hl.
  assert (Game.ghost_combo G1 = Game.ghost_combo G) as Hc1 by (by simplify_eq).
  pose proof (vulnerable_count_Forall2 _ _ Hgs) as Hvc.
  pose proof (Forall2_length _ _ _ Hgs) as Hlen.
  pose proof (eat_pellets_spec G1) as (_ & _ & _ & _ & _ & _ & _ & Hcase).
  unfold Game.combo_bounded. simpl in Hcase.
  destruct (Maze.eat _ _).1 as [[|]|]; destruct Hcase as (_ & -> & ->);
  try lia.
  pose proof (vulnerable_count_bounds
              (map (Ghost.set_vulnerable (Game.power_duration_ms G1))
                   (Game.ghosts G1))). lia.
Qed.

Lemma bounded_level_complete (G : Game.t F) (tape : Tape) :
  Game.combo_bounded G → Game.combo_bounded (Game.level_complete G tape).1.
Proof.
  intros HG.
  pose proof (level_complete_spec G tape) as (_ & _ & Hc & _ & _ & _ & Hcase).
  destruct (_ <=? 0).
  - destruct Hcase as (_ & _ & Hst). by eapply bounded_at_start.
  - simpl in Hcase. by rewrite Hcase.
Qed.

Lemma bounded_update (keys : Keys) (dt_ms : Z) (G : Game.t F) (tape : Tape) :
  Game.combo_bounded G → Game.combo_bounded (Game.update keys dt_ms G tape).1.
Proof.
  intros HG. destruct (Game.game_over G) eqn:Hgo.
  - unfold Game.update. by rewrite Hgo.
  - rewrite update_unfold by done.
  apply bounded_level_complete, bounded_collide.
  by apply bounded_before_collisions.
Qed.

Lemma bounded_init (tape : Tape) :
  Game.combo_bounded (Game.init (F := F) tape).1.
Proof.
  unfold Game.init, Ghost.init, bind, ret.
  destruct (choice CARDINALS tape) as [d1 t1].
  destruct (choice CARDINALS t1) as [d2 t2].
  unfold Game.combo_bounded. simpl. lia.
Qed.

Lemma reachable_bounded (G : Game.t F) :
  Game.reachable G → Game.combo_bounded G.
Proof.
  induction 1; [apply bounded_init | by apply bounded_update].
Qed.

Lemma all_at_start_trans (G0 G1 G2 : Game.t F) :
  Game.all_at_start G0 G1 → Game.all_at_start G1 G2 →
  Game.all_at_start G0 G2.
Proof.
  intros (_ & Hps1 & Hgs1) (Hp2 & Hps2 & Hgs2).
  split; [done|]. split; [congruence|].
  revert Hgs2. generalize (Game.ghosts G2).
  induction Hgs1 as [|a b la lb [_ Hab] _ IH]; intros gs Hgs;
  inversion Hgs as [|? c ? lc [Hat Hbc] Hrest]; subst; constructor.
  - split; [done | congruence].
  - by apply IH.
Qed.

Lemma level_complete_keeps_start (G0 G : Game.t F) (tape : Tape) :
  Game.all_at_start G0 G →
  Game.all_at_start G0 (Game.level_complete G tape).1.
Proof.
  intros Hstart.
  pose proof (level_complete_spec G tape) as (_ & _ & _ & _ & _ & _ & Hcase).
  destruct (Maze.remaining_pellets (Game.maze G) <=? 0).
  - destruct Hcase as (_ & _ & Hnext). by eapply all_at_start_trans.
  - simpl in Hcase. by rewrite Hcase.
Qed.

(** *** The ghosts keep their start cells *)

Lemma ghost_update_start (maze : Maze.t) (pc : Cell) (dt_ms : Z)
    (g : Ghost.t F) (tape : Tape) :
  Ghost.start_cell (Ghost.update maze pc dt_ms g tape).1 = Ghost.start_cell g.
Proof.
  unfold Ghost.update, bind.
  pose proof (steer_keeps maze pc (Ghost.tick_timer dt_ms g) tape)
  as (_ & _ & _ & Hs).
  destruct (Ghost.steer maze pc (Ghost.tick_timer dt_ms g) tape) as [g1 t1].
  simpl in Hs.
  assert (Ghost.start_cell (Ghost.tick_timer dt_ms g) = Ghost.start_cell g)
  as Ht.
  { unfold Ghost.tick_timer. destruct (bool_decide _); [|done].
  by destruct (_ <=? 0). }
  unfold Ghost.revive_if_at_home, bind, ret.
  destruct (_ && _); simpl; [|congruence].
  destruct (choice CARDINALS t1). simpl. congruence.
Qed.

Lemma player_update_start (keys : Keys) (maze : Maze.t) (p : Player.t F) :
  Player.start_cell (Player.update keys maze p) = Player.start_cell p.
Proof.
  unfold Player.update. cbn [Player.start_cell Player.set_pos].
  assert (Player.start_cell (Player.handle_input keys p)
        = Player.start_cell p) as Hin.
  { unfold Player.handle_input.
  by repeat match goal with |- context [if ?b then _ else _] =>
              destruct b end. }
  destruct (at_center_of_cell _ _); [|done].
  repeat match goal with
       | |- context [if ?b then _ else _] => destruct b
       end; simpl; done.
Qed.

Lemma cast_insert_eaten (gs : list (Ghost.t F)) (i : nat) (g : Ghost.t F) :
  gs !! i = Some g →
  map Ghost.start_cell (<[i := Ghost.eaten g]> gs) = map Ghost.start_cell gs.
Proof.
  revert i. induction gs as [|g0 gs IH]; intros [|i] Hi; simplify_eq/=;
  [done|]. by rewrite (IH i).
Qed.

Lemma cast_at_start (G0 G : Game.t F) :
  Game.all_at_start G0 G →
  map Ghost.start_cell (Game.ghosts G) = map Ghost.start_cell (Game.ghosts G0)
  ∧ Forall Ghost.at_start (Game.ghosts G).
Proof.
  intros (_ & _ & Hgs).
  induction Hgs as [|g g' gs gs' [Hat Hst] _ [IH1 IH2]]; simpl; [done|].
  split; [by rewrite Hst, IH1 | by constructor].
Qed.

Lemma cast_before_collisions (keys : Keys) (dt_ms : Z) (G : Game.t F)
    (tape : Tape) :
  let B := (Game.before_collisions keys dt_ms G tape).1 in
  map Ghost.start_cell (Game.ghosts B) = map Ghost.start_cell (Game.ghosts G)
  ∧ Player.start_cell (Game.player B) = Player.start_cell (Game.player G).
Proof.
  unfold Game.before_collisions, Game.advance, bind, ret.
  match goal with
  | |- context [mapR ?f (Game.ghosts ?G1) tape] =>
    pose proof (mapR_map f Ghost.start_cell Ghost.start_cell
                  (ghost_update_start _ _ _) (Game.ghosts G1) tape) as Hgs;
    destruct (mapR f (Game.ghosts G1) tape) as [gs t1]
  end.
  simpl in *.
  match goal with
  | |- context [Game.eat_pellets ?G1] =>
    pose proof (eat_pellets_spec G1) as (_ & Hp & _ & _ & _ & _ & _ & Hcase)
  end.
  simpl in *. rewrite Hp, player_update_start. split; [|done].
  destruct (Maze.eat _ _).1 as [[|]|]; destruct Hcase as (_ & _ & ->);
  simpl; try done.
  rewrite <- Hgs. clear. induction gs as [|g gs IH]; simpl; [done|].
  rewrite IH. f_equal. unfold Ghost.set_vulnerable.
  by destruct (bool_decide _).
Qed.

Lemma cast_collide (n i : nat) (G : Game.t F) (tape : Tape) :
  let R := (Game.collide n i G tape).1 in
  map Ghost.start_cell (Game.ghosts R) = map Ghost.start_cell (Game.ghosts G)
  ∧ Player.start_cell (Game.player R) = Player.start_cell (Game.player G).
Proof.
  revert i G. induction n as [|n IH]; intros i G; simpl; [done|].
  destruct (Game.ghosts G !! i) as [g|] eqn:Hg; [|done].
  destruct (touching _ _); [|apply IH].
  destruct (Ghost.state g); [| |apply IH].
  - pose proof (lose_life_spec G tape) as (_ & _ & _ & _ & _ & _ & _ & _ & Hst).
  split; [by apply cast_at_start | apply Hst].
  - destruct (IH (S i) (Game.eat_ghost i g G)) as [-> ->].
  pose proof (eat_ghost_spec i g G) as (_ & _ & -> & -> & _).
  split; [by apply cast_insert_eaten | done].
Qed.

End GameFacts.

(* ================================================================== *)
(** * Steps of the player and of a ghost *)

Section Steps.
Context {F : Type} `{!FloatOps F}.

Lemma handle_input_keeps (keys : Keys) (p : Player.t F) :
  Player.cell (Player.handle_input keys p) = Player.cell p
  ∧ Player.pos (Player.handle_input keys p) = Player.pos p
  ∧ Player.direction (Player.handle_input keys p) = Player.direction p.
Proof.
  unfold Player.handle_input.
  by repeat match goal with
            | |- context [if ?b then _ else _] => destruct b
            end.
Qed.

(** The direction and the cell after [update], at a cell centre. *)
Lemma player_update_at_center (keys : Keys) (m : Maze.t) (p : Player.t F) :
  at_center_of_cell (Player.pos p) (Player.cell p) = true →
  let q := Player.next_direction (Player.handle_input keys p) in
  let c := Player.cell p in
  let d1 := if bool_decide (q ≠ Player.direction p) && Player.can_move m c q
            then q else Player.direction p in
  let d2 := if Player.can_move m c d1 then d1 else STOP in
  Player.direction (Player.update keys m p) = d2
  ∧ Player.cell (Player.update keys m p)
    = (if bool_decide (d2 ≠ STOP) then Ghost._next_cell c d2 else c)
  ∧ Player.next_direction (Player.update keys m p) = q.
Proof.
  intros Hc q c d1 d2. subst q c d1 d2.
  destruct (handle_input_keeps keys p) as (Hcell & Hpos & Hdir).
  unfold Player.update. rewrite Hpos, Hcell, Hc. cbn zeta.
  cbn [Player.cell Player.direction Player.next_direction Player.set_pos].
  rewrite Hdir, Hcell.
  destruct (bool_decide _ && Player.can_move m _ _);
    cbn [Player.cell Player.direction Player.next_direction
         Player.set_direction Player.set_pos];
    rewrite ?Hcell, ?Hdir;
    destruct (Player.can_move m (Player.cell p) _);
    cbn [negb Player.cell Player.direction Player.next_direction
         Player.set_direction Player.set_pos];
    rewrite ?Hcell, ?Hdir;
    destruct (bool_decide (_ ≠ STOP));
    cbn [Player.cell Player.direction Player.next_direction
         Player.set_direction Player.set_pos Player.set_cell];
    rewrite ?Hcell, ?Hdir; done.
Qed.

Lemma player_update_off_center (keys : Keys) (m : Maze.t) (p : Player.t F) :
  at_center_of_cell (Player.pos p) (Player.cell p) = false →
  Player.direction (Player.update keys m p) = Player.direction p
  ∧ Player.cell (Player.update keys m p) = Player.cell p
  ∧ Player.next_direction (Player.update keys m p)
    = Player.next_direction (Player.handle_input keys p).
Proof.
  intros Hc. destruct (handle_input_keeps keys p) as (Hcell & Hpos & Hdir).
  unfold Player.update. rewrite Hpos, Hcell, Hc. done.
Qed.

Lemma can_move_same_state (g g' : Ghost.t F) (m : Maze.t) (c : Cell)
      (d : Direction) :
  Ghost.state g = Ghost.state g' →
  Ghost.can_move g m c d = Ghost.can_move g' m c d.
Proof. intros Hs. unfold Ghost.can_move. by rewrite Hs. Qed.

Lemma can_move_tick_timer (dt_ms : Z) (g : Ghost.t F) (m : Maze.t) (c : Cell)
      (d : Direction) :
  Ghost.can_move (Ghost.tick_timer dt_ms g) m c d = Ghost.can_move g m c d.
Proof.
  pose proof (tick_timer_spec dt_ms g) as (_ & _ & Hcase). simpl in Hcase.
  destruct (Ghost.state g) eqn:Hs.
  - by rewrite Hcase.
  - destruct Hcase as [_ Hst]. apply can_move_alive.
    + rewrite Hst. by destruct (_ <=? 0).
    + by rewrite Hs.
  - by rewrite Hcase.
Qed.

(** The cell of a ghost after "decide direction at cell centers". *)
Lemma steer_cell (m : Maze.t) (pc : Cell) (g : Ghost.t F) (tape : Tape) :
  let g' := (Ghost.steer m pc g tape).1 in
  Ghost.cell g' = Ghost.cell g
  ∨ (at_center_of_cell (Ghost.pos g) (Ghost.cell g) = true
     ∧ Ghost.direction g' ≠ STOP
     ∧ Ghost.can_move g m (Ghost.cell g) (Ghost.direction g') = true
     ∧ Ghost.cell g' = Ghost._next_cell (Ghost.cell g) (Ghost.direction g')).
Proof.
  unfold Ghost.steer, bind, ret.
  destruct (at_center_of_cell _ _) eqn:Hc; [|by left].
  destruct (Ghost.choose_direction _ _ _ _) as [d tape'].
  cbn [Ghost.direction Ghost.set_direction Ghost.cell Ghost.set_pos].
  destruct (bool_decide (d ≠ STOP)) eqn:Hd; [|by left].
  apply bool_decide_eq_true in Hd.
  match goal with
  | |- context [Ghost.can_move ?g1 m ?c d] =>
      rewrite (can_move_same_state g1 g m c d) by done;
      destruct (Ghost.can_move g m c d) eqn:Hmove
  end; [|by left].
  right. by repeat split.
Qed.

Lemma ghost_update_cell
      (m : Maze.t) (pc : Cell) (dt_ms : Z) (g : Ghost.t F) (tape : Tape) :
  let g' := (Ghost.update m pc dt_ms g tape).1 in
  Ghost.cell g' = Ghost.cell g
  ∨ (at_center_of_cell (Ghost.pos g) (Ghost.cell g) = true
     ∧ ∃ d, d ≠ STOP
            ∧ Ghost.cell g' = Ghost._next_cell (Ghost.cell g) d
            ∧ Ghost.can_move g m (Ghost.cell g) d = true).
Proof.
  unfold Ghost.update, bind.
  pose proof (tick_timer_spec dt_ms g) as (Hc0 & _ & _).
  assert (Ghost.pos (Ghost.tick_timer dt_ms g) = Ghost.pos g) as Hp0.
  { unfold Ghost.tick_timer. destruct (bool_decide _); [|done].
    by destruct (_ <=? 0). }
  pose proof (steer_cell m pc (Ghost.tick_timer dt_ms g) tape) as Hsteer.
  destruct (Ghost.steer m pc (Ghost.tick_timer dt_ms g) tape) as [g1 t1].
  pose proof (revive_spec (Ghost.glide g1) t1) as (Hc2 & _).
  cbn [fst] in *. rewrite Hc2. cbn [Ghost.glide Ghost.cell Ghost.set_pos].
  rewrite Hc0, Hp0 in Hsteer. rewrite can_move_tick_timer in Hsteer.
  destruct Hsteer as [Hsame|(Hc & Hd & Hmove & Hcell)]; [by left|].
  right. split; [done|]. exists (Ghost.direction g1). by rewrite Hcell.
Qed.

End Steps.

(* ================================================================== *)
(** * The claims *)

(* ------------------------------------------------------------------ *)
(** ** Wraparound *)

Section Wraparound.
Context {F : Type} `{!FloatOps F}.

Lemma wrap_col_left : wrap_col (-1) = COLS - 1.
Proof. reflexivity. Qed.

Lemma wrap_col_right : wrap_col COLS = 0.
Proof. reflexivity. Qed.

Lemma is_wall_row_outside (m : Maze.t) (x y : Z) :
  y < 0 ∨ ROWS ≤ y → Maze.is_wall m (x, y) = true.
Proof.
  intros Hy. unfold Maze.is_wall.
  destruct (orb_true_iff (y <? 0) (y >=? ROWS)) as [_ ->]; [done | lia].
Qed.

(** C6. Horizontal wraparound, with [wrap] the source's test written out
  (a column below 0 becomes COLS-1, a column at or above COLS becomes 0):
  - [is_wall] answers for column -1 as for column COLS-1 and for column
    COLS as for column 0;
  - a step to the left of column 0 arrives in column COLS-1 and a step to
    the right of column COLS-1 arrives in column 0, for [_next_cell] and
    in the legality tests of the ghost and of the player;
  - the cell [_next_cell] answers has the wrapped column and the row
    moved by the direction's row offset only;
  - [Player.update], at a cell centre, leaves the player's cell alone
    when its new direction is STOP and otherwise moves it by one step
    with the column wrapped and the row not: a player on column 0 going
    left arrives on column COLS-1 of the same row, and one on column
    COLS-1 going right on column 0; off a centre the cell stays;
  - [Ghost.update] leaves the ghost's cell alone or moves it by one such
    step;
  - rows never wrap: [is_wall] is true for every cell whose row is below
    0 or at least ROWS. *)
Theorem wraparound_columns_only
      (m : Maze.t) (g : Ghost.t F) (p : Player.t F) (keys : Keys)
      (pc : Cell) (dt_ms : Z) (tape : Tape) (x y : Z) (d : Direction) :
  let wrap (c : Z) := if c <? 0 then COLS - 1
                      else if c >=? COLS then 0 else c in
  let step (c : Cell) (d : Direction) :=
    (wrap (c.1 + (dvec d).1), c.2 + (dvec d).2) in
  let p' := Player.update keys m p in
  let g' := (Ghost.update m pc dt_ms g tape).1 in
  let centred := at_center_of_cell (Player.pos p) (Player.cell p) in
  Maze.is_wall m (-1, y) = Maze.is_wall m (COLS - 1, y)
  ∧ Maze.is_wall m (COLS, y) = Maze.is_wall m (0, y)
  ∧ Ghost._next_cell (0, y) LEFT = (COLS - 1, y)
  ∧ Ghost._next_cell (COLS - 1, y) RIGHT = (0, y)
  ∧ Ghost.can_move g m (0, y) LEFT = Ghost.can_move g m (COLS, y) LEFT
  ∧ Ghost.can_move g m (COLS - 1, y) RIGHT = Ghost.can_move g m (-1, y) RIGHT
  ∧ Player.can_move m (0, y) LEFT = Player.can_move m (COLS, y) LEFT
  ∧ Player.can_move m (COLS - 1, y) RIGHT = Player.can_move m (-1, y) RIGHT
  ∧ Ghost._next_cell (x, y) d = step (x, y) d
  ∧ (Ghost._next_cell (x, y) d).2 = y + (dvec d).2
  ∧ (centred = true →
     Player.cell p' = if bool_decide (Player.direction p' ≠ STOP)
                      then step (Player.cell p) (Player.direction p')
                      else Player.cell p)
  ∧ (centred = true → Player.cell p = (0, y) →
     Player.direction p' = LEFT → Player.cell p' = (COLS - 1, y))
  ∧ (centred = true → Player.cell p = (COLS - 1, y) →
     Player.direction p' = RIGHT → Player.cell p' = (0, y))
  ∧ (centred = false → Player.cell p' = Player.cell p)
  ∧ (Ghost.cell g' = Ghost.cell g
     ∨ ∃ d', d' ≠ STOP ∧ Ghost.cell g' = step (Ghost.cell g) d')
  ∧ (y < 0 ∨ ROWS ≤ y → Maze.is_wall m (x, y) = true).
Proof.
  intros wrap step p' g' centred.
  assert (∀ c d0, Ghost._next_cell c d0 = step c d0) as Hstep by done.
  assert (centred = true →
          Player.cell p' = if bool_decide (Player.direction p' ≠ STOP)
                           then step (Player.cell p) (Player.direction p')
                           else Player.cell p) as Hplayer.
  { intros Hc. subst p'.
    destruct (player_update_at_center keys m p Hc) as (Hd & Hcell & _).
    cbv zeta in Hd, Hcell. rewrite Hcell, Hd. by rewrite Hstep. }
  repeat match goal with |- _ ∧ _ => split end; try reflexivity.
  - unfold Ghost._next_cell; simpl. f_equal; lia.
  - unfold Ghost._next_cell; simpl. f_equal; lia.
  - exact Hplayer.
  - intros Hc Hcell Hd. rewrite (Hplayer Hc), Hd, Hcell.
    rewrite bool_decide_eq_true_2 by done.
    unfold step, wrap; simpl. f_equal; lia.
  - intros Hc Hcell Hd. rewrite (Hplayer Hc), Hd, Hcell.
    rewrite bool_decide_eq_true_2 by done.
    unfold step, wrap; simpl. f_equal; lia.
  - intros Hc. subst p'.
    by destruct (player_update_off_center keys m p Hc) as (_ & Hcell & _).
  - subst g'.
    destruct (ghost_update_cell m pc dt_ms g tape)
      as [Hsame | (_ & d' & Hd' & Hcell & _)]; [by left|].
    right. exists d'. split; [done|]. by rewrite Hcell.
  - apply is_wall_row_outside.
Qed.

End Wraparound.

Lemma wraparound_columns_only_witness :
  Maze.is_wall Maze.init (5, -1) = true
  ∧ Maze.is_wall Maze.init (5, 31) = true
  ∧ Maze.is_wall Maze.init (-1, 14) = false
  ∧ Player.cell (Player.update Examples.no_keys Maze.init
                               (Examples.player_on (0, 14) LEFT)) = (27, 14)
  ∧ Player.cell (Player.update Examples.no_keys Maze.init
                               (Examples.player_on (27, 14) RIGHT)) = (0, 14).
Proof.
  pose proof (@wraparound_columns_only Z Milli.ops Maze.init
                Examples.in_pocket (Examples.player_on (0, 14) LEFT)
                Examples.no_keys (1, 1) 16 [] 5 (-1) UP)
    as (_ & _ & _ & _ & _ & _ & _ & _ & _ & _ & _ & _ & _ & _ & _ & Hlow).
  pose proof (@wraparound_columns_only Z Milli.ops Maze.init
                Examples.in_pocket (Examples.player_on (0, 14) LEFT)
                Examples.no_keys (1, 1) 16 [] 5 31 UP)
    as (_ & _ & _ & _ & _ & _ & _ & _ & _ & _ & _ & _ & _ & _ & _ & Hhigh).
  pose proof (@wraparound_columns_only Z Milli.ops Maze.init
                Examples.in_pocket (Examples.player_on (0, 14) LEFT)
                Examples.no_keys (1, 1) 16 [] 5 14 UP)
    as (Hwall & _ & _ & _ & _ & _ & _ & _ & _ & _ & _ & Hleft & _).
  pose proof (@wraparound_columns_only Z Milli.ops Maze.init
                Examples.in_pocket (Examples.player_on (27, 14) RIGHT)
                Examples.no_keys (1, 1) 16 [] 5 14 UP)
    as (_ & _ & _ & _ & _ & _ & _ & _ & _ & _ & _ & _ & Hright & _).
  split; [apply Hlow; left; lia|].
  split; [apply Hhigh; right; unfold ROWS; lia|].
  split; [rewrite Hwall; reflexivity|].
  split.
  - apply Hleft; [reflexivity | reflexivity | vm_compute; reflexivity].
  - apply Hright; [reflexivity | reflexivity | vm_compute; reflexivity].
Defined.

(* ------------------------------------------------------------------ *)
(** ** Consumption *)

(** C7. [eat] on a cell holding a dot or a power pellet returns its kind,
    turns exactly that tile into [EMPTY] and lowers the count by one; on
    every other cell (empty, wall, gate, any other tile, out of bounds) it
    returns [None] and leaves the maze as it is.  Eating the same cell
    again does nothing, and on a maze whose count agrees with its grid
    no sequence of [eat] calls brings the count below zero. *)
Theorem eat_consumes_or_ignores
        (m : Maze.t) (x y : Z) (Hm : Maze.counted m) :
  let m' := (Maze.eat m (x, y)).2 in
  ((Maze.in_bounds x y = true ∧ Maze.tile (Maze.grid m) x y = DOT
    ∧ (Maze.eat m (x, y)).1 = Some dot ∧ consumed m m' x y)
   ∨ (Maze.in_bounds x y = true ∧ Maze.tile (Maze.grid m) x y = POWER
      ∧ (Maze.eat m (x, y)).1 = Some power ∧ consumed m m' x y)
   ∨ ((Maze.in_bounds x y = false
       ∨ (Maze.tile (Maze.grid m) x y ≠ DOT
          ∧ Maze.tile (Maze.grid m) x y ≠ POWER))
      ∧ Maze.eat m (x, y) = (None, m)))
  ∧ Maze.eat m' (x, y) = (None, m')
  ∧ (∀ n, 0 ≤ Maze.remaining_pellets (Maze.eat_all m (replicate n (x, y))))
  ∧ (∀ cells, 0 ≤ Maze.remaining_pellets (Maze.eat_all m cells)).
Proof.
  intros m'.
  destruct tiles_distinct as (Hde & Hpe & Hdp & Hpd).
  assert (∀ cells, 0 ≤ Maze.remaining_pellets (Maze.eat_all m cells)) as Hpos.
  { intros cells. unfold Maze.remaining_pellets.
    rewrite (eat_all_counted m cells Hm). apply collectibles_nonneg. }
  split; [|split; [|split; [intros n; apply Hpos | exact Hpos]]].
  - subst m'.
    destruct (eat_cases m x y) as [(Hb & Ht & ->)|[(Hb & Ht & ->)|(Hn & ->)]].
    + left. repeat split; try done; simpl.
      * apply tile_set_tile_same. by rewrite Ht.
      * intros x' y' ? ? ?. unfold Maze.in_bounds in Hb.
        apply tile_set_tile_other; [lia..|done].
    + right; left. repeat split; try done; simpl.
      * apply tile_set_tile_same. by rewrite Ht.
      * intros x' y' ? ? ?. unfold Maze.in_bounds in Hb.
        apply tile_set_tile_other; [lia..|done].
    + right; right. done.
  - subst m'.
    destruct (eat_cases m x y) as [(Hb & Ht & ->)|[(Hb & Ht & ->)|(Hn & ->)]];
      cbn [snd].
    + apply eat_none. right. cbn [Maze.grid].
      rewrite tile_set_tile_same by (by rewrite Ht). split; congruence.
    + apply eat_none. right. cbn [Maze.grid].
      rewrite tile_set_tile_same by (by rewrite Ht). split; congruence.
    + by apply eat_none.
Qed.

Lemma eat_consumes_or_ignores_witness :
  (Maze.eat Maze.init (1, 1)).1 = Some dot
  ∧ Maze.eat (Maze.eat Maze.init (1, 1)).2 (1, 1)
    = (None, (Maze.eat Maze.init (1, 1)).2)
  ∧ 0 ≤ Maze.remaining_pellets
          (Maze.eat_all Maze.init [(1, 1); (1, 1); (1, 3); (0, 0); (-4, 40)]).
Proof.
  pose proof (eat_consumes_or_ignores Maze.init 1 1 init_counted)
    as (_ & Hagain & _ & Hpos).
  split; [reflexivity|]. split; [exact Hagain | apply Hpos].
Defined.

(** C8. On every maze obtained from a fresh one by any sequence of [eat]
    calls, [remaining_pellets] is the number of dot and power tiles in the
    grid, and no further [eat] calls raise it. *)
Theorem remaining_counts_collectibles (cells more : list Cell) :
  let m := Maze.eat_all Maze.init cells in
  Maze.remaining_pellets Maze.init = Maze.collectibles (Maze.grid Maze.init)
  ∧ Maze.remaining_pellets m = Maze.collectibles (Maze.grid m)
  ∧ Maze.remaining_pellets (Maze.eat_all Maze.init (cells ++ more))
    ≤ Maze.remaining_pellets m.
Proof.
  intros m. split; [reflexivity|]. split.
  - apply (eat_all_counted Maze.init cells init_counted).
  - rewrite eat_all_app. apply eat_all_remaining_le.
Qed.

(* ------------------------------------------------------------------ *)
(** ** Direction choice *)

Section DirectionChoice.
Context {F : Type} `{!FloatOps F}.

(** C4. A chaser with at least one legal non-reverse candidate has the
  same candidates in normal and in vulnerable state.  Let [next d] be the
  neighbour of the ghost's cell one step in direction [d] (the column
  wrapped through the tunnel) and [key d] the Manhattan distance
  |x - tx| + |y - ty| from [next d] to the target.  In normal state
  [choose_direction] answers a candidate of least [key], in vulnerable
  state one of greatest [key]; the two answers differ as soon as two
  candidates are at different distances (and only then). *)
Theorem chaser_sign_flip
      (g : Ghost.t F) (maze : Maze.t) (target : Cell) (tape : Tape)
      (Hchaser : Ghost.ghost_type g = "chaser"%string)
      (Hcand : Ghost.valid_dirs (Ghost.set_state GHOST_NORMAL g) maze ≠ []) :
  let gN := Ghost.set_state GHOST_NORMAL g in
  let gV := Ghost.set_state GHOST_VULNERABLE g in
  let vd := Ghost.valid_dirs gN maze in
  let next d := (wrap_col ((Ghost.cell g).1 + (dvec d).1),
                 (Ghost.cell g).2 + (dvec d).2) in
  let key d := Z.abs ((next d).1 - target.1)
               + Z.abs ((next d).2 - target.2) in
  let dN := (Ghost.choose_direction gN maze target tape).1 in
  let dV := (Ghost.choose_direction gV maze target tape).1 in
  Ghost.valid_dirs gV maze = vd
  ∧ dN ∈ vd ∧ (∀ d, d ∈ vd → key dN ≤ key d)
  ∧ dV ∈ vd ∧ (∀ d, d ∈ vd → key d ≤ key dV)
  ∧ ((∃ d d', d ∈ vd ∧ d' ∈ vd ∧ key d ≠ key d') ↔ dN ≠ dV).
Proof.
  intros gN gV vd next key dN dV.
  assert (key = λ d, Ghost._heuristic (Ghost._next_cell (Ghost.cell g) d)
                                      target) as Hmanhattan by reflexivity.
  assert (Ghost.valid_dirs gV maze = vd) as HvdV
    by (by apply valid_dirs_alive).
  assert (dN = py_min key vd STOP) as HdN.
  { subst dN. by rewrite (choose_chaser gN maze target tape Hchaser Hcand). }
  assert (dV = py_max key vd STOP) as HdV.
  { subst dV. rewrite (choose_chaser gV maze target tape Hchaser).
  - by rewrite HvdV.
  - by rewrite HvdV. }
  destruct (py_min_spec key vd STOP Hcand) as [Hmin_in Hmin_le].
  destruct (py_max_spec key vd STOP Hcand) as [Hmax_in Hmax_le].
  rewrite HdN, HdV. repeat split; try done.
  - intros (d & d' & Hd & Hd' & Hne) Heq.
  pose proof (Hmin_le d Hd). pose proof (Hmin_le d' Hd').
  pose proof (Hmax_le d Hd). pose proof (Hmax_le d' Hd').
  rewrite Heq in *. lia.
  - intros Hne. exists (py_min key vd STOP), (py_max key vd STOP).
  repeat split; try done. intros Hkey. apply Hne.
  apply py_min_max_tie. intros x y Hx Hy.
  pose proof (Hmin_le x Hx). pose proof (Hmin_le y Hy).
  pose proof (Hmax_le x Hx). pose proof (Hmax_le y Hy). lia.
Qed.

(** C5. With a legal cardinal direction other than the reverse of its
  current direction, a ghost answers such a direction, never the
  reverse.  Without one (the dead end) it answers the reverse when the
  reverse is legal; otherwise a legal cardinal direction when there is
  one; otherwise [STOP]. *)
Theorem no_reverse_unless_dead_end
      (g : Ghost.t F) (maze : Maze.t) (target : Cell) (tape : Tape) :
  let d := (Ghost.choose_direction g maze target tape).1 in
  let rev := OPPOSITE (Ghost.direction g) in
  let legal x := Ghost.can_move g maze (Ghost.cell g) x = true in
  ((∃ x, x ∈ CARDINALS ∧ x ≠ rev ∧ legal x) →
   d ∈ CARDINALS ∧ d ≠ rev ∧ legal d)
  ∧ ((∀ x, x ∈ CARDINALS → x ≠ rev → ¬ legal x) →
   (legal rev → d = rev)
   ∧ (¬ legal rev → (∃ x, x ∈ CARDINALS ∧ legal x) →
      d ∈ CARDINALS ∧ legal d)
   ∧ (¬ legal rev → (∀ x, x ∈ CARDINALS → ¬ legal x) → d = STOP)).
Proof.
  intros d rev legal. split.
  - intros (x & Hx & Hrev & Hlegal).
  apply valid_dirs_spec. subst d. apply choose_candidate.
  intros Hnil.
  assert (x ∈ Ghost.valid_dirs g maze) as Hin by (by apply valid_dirs_spec).
  rewrite Hnil in Hin. by apply elem_of_nil in Hin.
  - intros Hdead.
  assert (Ghost.valid_dirs g maze = []) as Hnil.
  { destruct (Ghost.valid_dirs g maze) as [|x vd] eqn:Hvd; [done|].
    assert (x ∈ Ghost.valid_dirs g maze) as Hin by (rewrite Hvd; left).
    apply valid_dirs_spec in Hin as (Hx & Hrev & Hlegal).
    by destruct (Hdead x Hx Hrev). }
  subst d. rewrite (choose_dead_end g maze target tape Hnil). cbn [fst].
  subst legal rev. cbn beta.
  destruct (Ghost.can_move g maze (Ghost.cell g)
                           (OPPOSITE (Ghost.direction g))) eqn:Hrev.
  { repeat split; done. }
  split; [done|].
  destruct (List.find _ CARDINALS) as [x|] eqn:Hfind.
  + apply find_some in Hfind as [Hin Hlegal].
    apply list_elem_of_In in Hin. split; [done|].
    intros _ Hnone. by destruct (Hnone x Hin).
  + split; [|done]. intros _ (x & Hx & Hlegal).
    apply list_elem_of_In in Hx.
    pose proof (find_none _ _ Hfind x Hx) as Hno.
    simpl in Hno. congruence.
Qed.

End DirectionChoice.

Lemma chaser_sign_flip_witness :
  (Ghost.choose_direction (Examples.at_crossing GHOST_NORMAL)
                          Maze.init (1, 1) []).1
  ≠ (Ghost.choose_direction (Examples.at_crossing GHOST_VULNERABLE)
                            Maze.init (1, 1) []).1.
Proof.
  pose proof (chaser_sign_flip (Examples.at_crossing GHOST_EYES) Maze.init
                (1, 1) [] eq_refl ltac:(vm_compute; discriminate))
    as (_ & _ & _ & _ & _ & Hdiffer).
  apply Hdiffer. exists UP, DOWN.
  repeat split; [vm_compute; left | vm_compute; right; left | vm_compute; lia].
Defined.

Lemma no_reverse_unless_dead_end_witness :
  (Ghost.choose_direction (Examples.at_crossing GHOST_NORMAL)
                          Maze.init (1, 1) []).1 ≠ RIGHT
  ∧ (Ghost.choose_direction Examples.in_pocket Maze.init (1, 1) []).1 = UP.
Proof.
  split.
  - apply (no_reverse_unless_dead_end (Examples.at_crossing GHOST_NORMAL)
             Maze.init (1, 1) []).
    exists UP. repeat split; [left | discriminate].
  - apply (no_reverse_unless_dead_end Examples.in_pocket Maze.init (1, 1) []).
    + intros x Hx Hrev Hlegal. apply list_elem_of_In in Hx. simpl in Hx.
      destruct Hx as [<-|[<-|[<-|[<-|[]]]]];
        first [by apply Hrev | vm_compute in Hlegal; discriminate].
    + reflexivity.
Defined.

(* ------------------------------------------------------------------ *)
(** ** Ghost lifecycle *)

Section Lifecycle.
Context {F : Type} `{!FloatOps F}.

(** C9, as amended.  The lifecycle state of a ghost is written by four
  calls.  The broadcast [set_vulnerable] leaves a ghost in eyes state
  unchanged and puts any other ghost in vulnerable state with the
  countdown given.  [eaten] puts the ghost in eyes state.  [reset] puts
  it in normal state with countdown 0 on its start cell, which is its
  home cell.  [update] keeps a normal ghost normal; lowers the countdown
  of a vulnerable ghost by the elapsed time and makes it normal when the
  result is zero or less, else keeps it vulnerable; and makes a ghost in
  eyes state normal exactly when its cell, after the move of this tick,
  is its home cell, else keeps it in eyes state. *)
Theorem lifecycle_transitions (c : Ghost.Call) (g : Ghost.t F) (tape : Tape) :
  let g' := (Ghost.call c g tape).1 in
  match c with
  | Ghost.Broadcast duration_ms =>
    if bool_decide (Ghost.state g = GHOST_EYES) then g' = g
    else Ghost.state g' = GHOST_VULNERABLE
         ∧ Ghost.vulnerable_timer g' = duration_ms
  | Ghost.Eaten_ => Ghost.state g' = GHOST_EYES
  | Ghost.Reset =>
    Ghost.state g' = GHOST_NORMAL ∧ Ghost.vulnerable_timer g' = 0
    ∧ Ghost.cell g' = Ghost.start_cell g
    ∧ Ghost.home_cell g' = Ghost.start_cell g
  | Ghost.Tick maze player_cell dt_ms =>
    match Ghost.state g with
    | GHOST_NORMAL => Ghost.state g' = GHOST_NORMAL
    | GHOST_VULNERABLE =>
        Ghost.vulnerable_timer g' = Ghost.vulnerable_timer g - dt_ms
        ∧ Ghost.state g'
          = (if Ghost.vulnerable_timer g - dt_ms <=? 0
             then GHOST_NORMAL else GHOST_VULNERABLE)
    | GHOST_EYES =>
        Ghost.state g'
        = (if bool_decide (Ghost.cell g' = Ghost.home_cell g')
           then GHOST_NORMAL else GHOST_EYES)
    end
  end.
Proof.
  destruct c as [duration_ms| | |maze player_cell dt_ms]; simpl.
  - unfold Ghost.set_vulnerable. by destruct (bool_decide _).
  - done.
  - unfold Ghost.reset, Ghost.init, bind, ret.
  by destruct (choice CARDINALS tape).
  - apply update_state.
Qed.

End Lifecycle.

(** C9, as stated, fails: a vulnerable ghost that is eaten goes to eyes
    state, which is none of the three listed transitions. *)
Lemma lifecycle_eaten_not_listed :
  let g := Examples.at_crossing GHOST_VULNERABLE in
  let g' := (Ghost.call Ghost.Eaten_ g []).1 in
  Ghost.state g = GHOST_VULNERABLE
  ∧ Ghost.state g' = GHOST_EYES
  ∧ ¬ Ghost.listed_transition g g'.
Proof.
  repeat split. intros [[_ H]|[(_ & H & _)|(H & _)]]; discriminate H.
Qed.

(* ------------------------------------------------------------------ *)
(** ** Combo scoring *)

Section ComboScoring.
Context {F : Type} `{!FloatOps F}.

(** C1. Consuming a Major puts the combo at 0.  Eating a vulnerable ghost
  raises the combo by one and the score by
  [ghost_score_base * 2 ^ (combo - 1)], with the combo as raised.  Hence,
  over any number of ticks, the ghosts eaten after a Major and before
  the next one (or from a combo of 0 on, before the first Major) raise
  the score by base, 2 base, 4 base, ... in that order.  In every
  session the combo plus the number of vulnerable ghosts is at most the
  number of ghosts when the collision loop starts; so when that loop
  meets two ghosts [A; B], both vulnerable and both touching the player,
  the score rises by base, then by 2 base, and the combo ends at 2. *)
Theorem combo_scoring :
  (∀ G : Game.t F,
    Game.eats_major G = true → Game.ghost_combo (Game.eat_pellets G) = 0)
  ∧ (∀ (i : nat) (g : Ghost.t F) (G : Game.t F),
      let R := Game.eat_ghost i g G in
      Game.ghost_combo R = Game.ghost_combo G + 1
      ∧ Game.score R
        = Game.score G
          + Game.ghost_score_base G * 2 ^ (Game.ghost_combo R - 1))
  ∧ (∀ (inputs : list (Keys * Z)) (G : Game.t F) (tape : Tape)
     (l1 l2 : list Event),
      0 ≤ Game.ghost_combo G →
      (Game.run_log inputs G tape).1.2 = l1 ++ Major :: l2 →
      Major ∉ l2 →
      Game.run inputs G tape
      = ((Game.run_log inputs G tape).1.1, (Game.run_log inputs G tape).2)
      ∧ awards l2
        = doubling (Game.ghost_score_base G) 0 (length (awards l2)))
  ∧ (∀ (inputs : list (Keys * Z)) (G : Game.t F) (tape : Tape),
      Game.ghost_combo G = 0 →
      Major ∉ (Game.run_log inputs G tape).1.2 →
      awards (Game.run_log inputs G tape).1.2
      = doubling (Game.ghost_score_base G) 0
                 (length (awards (Game.run_log inputs G tape).1.2)))
  ∧ (∀ (G : Game.t F) (keys : Keys) (dt_ms : Z) (tape : Tape),
      Game.reachable G →
      Game.combo_bounded (Game.before_collisions keys dt_ms G tape).1)
  ∧ (∀ (G : Game.t F) (A B : Ghost.t F) (tape : Tape),
      Game.combo_bounded G →
      Game.ghosts G = [A; B] →
      Ghost.state A = GHOST_VULNERABLE →
      Ghost.state B = GHOST_VULNERABLE →
      touching (Player.pos (Game.player G)) (Ghost.pos A) = true →
      touching (Player.pos (Game.player G)) (Ghost.pos B) = true →
      let r := (Game.collide_log 2 0 G tape).1 in
      Game.resolve_collisions G tape = (r.1, tape)
      ∧ r.2 = [Eaten (Game.ghost_score_base G);
               Eaten (2 * Game.ghost_score_base G)]
      ∧ Game.score r.1
        = Game.score G + Game.ghost_score_base G
          + 2 * Game.ghost_score_base G
      ∧ Game.ghost_combo r.1 = 2
      ∧ map Ghost.state (Game.ghosts r.1) = [GHOST_EYES; GHOST_EYES]).
Proof.
  split; [|split; [|split; [|split; [|split]]]].
  - intros G Hmajor. destruct (eats_major_spec G) as [_ ->]. by rewrite Hmajor.
  - intros i g G R. subst R.
  pose proof (eat_ghost_spec i g G) as (Hc & Hs & _).
  split; [done|]. rewrite Hs, Hc.
  by replace (Game.ghost_combo G + 1 - 1) with (Game.ghost_combo G) by lia.
  - intros inputs G tape l1 l2 Hpos Hlog Hno.
  split; [apply run_log_erase|].
  pose proof (run_log_chained inputs G tape) as [Hch _]. simpl in Hch.
  rewrite Hlog in Hch. apply chained_after_major in Hch.
  by destruct (chained_doubling _ _ _ _ Hno Hch).
  - intros inputs G tape Hzero Hno.
  pose proof (run_log_chained inputs G tape) as [Hch _]. simpl in Hch.
  rewrite Hzero in Hch. by destruct (chained_doubling _ _ _ _ Hno Hch).
  - intros G keys dt_ms tape Hreach.
  by apply bounded_before_collisions, reachable_bounded.
  - intros G A B tape [Hpos Hle] Hgs HA HB HtA HtB.
  assert (Game.ghost_combo G = 0) as Hzero.
  { rewrite Hgs in Hle. simpl in Hle.
    rewrite HA, HB in Hle. simpl in Hle. lia. }
  destruct G as [maze ps p gs sc lv lev dur base combo go].
  simpl in *. subst gs combo.
  unfold Game.resolve_collisions, Game.collide, Game.collide_log,
    Game.eat_ghost, bind, ret.
  simpl. rewrite HtA, HA. simpl. rewrite HtB, HB. simpl.
  change (2 ^ (0 + 1 - 1)) with 1. change (2 ^ (0 + 1 + 1 - 1)) with 2.
  split; [done|]. split; [repeat f_equal; lia|]. split; [lia|done].
Qed.

End ComboScoring.

Lemma combo_scoring_witness :
  awards [Eaten 200; Eaten 400] = doubling 200 0 2
  ∧ Game.ghost_combo
      (Game.collide_log 2 0
         (Game.before_collisions Examples.no_keys 16 Examples.ambush []).1
         []).1.1 = 2.
Proof.
  pose proof (@combo_scoring Z Milli.ops)
    as (_ & _ & Hchain & _ & _ & Htwo).
  split.
  - apply (Hchain [(Examples.no_keys, 16)] Examples.ambush [] []
                  [Eaten 200; Eaten 400]).
    + vm_compute. discriminate.
    + vm_compute. reflexivity.
    + intros Hin. apply list_elem_of_In in Hin. simpl in Hin.
      intuition discriminate.
  - eapply (Htwo (Game.before_collisions Examples.no_keys 16
                                         Examples.ambush []).1).
    + split; vm_compute; discriminate.
    + vm_compute. reflexivity.
    + reflexivity.
    + reflexivity.
    + vm_compute. reflexivity.
    + vm_compute. reflexivity.
Defined.

Section ComboFrame.
Context {F : Type} `{!FloatOps F}.

(** C10. [reset_positions], the life loss, the level transition and the
  move of the actors (where countdowns expire) leave the combo as it is,
  and so does "Eat pellets" unless a Major is consumed.  A tick without
  a Major raises the combo by the number of ghosts eaten in it.  Over
  any number of ticks without a Major, whatever lives are lost and
  levels completed on the way, the ghosts eaten raise the score by
  [base * 2 ^ combo], [base * 2 ^ (combo + 1)], ... from the combo at
  the start. *)
Theorem combo_reset_only_by_major :
  (∀ (G : Game.t F) (tape : Tape),
    Game.ghost_combo (Game.reset_positions G tape).1 = Game.ghost_combo G
    ∧ Game.ghost_combo (Game.lose_life G tape).1 = Game.ghost_combo G
    ∧ Game.ghost_combo (Game.next_level G tape).1 = Game.ghost_combo G
    ∧ Game.ghost_combo (Game.level_complete G tape).1 = Game.ghost_combo G)
  ∧ (∀ (keys : Keys) (dt_ms : Z) (G : Game.t F) (tape : Tape),
      Game.ghost_combo (Game.advance keys dt_ms G tape).1
      = Game.ghost_combo G)
  ∧ (∀ G : Game.t F,
      Game.eats_major G = false →
      Game.ghost_combo (Game.eat_pellets G) = Game.ghost_combo G)
  ∧ (∀ (keys : Keys) (dt_ms : Z) (G : Game.t F) (tape : Tape),
      let r := (Game.update_log keys dt_ms G tape).1 in
      Major ∉ r.2 →
      Game.update keys dt_ms G tape
      = (r.1, (Game.update_log keys dt_ms G tape).2)
      ∧ Game.ghost_combo r.1
        = Game.ghost_combo G + Z.of_nat (length (awards r.2)))
  ∧ (∀ (inputs : list (Keys * Z)) (G : Game.t F) (tape : Tape),
      let r := (Game.run_log inputs G tape).1 in
      0 ≤ Game.ghost_combo G →
      Major ∉ r.2 →
      awards r.2
      = doubling (Game.ghost_score_base G) (Game.ghost_combo G)
                 (length (awards r.2))
      ∧ Game.ghost_combo r.1
        = Game.ghost_combo G + Z.of_nat (length (awards r.2))).
Proof.
  split; [|split; [|split; [|split]]].
  - intros G tape.
  pose proof (reset_positions_spec G tape) as (_ & Hl & _).
  pose proof (lose_life_spec G tape) as (_ & _ & _ & _ & _ & ? & _).
  pose proof (next_level_spec G tape) as (_ & _ & _ & _ & ? & _).
  pose proof (level_complete_spec G tape) as (_ & _ & ? & _).
  simpl in Hl. unfold Game.ledger in Hl.
  repeat split; try done. by simplify_eq.
  - intros keys dt_ms G tape.
  pose proof (advance_spec keys dt_ms G tape) as (_ & Hl & _).
  simpl in Hl. unfold Game.ledger in Hl. by simplify_eq.
  - intros G Hno. destruct (eats_major_spec G) as [_ ->]. by rewrite Hno.
  - intros keys dt_ms G tape r Hno. split; [apply update_log_erase|].
  pose proof (update_log_chained keys dt_ms G tape) as [Hch _].
  by destruct (chained_doubling _ _ _ _ Hno Hch).
  - intros inputs G tape r _ Hno.
  pose proof (run_log_chained inputs G tape) as [Hch _].
  by destruct (chained_doubling _ _ _ _ Hno Hch).
Qed.

End ComboFrame.

Lemma combo_reset_only_by_major_witness :
  Game.ghost_combo
    (Game.update_log Examples.no_keys 16
       (Examples.game_with Maze.init (Examples.player_on (1, 5) STOP)
                           (Game.ghosts Examples.caught) 1)
       [2; 1; 2]%nat).1.1 = 1.
Proof.
  pose proof (@combo_reset_only_by_major Z Milli.ops)
    as (_ & _ & _ & Htick & _).
  refine (proj2 (Htick Examples.no_keys 16 _ [2; 1; 2]%nat _)).
  vm_compute. intros Hin. apply list_elem_of_In in Hin. destruct Hin.
Defined.

(* ------------------------------------------------------------------ *)
(** ** Life loss and level transition *)

Section LifeAndLevel.
Context {F : Type} `{!FloatOps F}.

(** C2, as amended.  In a tick of a running game whose collision loop
  meets a ghost that touches the player in normal state, the lives
  decrease by exactly 1 (and the game is over exactly when none is
  left), the loop ends at the first such ghost, the player is back on
  its start cell with direction and queued direction cleared, and every
  ghost is back on its own start cell in normal state with no
  countdown and a direction drawn among the four cardinal ones. *)
Theorem life_loss_reset
      (keys : Keys) (dt_ms : Z) (G : Game.t F) (tape : Tape) (i : nat)
      (Hplay : Game.game_over G = false)
      (Hhit : Game.fatal (Game.before_collisions keys dt_ms G tape).1 i
              = true) :
  let B := Game.before_collisions keys dt_ms G tape in
  let U := (Game.update keys dt_ms G tape).1 in
  Game.lives U = Game.lives G - 1
  ∧ Game.game_over U = (Game.lives G - 1 <=? 0)
  ∧ Player.at_start (Game.player U)
  ∧ Player.start_cell (Game.player U) = Player.start_cell (Game.player G)
  ∧ Forall Ghost.at_start (Game.ghosts U)
  ∧ Forall (λ g, Ghost.direction g ≠ STOP) (Game.ghosts U)
  ∧ map Ghost.start_cell (Game.ghosts U)
  = map Ghost.start_cell (Game.ghosts G)
  ∧ ∃ i0, (i0 ≤ i)%nat ∧ Game.fatal B.1 i0 = true
        ∧ (∀ j, (j < i0)%nat → Game.fatal B.1 j = false)
        ∧ Game.resolve_collisions B.1 B.2
          = Game.lose_life (Game.collide i0 0 B.1 B.2).1 B.2.
Proof.
  intros B U.
  destruct (first_true (Game.fatal B.1) i Hhit) as (i0 & Hle & Hi0 & Hleast).
  assert (i0 < length (Game.ghosts B.1))%nat as Hlen.
  { unfold Game.fatal in Hi0.
  destruct (Game.ghosts B.1 !! i0) eqn:Hg; [|done].
  by eapply lookup_lt_Some. }
  pose proof (collide_fatal (length (Game.ghosts B.1) - i0) i0 B.1 B.2
              Hlen ltac:(lia) Hi0 Hleast) as Hloop.
(* the state before the loop *)
  pose proof (cast_before_collisions keys dt_ms G tape) as [HcastB HstartB].
  assert (Game.lives B.1 = Game.lives G
        ∧ Game.game_over B.1 = Game.game_over G) as [HlivesB HoverB].
  { subst B. unfold Game.before_collisions, bind, ret.
  pose proof (advance_spec keys dt_ms G tape) as (_ & Hl & _).
  destruct (Game.advance keys dt_ms G tape) as [G1 t1]. simpl in *.
  pose proof (eat_pellets_spec G1) as (_ & _ & Hlv & _ & Hgo & _).
  unfold Game.ledger in Hl. simpl in *. rewrite Hlv, Hgo.
  by simplify_eq. }
(* the loop up to the ghost that costs the life *)
  destruct (collide_prefix i0 0 0 B.1 B.2) as (_ & _ & _ & HlivesP & HoverP & _).
  { intros j Hj. apply Hleast. lia. }
  pose proof (cast_collide i0 0 B.1 B.2) as [HcastP HstartP].
  set (P := (Game.collide i0 0 B.1 B.2).1) in *.
  pose proof (lose_life_spec P B.2)
  as (_ & HlivesL & HoverL & _ & _ & _ & _ & _ & HresetL).
  pose proof (cast_at_start _ _ HresetL) as [HcastL HatL].
  set (L := Game.lose_life P B.2) in *.
(* the end of the tick *)
  assert (U = (Game.level_complete L.1 L.2).1) as HU.
  { subst U L. rewrite update_unfold by done. fold B. by rewrite Hloop. }
  pose proof (level_complete_spec L.1 L.2)
  as (_ & HlivesU & _ & HoverU & _ & _ & Hcase).
  rewrite <- HU in HlivesU, HoverU, Hcase.
  assert (Game.all_at_start P U) as HresetU
    by (rewrite HU; by apply level_complete_keeps_start).
  pose proof (cast_at_start _ _ HresetU) as [HcastU HatU].
  destruct HresetU as (HpU & HpsU & _).
  split; [lia|]. split.
  { rewrite HoverU, HoverL, HlivesP, HoverP, HlivesB, HoverB, Hplay.
  by destruct (Game.lives G - 1 <=? 0). }
  split; [done|]. split; [rewrite HpsU, HstartP; exact HstartB|].
  split; [done|]. split.
  { eapply Forall_impl; [exact HatU|]. intros g (_ & _ & _ & _ & _ & Hd) Hs.
  rewrite Hs in Hd. apply list_elem_of_In in Hd. simpl in Hd.
  intuition discriminate. }
  split; [rewrite HcastU, HcastP; exact HcastB|].
  exists i0. repeat split; done.
Qed.

(** C3, as amended.  When the player's move of a tick takes it onto the
  last collectible, "Eat pellets" brings the count to 0 and raises the
  score by the value of the pellet, and the level transition happens at
  the end of the same tick: the maze is a fresh one with all its 262
  collectibles, the level is one higher, player and ghosts are back at
  their start, and the transition itself changes no lives (they are
  those left by the collision loop, and those of the start of the tick
  when no ghost costs a life). *)
Theorem last_collectible_same_tick
      (keys : Keys) (dt_ms : Z) (G : Game.t F) (tape : Tape) (k : Pellet)
      (Hplay : Game.game_over G = false)
      (Hlast : Maze.remaining_pellets (Game.maze G) = 1)
      (Heat : (Maze.eat (Game.maze G)
                        (Player.cell (Player.update keys (Game.maze G)
                                                    (Game.player G)))).1
              = Some k) :
  let B := Game.before_collisions keys dt_ms G tape in
  let C := Game.resolve_collisions B.1 B.2 in
  let U := (Game.update keys dt_ms G tape).1 in
  Maze.remaining_pellets (Game.maze B.1) = 0
  ∧ Game.score B.1
  = Game.score G + match k with dot => 10 | power => 50 end
  ∧ Game.maze U = Maze.init
  ∧ Maze.remaining_pellets (Game.maze U) = 262
  ∧ Game.level U = Game.level G + 1
  ∧ Game.lives U = Game.lives C.1
  ∧ ((∀ j, Game.fatal B.1 j = false) → Game.lives U = Game.lives G)
  ∧ Player.at_start (Game.player U)
  ∧ Forall Ghost.at_start (Game.ghosts U).
Proof.
  intros B C U.
(* the state before the loop *)
  assert (Game.maze B.1
        = (Maze.eat (Game.maze G)
                    (Player.cell (Player.update keys (Game.maze G)
                                                (Game.player G)))).2
        ∧ Game.score B.1
          = Game.score G + match k with dot => 10 | power => 50 end
        ∧ Game.lives B.1 = Game.lives G ∧ Game.level B.1 = Game.level G)
  as (HmazeB & HscoreB & HlivesB & HlevelB).
  { subst B. unfold Game.before_collisions, bind, ret.
  pose proof (advance_spec keys dt_ms G tape) as (Hm & Hl & Hp & _).
  destruct (Game.advance keys dt_ms G tape) as [G1 t1].
  cbn [fst snd] in Hm, Hl, Hp |- *. cbv zeta in Hm, Hl, Hp.
  pose proof (eat_pellets_spec G1) as (Hm2 & _ & Hlv & Hlev & _ & _ & _ & Hcase).
  cbv zeta in Hm2, Hlv, Hlev, Hcase.
  rewrite Hm, Hp in Hm2, Hcase. rewrite Heat in Hcase.
  unfold Game.ledger in Hl.
  assert (Game.score G1 = Game.score G ∧ Game.lives G1 = Game.lives G
          ∧ Game.level G1 = Game.level G) as (Hs1 & Hl1 & Hv1)
      by (by simplify_eq).
  split; [done|].
  split; [destruct k; destruct Hcase as [Hk _]; lia|].
  split; congruence. }
  assert (Maze.remaining_pellets (Game.maze B.1) = 0) as HzeroB.
  { rewrite HmazeB. unfold Maze.remaining_pellets in *.
  destruct (Player.cell _) as [x y].
  destruct (eat_cases (Game.maze G) x y)
    as [(_ & _ & He)|[(_ & _ & He)|(_ & He)]];
    rewrite He in Heat |- *; cbn [fst snd Maze.dots_total] in Heat |- *;
    [lia | lia | done]. }
(* the loop leaves the maze and the level alone *)
  pose proof (collide_frame (length (Game.ghosts B.1)) 0 B.1 B.2)
  as (HmazeC & HlevelC & _).
  fold (Game.resolve_collisions B.1 B.2) in HmazeC, HlevelC. fold C in HmazeC, HlevelC.
  assert (U = (Game.level_complete C.1 C.2).1) as HU.
  { subst U C B. by rewrite update_unfold. }
  pose proof (level_complete_spec C.1 C.2) as (_ & HlivesU & _ & _ & _ & _ & Hcase).
  rewrite <- HU in HlivesU, Hcase. simpl in HmazeC.
  rewrite HmazeC, HzeroB in Hcase. simpl in Hcase.
  destruct Hcase as (HmazeU & HlevelU & HresetU).
  pose proof (cast_at_start _ _ HresetU) as [_ HatU].
  destruct HresetU as (HpU & _).
  split; [done|]. split; [done|]. split; [done|].
  split; [by rewrite HmazeU|]. split; [simpl in HlevelC; congruence|].
  split; [done|]. split; [|done].
  intros Hsafe. rewrite HlivesU. subst C. unfold Game.resolve_collisions.
  destruct (collide_prefix (length (Game.ghosts B.1)) 0 0 B.1 B.2)
  as (_ & _ & _ & Hlv & _); [by intros j _|].
  rewrite Nat.add_0_r in Hlv |- * || idtac. congruence.
Qed.

End LifeAndLevel.

Lemma life_loss_reset_witness :
  Game.lives (Game.update Examples.no_keys 16 Examples.caught
                          [2; 1; 2]%nat).1 = 2.
Proof.
  apply (life_loss_reset Examples.no_keys 16 Examples.caught [2; 1; 2]%nat 0).
  - reflexivity.
  - vm_compute. reflexivity.
Defined.

(** C2, as stated, fails: after the life is lost the ghosts head in the
    directions drawn by [reset], here down and left, not in none. *)
Lemma life_loss_ghost_direction_not_cleared :
  let G := Examples.caught in
  let tape := [2; 1; 2]%nat in
  let U := (Game.update Examples.no_keys 16 G tape).1 in
  Game.fatal (Game.before_collisions Examples.no_keys 16 G tape).1 0 = true
  ∧ Game.lives U = Game.lives G - 1
  ∧ map Ghost.direction (Game.ghosts U) = [DOWN; LEFT]
  ∧ ¬ Forall (λ g, Ghost.direction g = STOP) (Game.ghosts U).
Proof.
  split; [vm_compute; reflexivity|].
  split; [vm_compute; reflexivity|].
  split; [vm_compute; reflexivity|].
  intros Hall. vm_compute in Hall.
  inversion Hall as [|g gs Hd _]. discriminate Hd.
Qed.

Lemma last_collectible_same_tick_witness :
  Game.level (Game.update Examples.no_keys 16 Examples.last_dot
                          [2; 1; 2]%nat).1 = 2.
Proof.
  pose proof (@last_collectible_same_tick Z Milli.ops Examples.no_keys 16
                Examples.last_dot [2; 1; 2]%nat dot eq_refl eq_refl
                ltac:(vm_compute; reflexivity))
    as (_ & _ & _ & _ & Hlevel & _).
  rewrite Hlevel. reflexivity.
Defined.

(** C3, as stated, fails: the tick in which the player takes the last
    dot, at (5, 5), already ends on the next level with a full maze. *)
Lemma last_dot_transition_in_same_tick :
  let G := Examples.last_dot in
  let tape := [2; 1; 2]%nat in
  let U := (Game.update Examples.no_keys 16 G tape).1 in
  Maze.remaining_pellets (Game.maze G) = 1
  ∧ Maze.tile (Maze.grid (Game.maze G)) 5 5 = DOT
  ∧ Player.cell
      (Game.player (Game.before_collisions Examples.no_keys 16 G tape).1)
    = (5, 5)
  ∧ Game.score U = Game.score G + 10
  ∧ Maze.remaining_pellets (Game.maze U) ≠ 0
  ∧ Game.level U = Game.level G + 1.
Proof.
  repeat split; try (vm_compute; reflexivity). vm_compute. discriminate.
Qed.

(* ================================================================== *)
(** * Further properties of the program *)

(* ------------------------------------------------------------------ *)
(** ** Pixels and cells *)

(** X1. [pix_to_grid] undoes [grid_to_pix], and more generally maps every
    whole pixel of the 24 x 24 square around the centre of a cell back to
    that cell, for every cell whose centre has pixel coordinates of
    magnitude at most 2^53: the range on which the floating-point sum in
    [grid_to_pix] is exact, which contains every cell of the grid. *)
Theorem pix_to_grid_of_cell_square (c : Cell) (dx dy : Z) :
  Z.abs (grid_to_pix c).1 ≤ 2 ^ 53 → Z.abs (grid_to_pix c).2 ≤ 2 ^ 53 →
  -12 ≤ dx < 12 → -12 ≤ dy < 12 →
  pix_to_grid ((grid_to_pix c).1 + dx, (grid_to_pix c).2 + dy) = c.
Proof.
  intros _ _ Hx Hy. destruct c as [x y].
  unfold pix_to_grid, grid_to_pix, CELL_SIZE. simpl.
  change (24 / 2) with 12.
  f_equal; symmetry.
  - apply (Z.div_unique _ 24 x (12 + dx)); lia.
  - apply (Z.div_unique _ 24 y (12 + dy)); lia.
Qed.

Lemma pix_to_grid_of_cell_square_witness :
  pix_to_grid (grid_to_pix (13, 23)) = (13, 23)
  ∧ pix_to_grid (324 - 12, 564 + 11) = (13, 23)
  ∧ pix_to_grid (grid_to_pix (COLS - 1, ROWS - 1)) = (COLS - 1, ROWS - 1).
Proof.
  split; [|split].
  - apply (pix_to_grid_of_cell_square (13, 23) 0 0);
      [vm_compute; discriminate | vm_compute; discriminate | lia | lia].
  - apply (pix_to_grid_of_cell_square (13, 23) (-12) 11);
      [vm_compute; discriminate | vm_compute; discriminate | lia | lia].
  - apply (pix_to_grid_of_cell_square (COLS - 1, ROWS - 1) 0 0);
      [vm_compute; discriminate | vm_compute; discriminate | lia | lia].
Defined.

(* ------------------------------------------------------------------ *)
(** ** Walls and gates *)

Lemma wrap_col_range (x : Z) : 0 ≤ wrap_col x < COLS.
Proof.
  unfold wrap_col, COLS.
  destruct (Z.ltb_spec x 0); [lia|].
  destruct (Z.geb_spec x 28); lia.
Qed.

Lemma wrap_col_id (x : Z) : 0 ≤ x < COLS → wrap_col x = x.
Proof.
  unfold wrap_col, COLS. intros Hx.
  destruct (Z.ltb_spec x 0); [lia|].
  destruct (Z.geb_spec x 28); lia.
Qed.

(** Consuming [(x, y)] changes no tile into or out of [c], when [c] is
    neither a collectible nor [EMPTY]. *)
Lemma eat_keeps_tile_test (m : Maze.t) (cell : Cell) (x' y' : Z) (c : ascii) :
  c ≠ DOT → c ≠ POWER → c ≠ EMPTY → 0 ≤ x' → 0 ≤ y' →
  Ascii.eqb (Maze.tile (Maze.grid (Maze.eat m cell).2) x' y') c
  = Ascii.eqb (Maze.tile (Maze.grid m) x' y') c.
Proof.
  intros Hd Hp He Hx' Hy'. destruct cell as [x y].
  assert (∀ k, Maze.tile (Maze.grid m) x y = k → k ≠ c → k ≠ EMPTY →
               Maze.in_bounds x y = true →
               Ascii.eqb (Maze.tile (Maze.set_tile (Maze.grid m) x y EMPTY)
                                    x' y') c
               = Ascii.eqb (Maze.tile (Maze.grid m) x' y') c) as Hset.
  { intros k Hk Hkc Hke Hb. unfold Maze.in_bounds in Hb.
    destruct (decide ((x', y') = (x, y))) as [Heq|Hne].
    - injection Heq as -> ->.
      rewrite tile_set_tile_same by (by rewrite Hk). rewrite Hk.
      destruct (Ascii.eqb_spec EMPTY c), (Ascii.eqb_spec k c); congruence.
    - rewrite tile_set_tile_other; [done|lia..|done]. }
  destruct tiles_distinct as (Hde & Hpe & _).
  destruct (eat_cases m x y) as [(Hb & Ht & ->)|[(Hb & Ht & ->)|(_ & ->)]];
    cbn [snd Maze.grid]; [| |done].
  - by apply (Hset DOT).
  - by apply (Hset POWER).
Qed.

Lemma eat_keeps_walls_and_gates (m : Maze.t) (cell c' : Cell) :
  Maze.is_wall (Maze.eat m cell).2 c' = Maze.is_wall m c'
  ∧ Maze.is_gate (Maze.eat m cell).2 c' = Maze.is_gate m c'.
Proof.
  destruct c' as [x' y']. unfold Maze.is_wall, Maze.is_gate. split.
  - destruct ((y' <? 0) || (y' >=? ROWS)) eqn:Hrow; [done|].
    apply eat_keeps_tile_test; try done.
    + apply wrap_col_range.
    + apply orb_false_iff in Hrow as [Hlow _]. lia.
  - destruct ((0 <=? y') && (y' <? ROWS) && (0 <=? x') && (x' <? COLS))
      eqn:Hin; [|done].
    apply eat_keeps_tile_test; try done; lia.
Qed.

(** X2. Walls and gates are immutable: whatever cells are consumed,
    [is_wall] and [is_gate] answer as before at every cell.  A gate is
    always inside the grid and never a wall. *)
Theorem walls_and_gates_immutable (m : Maze.t) (cells : list Cell) (c : Cell) :
  Maze.is_wall (Maze.eat_all m cells) c = Maze.is_wall m c
  ∧ Maze.is_gate (Maze.eat_all m cells) c = Maze.is_gate m c
  ∧ (Maze.is_gate m c = true →
     Maze.in_bounds c.1 c.2 = true ∧ Maze.is_wall m c = false).
Proof.
  split; [|split].
  - revert m. induction cells as [|c0 cells IH]; intros m; [done|].
    simpl. rewrite IH. apply eat_keeps_walls_and_gates.
  - revert m. induction cells as [|c0 cells IH]; intros m; [done|].
    simpl. rewrite IH. apply eat_keeps_walls_and_gates.
  - destruct c as [x y]. unfold Maze.is_gate, Maze.is_wall, Maze.in_bounds.
    simpl. destruct ((0 <=? y) && (y <? ROWS) && (0 <=? x) && (x <? COLS))
      eqn:Hin; [|done].
    intros Hg. assert (0 ≤ x < COLS ∧ 0 ≤ y < ROWS) as [Hx Hy] by lia.
    split; [lia|]. rewrite (wrap_col_id x Hx).
    destruct (orb_false_iff (y <? 0) (y >=? ROWS)) as [_ ->]; [|lia].
    apply Ascii.eqb_eq in Hg. rewrite Hg. reflexivity.
Qed.

Lemma walls_and_gates_immutable_witness :
  Maze.is_gate (Maze.eat_all Maze.init [(1, 1); (1, 3); (13, 12)]) (13, 12)
  = true
  ∧ Maze.is_wall Maze.init (13, 12) = false.
Proof.
  pose proof (walls_and_gates_immutable Maze.init [(1, 1); (1, 3); (13, 12)]
                                        (13, 12)) as (_ & Hg & Hexcl).
  split; [rewrite Hg; reflexivity | apply Hexcl; reflexivity].
Defined.

(* ------------------------------------------------------------------ *)
(** ** Legal steps *)

Section Legality.
Context {F : Type} `{!FloatOps F}.

(** X3. Outside eyes state a ghost may step exactly where the player
    may; in eyes state it may step on every cell that is not a wall, the
    gate included. *)
Theorem ghost_and_player_legality
        (g : Ghost.t F) (m : Maze.t) (c : Cell) (d : Direction) :
  (Ghost.state g ≠ GHOST_EYES →
   Ghost.can_move g m c d = Player.can_move m c d)
  ∧ (Ghost.state g = GHOST_EYES →
     Ghost.can_move g m c d = negb (Maze.is_wall m (Ghost._next_cell c d))).
Proof.
  unfold Ghost.can_move, Player.can_move, Ghost._next_cell.
  set (nx := wrap_col (c.1 + (dvec d).1)). set (ny := c.2 + (dvec d).2).
  assert ((ny <? 0) || (ny >=? ROWS) = true → Maze.is_wall m (nx, ny) = true)
    as Hout.
  { intros Hrow. apply is_wall_row_outside.
    apply orb_true_iff in Hrow as [?|?]; lia. }
  split; intros Hs.
  - rewrite (bool_decide_eq_true_2 _ Hs), andb_true_r.
    destruct ((ny <? 0) || (ny >=? ROWS)); [by rewrite Hout|].
    by destruct (Maze.is_wall m (nx, ny)), (Maze.is_gate m (nx, ny)).
  - rewrite bool_decide_eq_false_2 by (by intros Hne; apply Hne).
    rewrite andb_false_r.
    destruct ((ny <? 0) || (ny >=? ROWS)); [by rewrite Hout|].
    by destruct (Maze.is_wall m (nx, ny)).
Qed.

End Legality.

Lemma ghost_and_player_legality_witness :
  Ghost.can_move (Examples.at_crossing GHOST_NORMAL) Maze.init (13, 11) DOWN
  = false
  ∧ Ghost.can_move (Examples.at_crossing GHOST_EYES) Maze.init (13, 11) DOWN
    = true.
Proof.
  split.
  - rewrite (proj1 (ghost_and_player_legality
                      (Examples.at_crossing GHOST_NORMAL) Maze.init
                      (13, 11) DOWN)); [reflexivity | discriminate].
  - rewrite (proj2 (ghost_and_player_legality
                      (Examples.at_crossing GHOST_EYES) Maze.init
                      (13, 11) DOWN)); reflexivity.
Defined.

(* ------------------------------------------------------------------ *)
(** ** How the player moves *)

Section PlayerMoves.
Context {F : Type} `{!FloatOps F}.

Lemma player_can_move_target (m : Maze.t) (c : Cell) (d : Direction) :
  Player.can_move m c d = true →
  Maze.is_wall m (Ghost._next_cell c d) = false
  ∧ Maze.is_gate m (Ghost._next_cell c d) = false
  ∧ Maze.in_bounds (Ghost._next_cell c d).1 (Ghost._next_cell c d).2 = true.
Proof.
  unfold Player.can_move, Ghost._next_cell. cbn [fst snd].
  set (nx := wrap_col (c.1 + (dvec d).1)). set (ny := c.2 + (dvec d).2).
  destruct (Maze.is_wall m (nx, ny)) eqn:Hw; [simpl; done|].
  destruct (Maze.is_gate m (nx, ny)) eqn:Hg; [simpl; done|]. intros _.
  repeat split. unfold Maze.in_bounds.
  pose proof (wrap_col_range (c.1 + (dvec d).1)) as Hnx. fold nx in Hnx.
  assert (0 ≤ ny < ROWS).
  { destruct (decide (0 ≤ ny < ROWS)); [done|].
    rewrite is_wall_row_outside in Hw; [done | lia]. }
  lia.
Qed.

(** X4. The player changes cell and direction only at a cell centre.
    When its cell changes, it has taken one step in its new direction onto
    a cell inside the grid that is neither a wall nor a gate.  Its new
    direction is the queued one, its old one, or none: it never turns by
    itself; and when neither the queued nor the old direction is legal it
    stands still.  The queued direction is never cleared. *)
Theorem player_moves_legally (keys : Keys) (m : Maze.t) (p : Player.t F) :
  let p' := Player.update keys m p in
  let q := Player.next_direction (Player.handle_input keys p) in
  (at_center_of_cell (Player.pos p) (Player.cell p) = false →
   Player.cell p' = Player.cell p ∧ Player.direction p' = Player.direction p)
  ∧ (Player.cell p' = Player.cell p
     ∨ (Player.direction p' ≠ STOP
        ∧ Player.cell p' = Ghost._next_cell (Player.cell p)
                                            (Player.direction p')
        ∧ Maze.is_wall m (Player.cell p') = false
        ∧ Maze.is_gate m (Player.cell p') = false
        ∧ Maze.in_bounds (Player.cell p').1 (Player.cell p').2 = true))
  ∧ (Player.direction p' = STOP ∨ Player.direction p' = Player.direction p
     ∨ Player.direction p' = q)
  ∧ (at_center_of_cell (Player.pos p) (Player.cell p) = true →
     Player.can_move m (Player.cell p) q = false →
     Player.can_move m (Player.cell p) (Player.direction p) = false →
     Player.direction p' = STOP ∧ Player.cell p' = Player.cell p)
  ∧ Player.next_direction p' = q.
Proof.
  intros p' q. subst p' q.
  destruct (at_center_of_cell (Player.pos p) (Player.cell p)) eqn:Hc.
  - destruct (player_update_at_center keys m p Hc) as (Hd & Hcell & Hq).
    cbv zeta in Hd, Hcell, Hq. rewrite Hq.
    set (q := Player.next_direction (Player.handle_input keys p)) in *.
    set (d1 := if bool_decide (q ≠ Player.direction p)
                  && Player.can_move m (Player.cell p) q
               then q else Player.direction p) in *.
    split; [done|]. split; [|split; [|split; [|done]]].
    + destruct (Player.can_move m (Player.cell p) d1) eqn:Hmove.
      * destruct (decide (d1 = STOP)) as [Hs|Hs].
        { left. rewrite Hcell, Hs. by rewrite bool_decide_eq_false_2 by auto. }
        right. rewrite Hcell, Hd, (bool_decide_eq_true_2 _ Hs).
        split; [done|]. split; [done|].
        by apply player_can_move_target.
      * left. rewrite Hcell. by rewrite bool_decide_eq_false_2 by auto.
    + rewrite Hd. destruct (Player.can_move m (Player.cell p) d1); [|by left].
      right. subst d1. destruct (_ && _); [by right | by left].
    + intros _ Hq1 Hd1. subst d1. rewrite Hq1, andb_false_r in Hd, Hcell.
      rewrite Hd1 in Hd, Hcell. rewrite Hd, Hcell.
      by rewrite bool_decide_eq_false_2 by auto.
  - destruct (player_update_off_center keys m p Hc) as (Hd & Hcell & Hq).
    rewrite Hd, Hcell, Hq. repeat split; try done; [by left | by right; left].
Qed.

(** X5. A queued turn is kept, tick after tick, as long as no key is
    pressed; and at the first cell centre where it is legal it becomes the
    direction. *)
Theorem queued_turn_is_kept (mazes : list Maze.t) (m : Maze.t) (p : Player.t F) :
  let idle := mkKeys false false false false in
  let p' := foldl (λ p m, Player.update idle m p) p mazes in
  Player.next_direction p' = Player.next_direction p
  ∧ (at_center_of_cell (Player.pos p') (Player.cell p') = true →
     Player.can_move m (Player.cell p') (Player.next_direction p) = true →
     Player.direction (Player.update idle m p') = Player.next_direction p).
Proof.
  intros idle p'.
  assert (∀ m0 p0, Player.next_direction (Player.update idle m0 p0)
                   = Player.next_direction p0) as Hkeep.
  { intros m0 p0.
    destruct (at_center_of_cell (Player.pos p0) (Player.cell p0)) eqn:Hc0.
    - by destruct (player_update_at_center idle m0 p0 Hc0) as (_ & _ & ->).
    - by destruct (player_update_off_center idle m0 p0 Hc0) as (_ & _ & ->). }
  assert (Player.next_direction p' = Player.next_direction p) as Hq.
  { subst p'. revert p. induction mazes as [|m0 mazes IH]; intros p; [done|].
    simpl. by rewrite IH, Hkeep. }
  split; [done|]. intros Hc Hlegal.
  destruct (player_update_at_center idle m p' Hc) as (Hd & _).
  cbv zeta in Hd.
  change (Player.handle_input idle p') with p' in Hd.
  rewrite Hd, Hq, Hlegal, andb_true_r.
  destruct (decide (Player.next_direction p = Player.direction p')) as [He|Hne].
  - rewrite bool_decide_eq_false_2 by auto. rewrite <- He. by rewrite Hlegal.
  - rewrite bool_decide_eq_true_2 by done. by rewrite Hlegal.
Qed.

End PlayerMoves.

Lemma player_moves_legally_witness :
  Player.direction
    (Player.update Examples.no_keys Maze.init
                   (Examples.player_on (13, 23) DOWN)) = STOP
  ∧ Player.cell
      (Player.update Examples.no_keys Maze.init
                     (Examples.player_on (13, 23) DOWN)) = (13, 23).
Proof.
  apply (proj1 (proj2 (proj2 (proj2
           (@player_moves_legally Z Milli.ops Examples.no_keys Maze.init
              (Examples.player_on (13, 23) DOWN)))))); reflexivity.
Defined.

Lemma queued_turn_is_kept_witness :
  Player.direction
    (Player.update Examples.no_keys Maze.init
       (Player.mk (13, 23) (6, 5) (center (6, 5)) RIGHT UP (flit 20 1) 10 true))
  = UP.
Proof.
  apply (proj2 (@queued_turn_is_kept Z Milli.ops [] Maze.init
           (Player.mk (13, 23) (6, 5) (center (6, 5)) RIGHT UP (flit 20 1)
                      10 true))); reflexivity.
Defined.

(* ------------------------------------------------------------------ *)
(** ** How a ghost moves *)

Section GhostMoves.
Context {F : Type} `{!FloatOps F}.

Lemma ghost_can_move_target (g : Ghost.t F) (m : Maze.t) (c : Cell)
      (d : Direction) :
  Ghost.can_move g m c d = true →
  Maze.is_wall m (Ghost._next_cell c d) = false
  ∧ (Maze.is_gate m (Ghost._next_cell c d) = true →
     Ghost.state g = GHOST_EYES)
  ∧ Maze.in_bounds (Ghost._next_cell c d).1 (Ghost._next_cell c d).2 = true.
Proof.
  unfold Ghost.can_move, Ghost._next_cell. cbn [fst snd].
  set (nx := wrap_col (c.1 + (dvec d).1)). set (ny := c.2 + (dvec d).2).
  destruct ((ny <? 0) || (ny >=? ROWS)) eqn:Hrow; [done|].
  destruct (Maze.is_wall m (nx, ny)) eqn:Hw; [done|].
  destruct (Maze.is_gate m (nx, ny)) eqn:Hg.
  - destruct (decide (Ghost.state g = GHOST_EYES)) as [He|He].
    + intros _. repeat split; [done|].
      pose proof (wrap_col_range (c.1 + (dvec d).1)) as Hnx. fold nx in Hnx.
      unfold Maze.in_bounds. apply orb_false_iff in Hrow as [? ?]. lia.
    + by rewrite (bool_decide_eq_true_2 _ He).
  - intros _. repeat split; [done|].
    pose proof (wrap_col_range (c.1 + (dvec d).1)) as Hnx. fold nx in Hnx.
    unfold Maze.in_bounds. apply orb_false_iff in Hrow as [? ?]. lia.
Qed.

(** X6. The cell of a ghost changes only in an [update] that starts at a
    cell centre, and then by one step, in a cardinal direction, that is
    legal for it: onto a cell inside the grid that is not a wall, and that
    is a gate only if the ghost is in eyes state. *)
Theorem ghost_moves_legally
        (m : Maze.t) (pc : Cell) (dt_ms : Z) (g : Ghost.t F) (tape : Tape) :
  let g' := (Ghost.update m pc dt_ms g tape).1 in
  Ghost.cell g' = Ghost.cell g
  ∨ (at_center_of_cell (Ghost.pos g) (Ghost.cell g) = true
     ∧ ∃ d, d ≠ STOP
            ∧ Ghost.cell g' = Ghost._next_cell (Ghost.cell g) d
            ∧ Ghost.can_move g m (Ghost.cell g) d = true
            ∧ Maze.is_wall m (Ghost.cell g') = false
            ∧ (Maze.is_gate m (Ghost.cell g') = true →
               Ghost.state g = GHOST_EYES)
            ∧ Maze.in_bounds (Ghost.cell g').1 (Ghost.cell g').2 = true).
Proof.
  unfold Ghost.update, bind.
  pose proof (tick_timer_spec dt_ms g) as (Hc0 & _ & _).
  assert (Ghost.pos (Ghost.tick_timer dt_ms g) = Ghost.pos g) as Hp0.
  { unfold Ghost.tick_timer. destruct (bool_decide _); [|done].
    by destruct (_ <=? 0). }
  pose proof (steer_cell m pc (Ghost.tick_timer dt_ms g) tape) as Hsteer.
  destruct (Ghost.steer m pc (Ghost.tick_timer dt_ms g) tape) as [g1 t1].
  pose proof (revive_spec (Ghost.glide g1) t1) as (Hc2 & _).
  cbn [fst] in *. rewrite Hc2. cbn [Ghost.glide Ghost.cell Ghost.set_pos].
  rewrite Hc0, Hp0 in Hsteer. rewrite can_move_tick_timer in Hsteer.
  destruct Hsteer as [Hsame|(Hc & Hd & Hmove & Hcell)]; [by left|].
  right. split; [done|]. exists (Ghost.direction g1).
  rewrite Hcell. split; [done|]. split; [done|]. split; [done|].
  by apply ghost_can_move_target.
Qed.

(** *** How long a ghost stays vulnerable *)

Lemma updates_keep_normal (ticks : list (Maze.t * Cell * Z)) (g : Ghost.t F)
      (tape : Tape) :
  Ghost.state g = GHOST_NORMAL →
  Ghost.state (Ghost.updates ticks g tape).1 = GHOST_NORMAL.
Proof.
  revert g tape. induction ticks as [|[[m pc] dt] ticks IH]; intros g tape Hs;
    [done|].
  simpl. unfold bind.
  pose proof (update_state m pc dt g tape) as [_ Hst]. cbv zeta in Hst.
  rewrite Hs in Hst.
  destruct (Ghost.update m pc dt g tape) as [g1 t1]. by apply IH.
Qed.

(** X7. A vulnerable ghost with a positive countdown stays vulnerable
    exactly as long as the elapsed times of its updates add up to less
    than the countdown: after updates of non-negative durations it is
    normal if their sum has reached the countdown, and vulnerable with
    the rest of the countdown otherwise (unless the game changes its state
    between the updates). *)
Theorem vulnerable_for_the_duration
        (ticks : list (Maze.t * Cell * Z)) (g : Ghost.t F) (tape : Tape) :
  Ghost.state g = GHOST_VULNERABLE →
  0 < Ghost.vulnerable_timer g →
  Forall (λ tick, 0 ≤ tick.2) ticks →
  let g' := (Ghost.updates ticks g tape).1 in
  let elapsed := total (map snd ticks) in
  if Ghost.vulnerable_timer g - elapsed <=? 0
  then Ghost.state g' = GHOST_NORMAL
  else Ghost.state g' = GHOST_VULNERABLE
       ∧ Ghost.vulnerable_timer g' = Ghost.vulnerable_timer g - elapsed.
Proof.
  revert g tape. induction ticks as [|[[m pc] dt] ticks IH];
    intros g tape Hs Hpos Hdts; simpl.
  { destruct (Z.leb_spec (Ghost.vulnerable_timer g - 0) 0); [lia|].
    split; [done | lia]. }
  apply Forall_cons in Hdts as [Hdt Hdts]. simpl in Hdt.
  assert (0 ≤ total (map snd ticks)) as Hrest.
  { clear -Hdts. induction Hdts as [|[[? ?] ?] ? ? ? IHd]; simpl in *; lia. }
  unfold bind.
  pose proof (update_state m pc dt g tape) as [_ Hst]. cbv zeta in Hst.
  rewrite Hs in Hst. destruct Hst as [Htimer Hstate].
  destruct (Ghost.update m pc dt g tape) as [g1 t1]. cbn [fst] in *.
  destruct (Z.leb_spec (Ghost.vulnerable_timer g - dt) 0) as [Hout|Hin].
  - destruct (Z.leb_spec (Ghost.vulnerable_timer g
                          - (dt + total (map snd ticks))) 0); [|lia].
    by apply updates_keep_normal.
  - specialize (IH g1 t1 Hstate ltac:(lia) Hdts). cbv zeta in IH.
    rewrite Htimer in IH.
    replace (Ghost.vulnerable_timer g - (dt + total (map snd ticks)))
      with (Ghost.vulnerable_timer g - dt - total (map snd ticks)) by lia.
    exact IH.
Qed.

End GhostMoves.

Lemma ghost_moves_legally_witness :
  Maze.is_wall Maze.init
    (Ghost.cell (Ghost.update Maze.init (1, 1) 16
                   (Examples.at_crossing GHOST_NORMAL) []).1) = false.
Proof.
  destruct (@ghost_moves_legally Z Milli.ops Maze.init (1, 1) 16
              (Examples.at_crossing GHOST_NORMAL) [])
    as [Hsame|(_ & d & _ & _ & _ & Hwall & _)].
  - vm_compute in Hsame. discriminate Hsame.
  - exact Hwall.
Defined.

Lemma vulnerable_for_the_duration_witness :
  Ghost.state
    (Ghost.updates [(Maze.init, (1, 1), 2000); (Maze.init, (1, 1), 1000)]
                   (Examples.at_crossing GHOST_VULNERABLE) []).1
  = GHOST_NORMAL.
Proof.
  apply (@vulnerable_for_the_duration Z Milli.ops
           [(Maze.init, (1, 1), 2000); (Maze.init, (1, 1), 1000)]
           (Examples.at_crossing GHOST_VULNERABLE) []).
  - reflexivity.
  - reflexivity.
  - repeat constructor; simpl; lia.
Defined.


(* ------------------------------------------------------------------ *)
(** ** What a tick does to the session *)

Section TickAccounts.
Context {F : Type} `{!FloatOps F}.

Lemma collide_idle (n i : nat) (G : Game.t F) (tape : Tape) :
  (∀ j g, Game.ghosts G !! j = Some g →
          touching (Player.pos (Game.player G)) (Ghost.pos g) = true →
          Ghost.state g = GHOST_EYES) →
  Game.collide n i G tape = (G, tape).
Proof.
  intros Hidle. revert i. induction n as [|n IH]; intros i; simpl; [done|].
  destruct (Game.ghosts G !! i) as [g|] eqn:Hg; [|done].
  destruct (touching _ _) eqn:Ht; [|apply IH].
  rewrite (Hidle i g Hg Ht). apply IH.
Qed.

(** X8. The collision loop changes nothing, and draws nothing from the
    random source, when every ghost that touches the player is in eyes
    state: ghosts out of reach and eaten ghosts are passed over. *)
Theorem collisions_pass_over_eyes (G : Game.t F) (tape : Tape) :
  (∀ j g, Game.ghosts G !! j = Some g →
          touching (Player.pos (Game.player G)) (Ghost.pos g) = true →
          Ghost.state g = GHOST_EYES) →
  Game.resolve_collisions G tape = (G, tape).
Proof. intros Hidle. by apply collide_idle. Qed.

Lemma any_fatal_false (G : Game.t F) :
  Game.any_fatal G = false → ∀ j, Game.fatal G j = false.
Proof.
  intros Hnone j. destruct (Game.fatal G j) eqn:Hj; [|done].
  assert (Game.any_fatal G = true) as Hsome; [|congruence].
  apply existsb_exists. exists j. split; [|done].
  apply in_seq. unfold Game.fatal in Hj.
  destruct (Game.ghosts G !! j) eqn:Hg; [|done].
  apply lookup_lt_Some in Hg. lia.
Qed.

Lemma any_fatal_true (G : Game.t F) :
  Game.any_fatal G = true → ∃ i, Game.fatal G i = true.
Proof. intros Hsome. apply existsb_exists in Hsome as (i & _ & Hi). eauto. Qed.

(** The counters after the collision loop. *)
Lemma resolve_collisions_counters (G : Game.t F) (tape : Tape) :
  let C := (Game.resolve_collisions G tape).1 in
  Game.lives C = Game.lives G - (if Game.any_fatal G then 1 else 0)
  ∧ Game.game_over C
    = (if Game.any_fatal G && (Game.lives G - 1 <=? 0) then true
       else Game.game_over G)
  ∧ Game.maze C = Game.maze G ∧ Game.level C = Game.level G
  ∧ Game.power_duration_ms C = Game.power_duration_ms G
  ∧ Game.ghost_score_base C = Game.ghost_score_base G.
Proof.
  intros C. subst C.
  pose proof (collide_frame (length (Game.ghosts G)) 0 G tape)
    as (Hm & Hlev & Hdur & Hbase).
  fold (Game.resolve_collisions G tape) in Hm, Hlev, Hdur, Hbase.
  cbv zeta in Hm, Hlev, Hdur, Hbase.
  split; [|split; [|done]].
  - destruct (Game.any_fatal G) eqn:Hany.
    + destruct (any_fatal_true G Hany) as [i Hi].
      destruct (first_true (Game.fatal G) i Hi) as (i0 & _ & Hi0 & Hleast).
      assert (i0 < length (Game.ghosts G))%nat as Hlen.
      { unfold Game.fatal in Hi0.
        destruct (Game.ghosts G !! i0) eqn:Hg; [|done].
        by eapply lookup_lt_Some. }
      rewrite (collide_fatal (length (Game.ghosts G) - i0) i0 G tape
                 Hlen ltac:(lia) Hi0 Hleast).
      destruct (collide_prefix i0 0 0 G tape) as (_ & _ & _ & Hlv & _).
      { intros j Hj. apply Hleast. lia. }
      pose proof (lose_life_spec (Game.collide i0 0 G tape).1 tape)
        as (_ & HlivesL & _).
      cbv zeta in HlivesL. rewrite HlivesL, Hlv. done.
    + unfold Game.resolve_collisions.
      destruct (collide_prefix (length (Game.ghosts G)) 0 0 G tape)
        as (_ & _ & _ & Hlv & _).
      { intros j _. by apply any_fatal_false. }
      rewrite Hlv. lia.
  - destruct (Game.any_fatal G) eqn:Hany.
    + destruct (any_fatal_true G Hany) as [i Hi].
      destruct (first_true (Game.fatal G) i Hi) as (i0 & _ & Hi0 & Hleast).
      assert (i0 < length (Game.ghosts G))%nat as Hlen.
      { unfold Game.fatal in Hi0.
        destruct (Game.ghosts G !! i0) eqn:Hg; [|done].
        by eapply lookup_lt_Some. }
      rewrite (collide_fatal (length (Game.ghosts G) - i0) i0 G tape
                 Hlen ltac:(lia) Hi0 Hleast).
      destruct (collide_prefix i0 0 0 G tape) as (_ & _ & _ & Hlv & Hgo & _).
      { intros j Hj. apply Hleast. lia. }
      pose proof (lose_life_spec (Game.collide i0 0 G tape).1 tape)
        as (_ & _ & HoverL & _).
      cbv zeta in HoverL. rewrite HoverL, Hlv, Hgo. done.
    + unfold Game.resolve_collisions.
      destruct (collide_prefix (length (Game.ghosts G)) 0 0 G tape)
        as (_ & _ & _ & _ & Hgo & _).
      { intros j _. by apply any_fatal_false. }
      by rewrite Hgo.
Qed.

(** The counters before the collision loop. *)
Lemma before_collisions_counters (keys : Keys) (dt_ms : Z) (G : Game.t F)
      (tape : Tape) :
  let A := (Game.advance keys dt_ms G tape).1 in
  let B := (Game.before_collisions keys dt_ms G tape).1 in
  Game.lives B = Game.lives G ∧ Game.game_over B = Game.game_over G
  ∧ Game.level B = Game.level G
  ∧ Game.power_duration_ms B = Game.power_duration_ms G
  ∧ Game.ghost_score_base B = Game.ghost_score_base G
  ∧ Game.score B = Game.score G + Game.pellet_points A
  ∧ Game.maze B
    = (Maze.eat (Game.maze G) (Player.cell (Game.player A))).2.
Proof.
  unfold Game.before_collisions, bind, ret.
  pose proof (advance_spec keys dt_ms G tape) as (Hm & Hl & _).
  destruct (Game.advance keys dt_ms G tape) as [G1 t1].
  cbn [fst] in *. cbv zeta in Hm, Hl. unfold Game.ledger in Hl.
  pose proof (eat_pellets_spec G1)
    as (Hm2 & _ & Hlv & Hlev & Hgo & Hb & Hd & Hcase).
  cbv zeta in Hm2, Hlv, Hlev, Hgo, Hb, Hd, Hcase.
  rewrite Hlv, Hgo, Hlev, Hb, Hd, Hm2, Hm.
  assert (Game.score (Game.eat_pellets G1)
          = Game.score G1 + Game.pellet_points G1) as Hscore.
  { unfold Game.pellet_points.
    destruct (Maze.eat _ _).1 as [[|]|]; destruct Hcase as [-> _]; lia. }
  rewrite Hscore. simplify_eq. repeat split; congruence.
Qed.

(** X9. In a tick of a running game the lives drop by exactly one when
    some ghost touches the player in normal state at the collision loop,
    and stay as they are otherwise; and the game is over after the tick
    exactly when they dropped to zero or less. *)
Theorem tick_lives_and_game_over
        (keys : Keys) (dt_ms : Z) (G : Game.t F) (tape : Tape) :
  Game.game_over G = false →
  let B := (Game.before_collisions keys dt_ms G tape).1 in
  let U := (Game.update keys dt_ms G tape).1 in
  Game.lives U = Game.lives G - (if Game.any_fatal B then 1 else 0)
  ∧ Game.game_over U = Game.any_fatal B && (Game.lives G - 1 <=? 0).
Proof.
  intros Hplay B U. subst U. rewrite update_unfold by done. fold B.
  pose proof (before_collisions_counters keys dt_ms G tape)
    as (HlivesB & HoverB & _). cbv zeta in HlivesB, HoverB. fold B in HlivesB, HoverB.
  pose proof (resolve_collisions_counters B
                (Game.before_collisions keys dt_ms G tape).2)
    as (HlivesC & HoverC & _). cbv zeta in HlivesC, HoverC.
  match goal with
  | |- context [Game.level_complete ?C ?t] =>
      pose proof (level_complete_spec C t) as (_ & HlivesU & _ & HoverU & _)
  end.
  cbv zeta in HlivesU, HoverU.
  rewrite HlivesU, HoverU, HlivesC, HoverC, HlivesB, HoverB, Hplay.
  split; [done|]. by destruct (Game.any_fatal B), (Game.lives G - 1 <=? 0).
Qed.

End TickAccounts.

Lemma tick_lives_and_game_over_witness :
  Game.lives (Game.update Examples.no_keys 16 Examples.caught
                          [2; 1; 2]%nat).1 = 2
  ∧ Game.game_over (Game.update Examples.no_keys 16 Examples.caught
                                [2; 1; 2]%nat).1 = false.
Proof.
  pose proof (@tick_lives_and_game_over Z Milli.ops Examples.no_keys 16
                Examples.caught [2; 1; 2]%nat eq_refl) as [Hlives Hover].
  split; [rewrite Hlives | rewrite Hover]; vm_compute; reflexivity.
Defined.

Lemma collisions_pass_over_eyes_witness :
  Game.resolve_collisions
    (Examples.game_with Maze.init (Examples.player_on (1, 5) STOP)
       [Examples.ghost_at "Blinky" "chaser" (1, 5) (center (1, 5)) UP
                          GHOST_EYES 0] 1) []
  = (Examples.game_with Maze.init (Examples.player_on (1, 5) STOP)
       [Examples.ghost_at "Blinky" "chaser" (1, 5) (center (1, 5)) UP
                          GHOST_EYES 0] 1, []).
Proof.
  apply (@collisions_pass_over_eyes Z Milli.ops).
  intros [|j] g Hg _; [|discriminate Hg].
  injection Hg as <-. reflexivity.
Defined.

Section Scores.
Context {F : Type} `{!FloatOps F}.

Lemma collide_log_score (n i : nat) (G : Game.t F) (tape : Tape) :
  let r := (Game.collide_log n i G tape).1 in
  Game.score r.1 = Game.score G + total (awards r.2).
Proof.
  revert i G. induction n as [|n IH]; intros i G; simpl; [lia|].
  destruct (Game.ghosts G !! i) as [g|]; [|simpl; lia].
  destruct (touching _ _); [|apply IH].
  destruct (Ghost.state g); [|unfold bind, ret|apply IH].
  - unfold bind, ret.
    pose proof (lose_life_spec G tape) as (_ & _ & _ & Hs & _).
    destruct (Game.lose_life G tape). simpl in *. lia.
  - specialize (IH (S i) (Game.eat_ghost i g G)).
    destruct (Game.collide_log n (S i) _ tape) as [[G' l] t].
    simpl in *. lia.
Qed.

Lemma chained_awards_nonneg (base c c' : Z) (log : list Event) :
  0 ≤ base → chained base c log c' → 0 ≤ total (awards log).
Proof.
  intros Hb. revert c. induction log as [|[|a] log IH]; simpl; intros c.
  - lia.
  - apply IH.
  - intros [-> Hch]. specialize (IH _ Hch).
    pose proof (Z.pow_nonneg 2 c ltac:(lia)). nia.
Qed.

Lemma pellet_points_nonneg (G : Game.t F) : 0 ≤ Game.pellet_points G.
Proof.
  unfold Game.pellet_points. by destruct (Maze.eat _ _).1 as [[|]|].
Qed.

(** X10. The score after a tick of a running game is the score before,
    plus the points of the pellet under the player after its move (10 for
    a dot, 50 for a power pellet), plus the amounts paid for the ghosts
    eaten in the tick; nothing else writes the score, and with a base
    score that is not negative it never goes down. *)
Theorem tick_score
        (keys : Keys) (dt_ms : Z) (G : Game.t F) (tape : Tape) :
  Game.game_over G = false →
  let A := (Game.advance keys dt_ms G tape).1 in
  let r := (Game.update_log keys dt_ms G tape).1 in
  (Game.update keys dt_ms G tape).1 = r.1
  ∧ Game.score r.1
    = Game.score G + Game.pellet_points A + total (awards r.2)
  ∧ (0 ≤ Game.ghost_score_base G → Game.score G ≤ Game.score r.1).
Proof.
  intros Hplay A r.
  assert ((Game.update keys dt_ms G tape).1 = r.1) as Herase
      by (by rewrite update_log_erase).
  split; [done|].
  assert (Game.score r.1
          = Game.score G + Game.pellet_points A + total (awards r.2))
    as Hscore.
  { subst r A. unfold Game.update_log, bind, ret. rewrite Hplay.
    pose proof (before_collisions_counters keys dt_ms G tape)
      as (_ & _ & _ & _ & _ & HscoreB & _).
    unfold Game.before_collisions, bind, ret in HscoreB.
    destruct (Game.advance keys dt_ms G tape) as [G1 t1].
    cbn [fst] in HscoreB |- *. cbv zeta in HscoreB.
    pose proof (collide_log_score
                  (length (Game.ghosts (Game.eat_pellets G1))) 0
                  (Game.eat_pellets G1) t1) as HscoreC.
    destruct (Game.collide_log _ 0 _ t1) as [[G3 l] t3].
    cbn [fst snd] in HscoreC |- *. cbv zeta in HscoreC.
    pose proof (level_complete_spec G3 t3) as (HscoreU & _).
    destruct (Game.level_complete G3 t3) as [G4 t4].
    cbn [fst snd] in HscoreU |- *. cbv zeta in HscoreU.
    rewrite HscoreU, HscoreC, HscoreB.
    by destruct (Game.eats_major G1). }
  split; [done|]. intros Hbase. rewrite Hscore.
  pose proof (update_log_chained keys dt_ms G tape) as [Hch _].
  pose proof (chained_awards_nonneg _ _ _ _ Hbase Hch).
  pose proof (pellet_points_nonneg A). subst r. lia.
Qed.

End Scores.

Lemma tick_score_witness :
  Game.score (Game.update Examples.no_keys 16 Examples.ambush []).1 = 650.
Proof.
  pose proof (@tick_score Z Milli.ops Examples.no_keys 16 Examples.ambush []
                eq_refl) as (-> & -> & _).
  vm_compute. reflexivity.
Defined.

(* ------------------------------------------------------------------ *)
(** ** What holds throughout a session *)

Section Sessions.
Context {F : Type} `{!FloatOps F}.

Lemma update_frame (keys : Keys) (dt_ms : Z) (G : Game.t F) (tape : Tape) :
  Game.game_over G = false →
  let A := (Game.advance keys dt_ms G tape).1 in
  let m1 := (Maze.eat (Game.maze G) (Player.cell (Game.player A))).2 in
  let U := (Game.update keys dt_ms G tape).1 in
  Game.level U
  = Game.level G + (if Maze.remaining_pellets m1 <=? 0 then 1 else 0)
  ∧ Game.maze U = (if Maze.remaining_pellets m1 <=? 0 then Maze.init else m1)
  ∧ Game.ghost_score_base U = Game.ghost_score_base G
  ∧ Game.power_duration_ms U = Game.power_duration_ms G
  ∧ map Ghost.start_cell (Game.ghosts U)
    = map Ghost.start_cell (Game.ghosts G)
  ∧ Player.start_cell (Game.player U) = Player.start_cell (Game.player G).
Proof.
  intros Hplay A m1 U. subst U. rewrite update_unfold by done.
  pose proof (before_collisions_counters keys dt_ms G tape)
    as (_ & _ & HlevB & HdurB & HbaseB & _ & HmazeB).
  cbv zeta in HlevB, HdurB, HbaseB, HmazeB. fold A in HmazeB. fold m1 in HmazeB.
  pose proof (cast_before_collisions keys dt_ms G tape) as [HcastB HstartB].
  cbv zeta in HcastB, HstartB.
  set (B := Game.before_collisions keys dt_ms G tape) in *.
  pose proof (resolve_collisions_counters B.1 B.2)
    as (_ & _ & HmazeC & HlevC & HdurC & HbaseC).
  cbv zeta in HmazeC, HlevC, HdurC, HbaseC.
  pose proof (cast_collide (length (Game.ghosts B.1)) 0 B.1 B.2)
    as [HcastC HstartC].
  fold (Game.resolve_collisions B.1 B.2) in HcastC, HstartC.
  cbv zeta in HcastC, HstartC.
  set (C := Game.resolve_collisions B.1 B.2) in *.
  pose proof (level_complete_spec C.1 C.2)
    as (_ & _ & _ & _ & HbaseU & HdurU & Hcase).
  cbv zeta in HbaseU, HdurU, Hcase.
  rewrite HmazeC, HmazeB in Hcase.
  rewrite HbaseU, HdurU, HbaseC, HdurC, HbaseB, HdurB.
  destruct (Maze.remaining_pellets m1 <=? 0).
  - destruct Hcase as (HmazeU & HlevU & Hreset).
    pose proof (cast_at_start _ _ Hreset) as [HcastU _].
    destruct Hreset as (_ & HstartU & _).
    rewrite HlevU, HlevC, HlevB, HmazeU, HcastU, HcastC, HcastB.
    rewrite HstartU, HstartC, HstartB. done.
  - rewrite Hcase, HlevC, HlevB, HmazeC, HmazeB, HcastC, HcastB.
    rewrite HstartC, HstartB. repeat split; try done. lia.
Qed.

Lemma update_score_le (keys : Keys) (dt_ms : Z) (G : Game.t F) (tape : Tape) :
  0 ≤ Game.ghost_score_base G →
  Game.score G ≤ Game.score (Game.update keys dt_ms G tape).1.
Proof.
  intros Hbase. rewrite update_log_erase. cbn [fst].
  pose proof (update_log_chained keys dt_ms G tape) as [Hch _].
  pose proof (chained_awards_nonneg _ _ _ _ Hbase Hch) as Hawards.
  revert Hawards. unfold Game.update_log, bind, ret.
  destruct (Game.game_over G) eqn:Hplay; [simpl; lia|].
  pose proof (before_collisions_counters keys dt_ms G tape)
    as (_ & _ & _ & _ & _ & HscoreB & _).
  unfold Game.before_collisions, bind, ret in HscoreB.
  destruct (Game.advance keys dt_ms G tape) as [G1 t1].
  cbn [fst] in HscoreB |- *. cbv zeta in HscoreB.
  pose proof (collide_log_score
                (length (Game.ghosts (Game.eat_pellets G1))) 0
                (Game.eat_pellets G1) t1) as HscoreC.
  destruct (Game.collide_log _ 0 _ t1) as [[G3 l] t3].
  cbn [fst snd] in HscoreC |- *. cbv zeta in HscoreC.
  pose proof (level_complete_spec G3 t3) as (HscoreU & _).
  destruct (Game.level_complete G3 t3) as [G4 t4].
  cbn [fst snd] in HscoreU |- *. cbv zeta in HscoreU.
  rewrite HscoreU, HscoreC, HscoreB.
  pose proof (pellet_points_nonneg G1).
  destruct (Game.eats_major G1); simpl; lia.
Qed.

Lemma init_in_order (tape : Tape) : Game.in_order (Game.init (F := F) tape).1.
Proof.
  unfold Game.init, Ghost.init, bind, ret.
  destruct (choice CARDINALS tape) as [d1 t1].
  destruct (choice CARDINALS t1) as [d2 t2].
  unfold Game.in_order. simpl. repeat split; try done; lia.
Qed.

Lemma update_in_order (keys : Keys) (dt_ms : Z) (G : Game.t F) (tape : Tape) :
  Game.in_order G → Game.in_order (Game.update keys dt_ms G tape).1.
Proof.
  intros HG. destruct (Game.game_over G) eqn:Hplay.
  { unfold Game.update. by rewrite Hplay. }
  destruct HG as (Hlives & Hover & Hlevel & Hscore & Hbase & Hdur & Hcast
                  & Hstart).
  pose proof (update_frame keys dt_ms G tape Hplay)
    as (HlevU & _ & HbaseU & HdurU & HcastU & HstartU).
  cbv zeta in HlevU, HbaseU, HdurU, HcastU, HstartU.
  pose proof (update_score_le keys dt_ms G tape ltac:(lia)) as HscoreU.
  (* lives and game over *)
  assert (Game.lives G ≠ 0) as Hpos.
  { intros Hz. apply Hover in Hz. congruence. }
  assert (let B := (Game.before_collisions keys dt_ms G tape).1 in
          let U := (Game.update keys dt_ms G tape).1 in
          Game.lives U = Game.lives G - (if Game.any_fatal B then 1 else 0)
          ∧ Game.game_over U
            = Game.any_fatal B && (Game.lives G - 1 <=? 0))
    as [HlivesU HoverU].
  { intros B U. subst U. rewrite update_unfold by done. fold B.
    pose proof (before_collisions_counters keys dt_ms G tape)
      as (HlivesB & HoverB & _).
    cbv zeta in HlivesB, HoverB. fold B in HlivesB, HoverB.
    pose proof (resolve_collisions_counters B
                  (Game.before_collisions keys dt_ms G tape).2)
      as (HlivesC & HoverC & _). cbv zeta in HlivesC, HoverC.
    match goal with
    | |- context [Game.level_complete ?C ?t] =>
        pose proof (level_complete_spec C t)
          as (_ & HlivesU & _ & HoverU & _)
    end.
    cbv zeta in HlivesU, HoverU.
    rewrite HlivesU, HoverU, HlivesC, HoverC, HlivesB, HoverB, Hplay.
    split; [done|].
    by destruct (Game.any_fatal B), (Game.lives G - 1 <=? 0). }
  unfold Game.in_order.
  rewrite HlivesU, HoverU, HlevU, HbaseU, HdurU, HcastU, HstartU.
  split; [destruct (Game.any_fatal _); lia|].
  split.
  { destruct (Game.any_fatal _); simpl.
    - destruct (Z.leb_spec (Game.lives G - 1) 0); split; intros; try done; lia.
    - split; [done | lia]. }
  split; [destruct (_ <=? 0); lia|]. repeat split; try done. lia.
Qed.

Lemma handle_restart_cases (key_r : bool) (G : Game.t F) (tape : Tape) :
  Game.handle_restart key_r G tape
  = (if Game.game_over G && key_r then Game.init tape else (G, tape)).
Proof. unfold Game.handle_restart. by destruct (_ && _). Qed.

Lemma in_session_reachable (G : Game.t F) :
  Game.in_session G → Game.reachable G.
Proof.
  induction 1 as [tape|G keys key_r dt_ms tape _ IH].
  - constructor.
  - unfold Game.frame, bind.
    destruct (Game.update keys dt_ms G tape) as [U t1] eqn:HU.
    rewrite handle_restart_cases.
    destruct (_ && _); [constructor|].
    change U with (U, t1).1. rewrite <- HU. by constructor.
Qed.

(** X11. Throughout a session, restarts included: the lives are between 0
    and 3 and the game is over exactly when they are 0; the level is at
    least 1 and the score is not negative; the base score and the power
    duration stay 200 and 6000; the two ghosts and the player keep their
    start cells; and the combo is between 0 and the number of ghosts that
    are not vulnerable. *)
Theorem session_in_order (G : Game.t F) :
  Game.in_session G → Game.in_order G ∧ Game.combo_bounded G.
Proof.
  intros HG. split; [|by apply reachable_bounded, in_session_reachable].
  induction HG as [tape|G keys key_r dt_ms tape _ IH].
  - apply init_in_order.
  - unfold Game.frame, bind.
    pose proof (update_in_order keys dt_ms G tape IH) as HU.
    destruct (Game.update keys dt_ms G tape) as [U t1].
    rewrite handle_restart_cases.
    destruct (_ && _); [apply init_in_order | exact HU].
Qed.

Lemma init_maze_in_play (tape : Tape) :
  Game.maze_in_play (Game.init (F := F) tape).1.
Proof.
  unfold Game.init, Ghost.init, bind, ret.
  destruct (choice CARDINALS tape) as [d1 t1].
  destruct (choice CARDINALS t1) as [d2 t2].
  unfold Game.maze_in_play. cbn [fst Game.maze].
  split; [apply init_counted|]. split; [apply init_well_formed|].
  split; [by vm_compute|done].
Qed.

Lemma update_maze_in_play (keys : Keys) (dt_ms : Z) (G : Game.t F)
      (tape : Tape) :
  Game.maze_in_play G → Game.maze_in_play (Game.update keys dt_ms G tape).1.
Proof.
  intros HG. destruct (Game.game_over G) eqn:Hplay.
  { unfold Game.update. by rewrite Hplay. }
  destruct HG as (Hcount & Hwf & Hrem & Hwalls).
  pose proof (update_frame keys dt_ms G tape Hplay) as (_ & HmazeU & _).
  cbv zeta in HmazeU. unfold Game.maze_in_play. rewrite HmazeU.
  set (c := Player.cell (Game.player (Game.advance keys dt_ms G tape).1)).
  destruct (Z.leb_spec (Maze.remaining_pellets (Maze.eat (Game.maze G) c).2) 0)
    as [Hdone|Hleft].
  - split; [apply init_counted|]. split; [apply init_well_formed|].
    split; [by vm_compute|done].
  - split; [by apply eat_counted|]. split; [by apply eat_well_formed|].
    split.
    + pose proof (eat_remaining_le (Game.maze G) c). lia.
    + intros c'.
      destruct (eat_keeps_walls_and_gates (Game.maze G) c c') as [-> ->].
      apply Hwalls.
Qed.

(** X12. Throughout a session, between two ticks, the maze has the shape
    and the walls and gates of the layout, its counter is the number of
    collectibles in its grid, and that number is between 1 and 262: a
    tick never ends on an empty maze. *)
Theorem session_maze_in_play (G : Game.t F) :
  Game.in_session G → Game.maze_in_play G.
Proof.
  induction 1 as [tape|G keys key_r dt_ms tape _ IH].
  - apply init_maze_in_play.
  - unfold Game.frame, bind.
    pose proof (update_maze_in_play keys dt_ms G tape IH) as HU.
    destruct (Game.update keys dt_ms G tape) as [U t1].
    rewrite handle_restart_cases.
    destruct (_ && _); [apply init_maze_in_play | exact HU].
Qed.

(** X13. Once the game is over, frames in which R is not pressed leave
    the whole session as it is and draw nothing from the random source,
    whatever the other keys and the elapsed times; a frame with R pressed
    starts a new session; and while the game is running R does nothing. *)
Theorem game_over_until_restart
        (inputs : list (Keys * bool * Z)) (keys : Keys) (key_r : bool)
        (dt_ms : Z) (G : Game.t F) (tape : Tape) :
  (Game.game_over G = true →
   Forall (λ input, input.1.2 = false) inputs →
   Game.frames inputs G tape = (G, tape))
  ∧ (Game.game_over G = true →
     Game.frame keys true dt_ms G tape = Game.init tape)
  ∧ (Game.game_over (Game.update keys dt_ms G tape).1 = false →
     Game.frame keys key_r dt_ms G tape = Game.update keys dt_ms G tape).
Proof.
  split; [|split].
  - intros Hover Hidle. induction Hidle as [|[[k r] dt] inputs Hr _ IH];
      [done|].
    simpl in Hr. subst r. simpl. unfold bind, Game.frame, bind, Game.update.
    rewrite Hover. unfold ret. rewrite handle_restart_cases.
    rewrite andb_false_r. exact IH.
  - intros Hover. unfold Game.frame, bind, Game.update. rewrite Hover.
    unfold ret. rewrite handle_restart_cases. by rewrite Hover.
  - intros Hplay. unfold Game.frame, bind.
    destruct (Game.update keys dt_ms G tape) as [U t1].
    rewrite handle_restart_cases. simpl in Hplay. by rewrite Hplay.
Qed.

End Sessions.

Lemma session_in_order_witness :
  Game.in_order (Game.frame Examples.no_keys false 16
                            (Game.init (F := Z) [1; 2]%nat).1 [3]%nat).1.
Proof.
  apply (@session_in_order Z Milli.ops).
  apply Game.session_frame, Game.session_start.
Defined.

Lemma session_maze_in_play_witness :
  Game.maze_in_play (Game.frame Examples.no_keys false 16
                                (Game.init (F := Z) [1; 2]%nat).1 [3]%nat).1.
Proof.
  apply (@session_maze_in_play Z Milli.ops).
  apply Game.session_frame, Game.session_start.
Defined.

Lemma game_over_until_restart_witness :
  let G := Game.mk Maze.init (13, 23) (Examples.player_on (13, 23) STOP)
                   (Game.ghosts Examples.caught) 120 0 1 6000 200 0 true in
  Game.frames [(Examples.no_keys, false, 16);
               (mkKeys true false false false, false, 17)] G [5]%nat
  = (G, [5]%nat).
Proof.
  intros G.
  apply (proj1 (@game_over_until_restart Z Milli.ops _ Examples.no_keys
                  false 16 G [5]%nat)).
  - reflexivity.
  - repeat constructor.
Defined.

(* ------------------------------------------------------------------ *)
(** ** The ghost house *)

Lemma mapR_Forall {A B} (f : A → Rand B) (P : A → Prop) (Q : B → Prop) :
  (∀ a t, P a → Q (f a t).1) →
  ∀ l t, Forall P l → Forall Q (mapR f l t).1.
Proof.
  intros Hf. induction l as [|a l IH]; intros t Hl; simpl.
  - constructor.
  - apply Forall_cons in Hl as [Ha Hl]. unfold bind, ret.
    specialize (Hf a t Ha). destruct (f a t) as [b t1].
    specialize (IH t1 Hl). destruct (mapR f l t1) as [bs t2].
    simpl in *. by constructor.
Qed.

Section GhostHouse.
Context {F : Type} `{!FloatOps F}.

Lemma can_move_same_walls (g : Ghost.t F) (m m' : Maze.t) (c : Cell)
      (d : Direction) :
  (∀ c', Maze.is_wall m c' = Maze.is_wall m' c'
         ∧ Maze.is_gate m c' = Maze.is_gate m' c') →
  Ghost.can_move g m c d = Ghost.can_move g m' c d.
Proof.
  intros Hsame. unfold Ghost.can_move.
  by destruct (Hsame (wrap_col (c.1 + (dvec d).1), c.2 + (dvec d).2))
    as [-> ->].
Qed.

(** Outside eyes state no legal step leads out of the house. *)
Lemma house_is_closed (g : Ghost.t F) (c : Cell) (d : Direction) :
  Ghost.state g ≠ GHOST_EYES → Ghost.in_house c = true →
  Ghost.can_move g Maze.init c d = true →
  Ghost.in_house (Ghost._next_cell c d) = true.
Proof.
  intros Hs Hc.
  rewrite (can_move_alive g (Ghost.set_state GHOST_NORMAL g)) by done.
  destruct c as [x y]. unfold Ghost.in_house in Hc. simpl in Hc.
  assert (x = 11 ∨ x = 12 ∨ x = 13 ∨ x = 14 ∨ x = 15 ∨ x = 16) as Hx by lia.
  assert (y = 13 ∨ y = 14 ∨ y = 15) as Hy by lia.
  clear Hc.
  destruct Hx as [-> | [-> | [-> | [-> | [-> | ->]]]]];
    destruct Hy as [-> | [-> | ->]];
    destruct d; vm_compute; congruence.
Qed.

Lemma update_housed (m : Maze.t) (pc : Cell) (dt_ms : Z) (g : Ghost.t F)
      (tape : Tape) :
  (∀ c, Maze.is_wall m c = Maze.is_wall Maze.init c
        ∧ Maze.is_gate m c = Maze.is_gate Maze.init c) →
  Ghost.housed g → Ghost.housed (Ghost.update m pc dt_ms g tape).1.
Proof.
  intros Hwalls (Hstart & Hhome & Hcell).
  pose proof (update_state m pc dt_ms g tape) as [Hh Hst].
  pose proof (ghost_update_start m pc dt_ms g tape) as Hs.
  pose proof (ghost_update_cell m pc dt_ms g tape) as Hmove.
  cbv zeta in Hh, Hst, Hmove.
  set (g' := (Ghost.update m pc dt_ms g tape).1) in *.
  unfold Ghost.housed. rewrite Hs, Hh. split; [done|]. split; [done|].
  intros Hne.
  destruct (decide (Ghost.state g = GHOST_EYES)) as [He|Halive].
  - rewrite He in Hst. rewrite Hst in Hne.
    destruct (decide (Ghost.cell g' = Ghost.home_cell g')) as [Hat|Hat].
    + by rewrite Hat, Hh.
    + by rewrite (bool_decide_eq_false_2 _ Hat) in Hne.
  - specialize (Hcell Halive).
    destruct Hmove as [->|(_ & d & _ & -> & Hlegal)]; [done|].
    rewrite (can_move_same_walls g m Maze.init) in Hlegal by done.
    by apply (house_is_closed g).
Qed.

Lemma set_vulnerable_housed (duration_ms : Z) (g : Ghost.t F) :
  Ghost.housed g → Ghost.housed (Ghost.set_vulnerable duration_ms g).
Proof.
  intros (Hstart & Hhome & Hcell). unfold Ghost.set_vulnerable.
  destruct (decide (Ghost.state g = GHOST_EYES)) as [He|Halive].
  - by rewrite (bool_decide_eq_true_2 _ He).
  - rewrite (bool_decide_eq_false_2 _ Halive).
    repeat split; try done. intros _. by apply Hcell.
Qed.

Lemma reset_housed (g : Ghost.t F) (tape : Tape) :
  Ghost.housed g → Ghost.housed (Ghost.reset g tape).1.
Proof.
  intros (Hstart & _ & _). unfold Ghost.reset, Ghost.init, bind, ret.
  by destruct (choice CARDINALS tape).
Qed.

Lemma reset_positions_housed (G : Game.t F) (tape : Tape) :
  Forall Ghost.housed (Game.ghosts G) →
  Forall Ghost.housed (Game.ghosts (Game.reset_positions G tape).1).
Proof.
  intros HG. unfold Game.reset_positions, bind, ret.
  pose proof (mapR_Forall Ghost.reset Ghost.housed Ghost.housed
                (λ g t, reset_housed g t) (Game.ghosts G) tape HG) as Hgs.
  cbn [Game.ghosts Game.set_player] in *.
  by destruct (mapR Ghost.reset (Game.ghosts G) tape).
Qed.

Lemma collide_housed (n i : nat) (G : Game.t F) (tape : Tape) :
  Forall Ghost.housed (Game.ghosts G) →
  Forall Ghost.housed (Game.ghosts (Game.collide n i G tape).1).
Proof.
  revert i G. induction n as [|n IH]; intros i G HG; simpl; [done|].
  destruct (Game.ghosts G !! i) as [g|] eqn:Hg; [|done].
  destruct (touching _ _); [|by apply IH].
  destruct (Ghost.state g) eqn:Hs; [| |by apply IH].
  - unfold Game.lose_life. apply reset_positions_housed.
    by destruct (_ <=? 0).
  - apply IH.
    pose proof (eat_ghost_spec i g G) as (_ & _ & -> & _).
    apply Forall_insert; [done|].
    destruct (Forall_lookup_1 _ _ _ _ HG Hg) as (Hstart & Hhome & _).
    by repeat split.
Qed.

Lemma update_all_housed (keys : Keys) (dt_ms : Z) (G : Game.t F)
      (tape : Tape) :
  Game.maze_in_play G → Forall Ghost.housed (Game.ghosts G) →
  Forall Ghost.housed (Game.ghosts (Game.update keys dt_ms G tape).1).
Proof.
  intros (_ & _ & _ & Hwalls) HG. unfold Game.update.
  destruct (Game.game_over G); [done|]. unfold bind.
  (* the ghosts move *)
  assert (Forall Ghost.housed
                 (Game.ghosts (Game.advance keys dt_ms G tape).1)) as HA.
  { unfold Game.advance, bind, ret.
    match goal with
    | |- context [mapR ?f ?l tape] =>
        pose proof (mapR_Forall f Ghost.housed Ghost.housed
                      (λ g t, update_housed _ _ _ g t Hwalls) l tape HG)
          as Hgs;
        destruct (mapR f l tape) as [gs t1]
    end.
    done. }
  destruct (Game.advance keys dt_ms G tape) as [G1 t1]. cbn [fst] in HA.
  (* the pellet *)
  assert (Forall Ghost.housed (Game.ghosts (Game.eat_pellets G1))) as HB.
  { pose proof (eat_pellets_spec G1) as (_ & _ & _ & _ & _ & _ & _ & Hcase).
    cbv zeta in Hcase.
    destruct (Maze.eat _ _).1 as [[|]|]; destruct Hcase as (_ & _ & ->);
      try done.
    apply Forall_fmap. eapply Forall_impl; [exact HA|].
    intros g Hg. by apply set_vulnerable_housed. }
  (* the collisions and the end of the level *)
  pose proof (collide_housed (length (Game.ghosts (Game.eat_pellets G1))) 0
                (Game.eat_pellets G1) t1 HB) as HC.
  fold (Game.resolve_collisions (Game.eat_pellets G1) t1) in HC.
  destruct (Game.resolve_collisions (Game.eat_pellets G1) t1) as [G3 t3].
  cbn [fst] in HC. unfold Game.level_complete.
  destruct (_ <=? 0); [|done].
  unfold Game.next_level. by apply reset_positions_housed.
Qed.

Lemma init_housed (tape : Tape) :
  Forall Ghost.housed (Game.ghosts (Game.init (F := F) tape).1).
Proof.
  unfold Game.init, Ghost.init, bind, ret.
  destruct (choice CARDINALS tape) as [d1 t1].
  destruct (choice CARDINALS t1) as [d2 t2].
  by repeat constructor.
Qed.

(** X14. With the layout of the program, throughout a session every ghost
    that is not in eyes state is inside the ghost house (columns 11 to 16,
    rows 13 to 15): in normal and in vulnerable state the ghosts never get
    past the gate, and a ghost that was eaten comes back to normal state
    only in the house. *)
Theorem ghosts_stay_in_the_house (G : Game.t F) :
  Game.in_session G →
  Forall (λ g, Ghost.state g ≠ GHOST_EYES →
               Ghost.in_house (Ghost.cell g) = true) (Game.ghosts G).
Proof.
  intros HG.
  assert (Game.maze_in_play G ∧ Forall Ghost.housed (Game.ghosts G))
    as [_ Hhoused].
  { induction HG as [tape|G keys key_r dt_ms tape _ [IHm IHh]].
    - split; [apply init_maze_in_play | apply init_housed].
    - unfold Game.frame, bind.
      pose proof (update_maze_in_play keys dt_ms G tape IHm) as Hm.
      pose proof (update_all_housed keys dt_ms G tape IHm IHh) as Hh.
      destruct (Game.update keys dt_ms G tape) as [U t1].
      rewrite handle_restart_cases.
      destruct (_ && _); [|done].
      split; [apply init_maze_in_play | apply init_housed]. }
  eapply Forall_impl; [exact Hhoused|]. by intros g (_ & _ & Hcell).
Qed.

End GhostHouse.

Lemma ghosts_stay_in_the_house_witness :
  Forall (λ g, Ghost.state g ≠ GHOST_EYES →
               Ghost.in_house (Ghost.cell g) = true)
         (Game.ghosts (Game.frame Examples.no_keys false 16
                         (Game.init (F := Z) [1; 2]%nat).1 [3]%nat).1).
Proof.
  apply (@ghosts_stay_in_the_house Z Milli.ops).
  apply Game.session_frame, Game.session_start.
Defined.

(* ------------------------------------------------------------------ *)
(** ** Where a chaser heads *)

Section Targets.
Context {F : Type} `{!FloatOps F}.


End Targets.


(* ------------------------------------------------------------------ *)
(** ** The order of consumption *)

Lemma set_tile_commute (g : Grid) (x y x' y' : Z) (c c' : ascii) :
  0 ≤ x → 0 ≤ y → 0 ≤ x' → 0 ≤ y' → (x, y) ≠ (x', y') →
  Maze.set_tile (Maze.set_tile g x y c) x' y' c'
  = Maze.set_tile (Maze.set_tile g x' y' c') x y c.
Proof.
  intros Hx Hy Hx' Hy' Hne. unfold Maze.set_tile.
  destruct (decide (Z.to_nat y' = Z.to_nat y)) as [Heq|Hrow].
  - rewrite Heq, !list_alter_alter_eq. apply list_alter_ext; [|done].
    intros row _. simpl. apply list_insert_insert_ne.
    intros Hcol. apply Hne. f_equal; lia.
  - by apply list_alter_alter_ne.
Qed.

Lemma eat_then_eat (m : Maze.t) (a b : Cell) :
  (Maze.eat (Maze.eat m a).2 b).2 = (Maze.eat (Maze.eat m b).2 a).2.
Proof.
  destruct (decide (a = b)) as [->|Hne]; [done|].
  destruct a as [x y], b as [x' y'].
  assert (∀ m0 u v u' v' k,
             (u, v) ≠ (u', v') → Maze.in_bounds u v = true →
             Maze.tile (Maze.grid m0) u v = k → k ≠ EMPTY →
             Maze.eat (Maze.mk (Maze.set_tile (Maze.grid m0) u v EMPTY)
                               (Maze.dots_total m0 - 1)) (u', v')
             = ((Maze.eat m0 (u', v')).1,
                if (Maze.eat m0 (u', v')).1 is Some _
                then Maze.mk (Maze.set_tile
                                (Maze.set_tile (Maze.grid m0) u v EMPTY)
                                u' v' EMPTY)
                             (Maze.dots_total m0 - 1 - 1)
                else Maze.mk (Maze.set_tile (Maze.grid m0) u v EMPTY)
                             (Maze.dots_total m0 - 1))) as Hafter.
  { intros m0 u v u' v' k Huv Hb Hk Hke. unfold Maze.eat.
    cbn [Maze.grid Maze.dots_total].
    destruct (Maze.in_bounds u' v') eqn:Hb'; [|done].
    unfold Maze.in_bounds in Hb, Hb'.
    rewrite tile_set_tile_other by (first [lia | congruence]).
    destruct (Ascii.eqb _ DOT); [done|]. by destruct (Ascii.eqb _ POWER). }
  destruct tiles_distinct as (Hde & Hpe & _).
  destruct (eat_cases m x y) as [(Hb & Ht & He)|[(Hb & Ht & He)|(_ & He)]];
    destruct (eat_cases m x' y')
      as [(Hb' & Ht' & He')|[(Hb' & Ht' & He')|(_ & He')]];
    rewrite ?He, ?He'; cbn [snd];
    rewrite ?(Hafter m x y x' y' _ Hne Hb Ht) by congruence;
    rewrite ?(Hafter m x' y' x y _ (not_eq_sym Hne) Hb' Ht') by congruence;
    rewrite ?He, ?He'; cbn [fst snd]; try done;
    f_equal; unfold Maze.in_bounds in Hb, Hb';
    apply set_tile_commute; first [lia | done].
Qed.

(** X16. The maze left by a sequence of [eat] calls does not depend on
    their order: any rearrangement of the cells gives the same grid and
    the same count. *)
Theorem eat_order_is_irrelevant (m : Maze.t) (cells cells' : list Cell) :
  cells ≡ₚ cells' → Maze.eat_all m cells = Maze.eat_all m cells'.
Proof.
  intros Hperm. revert m.
  induction Hperm as [|c l l' _ IH|a b l|l1 l2 l3 _ IH1 _ IH2]; intros m.
  - done.
  - simpl. apply IH.
  - simpl. by rewrite eat_then_eat.
  - by rewrite IH1.
Qed.

Lemma eat_order_is_irrelevant_witness :
  Maze.eat_all Maze.init [(1, 1); (1, 3); (0, 0)]
  = Maze.eat_all Maze.init [(0, 0); (1, 3); (1, 1)].
Proof.
  apply eat_order_is_irrelevant.
  apply (Permutation_rev [(1, 1); (1, 3); (0, 0)]).
Defined.
